(** * Behaviour layer of the portfolio site: a shallow embedding

    The JavaScript modules of the site (ThemeManager, AnimationManager,
    NavigationManager, LoadingManager) are thin bindings between browser
    events and DOM mutations.  They are embedded here as functions in a
    small state-and-exception monad over an explicit browser [World]:
    a store of elements (class list, attributes, inline style, text), the
    local storage, the targets of each IntersectionObserver, and a log of
    the effectful browser calls performed so far.

    JavaScript numbers are IEEE 754 binary64 values: they are the
    primitive [float]s of the kernel, so that [0 / 0] is [nan] here as it
    is in the browser. *)

From stdpp Require Import gmap strings list fin_maps pretty.
From Stdlib Require Import Floats ZArith Lia.

(* ===================================================================== *)
(** * The browser world                                                   *)
(* ===================================================================== *)

Module Dom.

(** A node is a reference to an element object.  Every reference denotes
    an element: one that was never written to is the element with no
    class, no attribute, no inline style and no text. *)
Abbreviation node := nat.

(** The two elements every document has: [document.body] and
    [document.documentElement]. *)
Definition document_body : node := 0.
Definition document_documentElement : node := 1.

(** The value assigned to an inline style property: a literal string, or
    the template [`${v}%`] of a number [v].  The store keeps the value
    of a property as it was last assigned and accepted. *)
Inductive CssValue :=
| CssText (s : string)
| CssPercent (v : float).

Record Element := mkElement {
  classList : gset string;
  attributes : gmap string string;
  style : gmap string CssValue;
  textContent : string
}.

#[global] Instance Element_inhabited : Inhabited Element :=
  populate (mkElement ∅ ∅ ∅ "").

(** Closures handed to [setTimeout].  [TaskNavigate url] assigns
    [link.href] to [window.location.href]; the anchors of a page do not
    change here, so the URL is the one read at the click. *)
Inductive Task :=
| TaskNavigate (url : string)
| TaskLoaderGone (loader : node)
| TaskHideLoader
| TaskTransitionReset (overlay : node).

(** The effectful browser calls, in the order the log records them
    (most recent first). *)
Inductive Effect :=
| ClassAdd (n : node) (c : string)
| ClassRemove (n : node) (c : string)
| SetAttribute (n : node) (k v : string)
| SetStyle (n : node) (prop : string) (v : CssValue)
| SetText (n : node) (s : string)
| StorageSet (k v : string)
| DispatchEvent (type detail : string)
| PreventDefault
| SetTimeout (ms : nat) (t : Task)
| ScrollTo (top : Z)
| Navigate (url : string)
| Observe (obs : nat) (n : node)
| Unobserve (obs : nat) (n : node)
| Disconnect (obs : nat).

Record World := mkWorld {
  dom : gmap node Element;
  localStorage : gmap string string;
  observing : gmap nat (gset node);
  log : list Effect
}.

Definition with_dom (f : gmap node Element → gmap node Element) (w : World) : World :=
  mkWorld (f (dom w)) (localStorage w) (observing w) (log w).

Definition with_storage (f : gmap string string → gmap string string) (w : World) : World :=
  mkWorld (dom w) (f (localStorage w)) (observing w) (log w).

Definition with_observing (f : gmap nat (gset node) → gmap nat (gset node)) (w : World) : World :=
  mkWorld (dom w) (localStorage w) (f (observing w)) (log w).

Definition record (e : Effect) (w : World) : World :=
  mkWorld (dom w) (localStorage w) (observing w) (e :: log w).

(** The element a reference denotes. *)
Definition element (w : World) (n : node) : Element := dom w !!! n.

Definition update_element (n : node) (f : Element → Element) (w : World) : World :=
  with_dom (λ d, <[n := f (d !!! n)]> d) w.

Definition set_classList (cs : gset string) (e : Element) : Element :=
  mkElement cs (attributes e) (style e) (textContent e).

Definition set_attributes (a : gmap string string) (e : Element) : Element :=
  mkElement (classList e) a (style e) (textContent e).

Definition set_style (s : gmap string CssValue) (e : Element) : Element :=
  mkElement (classList e) (attributes e) s (textContent e).

Definition set_textContent (t : string) (e : Element) : Element :=
  mkElement (classList e) (attributes e) (style e) t.

(** ** Completions and the monad of scripts *)

Inductive JsError :=
| TypeError (msg : string).

Inductive Completion (A : Type) :=
| Normal (a : A)
| Throw (e : JsError).
Arguments Normal {A} a.
Arguments Throw {A} e.

Definition Js (A : Type) : Type := World → Completion (A * World).

#[global] Instance Js_ret : MRet Js := λ A a w, Normal (a, w).

#[global] Instance Js_bind : MBind Js := λ A B f m w,
  match m w with
  | Normal (a, w') => f a w'
  | Throw e => Throw e
  end.

Definition throw {A} (e : JsError) : Js A := λ _, Throw e.

Definition gets {A} (f : World → A) : Js A := λ w, Normal (f w, w).

Definition modify (f : World → World) : Js unit := λ w, Normal (tt, f w).

(** [xs.forEach(f)] *)
Fixpoint forEach {A} (xs : list A) (f : A → Js unit) : Js unit :=
  match xs with
  | [] => mret tt
  | x :: xs' => f x ;; forEach xs' f
  end.

(** The world a script leaves behind, when it completes normally. *)
Definition exec {A} (m : Js A) (w : World) : option World :=
  match m w with
  | Normal (_, w') => Some w'
  | Throw _ => None
  end.

(** [r.prop] on a possibly null reference [r]. *)
Definition deref (r : option node) (prop : string) : Js node :=
  match r with
  | Some n => mret n
  | None => throw (TypeError ("Cannot read properties of null (reading '" +:+ prop +:+ "')"))
  end.

(** ** The DOM calls the modules use *)

Definition classList_add (n : node) (c : string) : Js unit :=
  modify (λ w, record (ClassAdd n c)
    (update_element n (λ e, set_classList (classList e ∪ {[c]}) e) w)).

Definition classList_remove (n : node) (c : string) : Js unit :=
  modify (λ w, record (ClassRemove n c)
    (update_element n (λ e, set_classList (classList e ∖ {[c]}) e) w)).

Definition classList_contains (n : node) (c : string) : Js bool :=
  gets (λ w, bool_decide (c ∈ classList (element w n))).

Definition getAttribute (n : node) (k : string) : Js (option string) :=
  gets (λ w, attributes (element w n) !! k).

Definition setAttribute (n : node) (k v : string) : Js unit :=
  modify (λ w, record (SetAttribute n k v)
    (update_element n (λ e, set_attributes (<[k := v]> (attributes e)) e) w)).

(** Whether the value assigned parses as a value of the property.  The
    template [`${v}%`] of a number that is not finite is the text [NaN%],
    [Infinity%] or [-Infinity%], which is no percentage, and [width]
    takes no negative percentage ([-0] prints as [0]).  The literal
    strings the scripts assign all parse. *)
Definition parses (prop : string) (v : CssValue) : bool :=
  match v with
  | CssText _ => true
  | CssPercent x =>
      PrimFloat.is_finite x && negb (String.eqb prop "width" && (x <? 0)%float)
  end.

(** [el.style[prop] = v]: the setter ignores a value that does not
    parse, and the property keeps the value it had. *)
Definition style_set (n : node) (prop : string) (v : CssValue) : Js unit :=
  modify (λ w, record (SetStyle n prop v)
    (if parses prop v
     then update_element n (λ e, set_style (<[prop := v]> (style e)) e) w
     else w)).

Definition textContent_set (n : node) (s : string) : Js unit :=
  modify (λ w, record (SetText n s)
    (update_element n (set_textContent s) w)).

Definition localStorage_getItem (k : string) : Js (option string) :=
  gets (λ w, localStorage w !! k).

Definition localStorage_setItem (k v : string) : Js unit :=
  modify (λ w, record (StorageSet k v) (with_storage (<[k := v]>) w)).

Definition dispatchEvent (type detail : string) : Js unit :=
  modify (record (DispatchEvent type detail)).

Definition preventDefault : Js unit := modify (record PreventDefault).

Definition setTimeout (t : Task) (ms : nat) : Js unit :=
  modify (record (SetTimeout ms t)).

Definition scrollTo (top : Z) : Js unit := modify (record (ScrollTo top)).

Definition location_assign (url : string) : Js unit := modify (record (Navigate url)).

(** [observer.observe(n)], [observer.unobserve(n)] and
    [observer.disconnect()] for the IntersectionObserver [obs]: an
    observer that watches nothing (never used, or disconnected) has the
    empty set of targets. *)
Definition observer_observe (obs : nat) (n : node) : Js unit :=
  modify (λ w, record (Observe obs n)
    (with_observing (λ o, <[obs := (o !!! obs) ∪ {[n]}]> o) w)).

Definition observer_unobserve (obs : nat) (n : node) : Js unit :=
  modify (λ w, record (Unobserve obs n)
    (with_observing (λ o, <[obs := (o !!! obs) ∖ {[n]}]> o) w)).

Definition observer_disconnect (obs : nat) : Js unit :=
  modify (λ w, record (Disconnect obs) (with_observing (<[obs := ∅]>) w)).

(** An entry of an intersection callback. *)
Record Entry := mkEntry {
  target : node;
  isIntersecting : bool
}.

(** A loop that threads the fields of [this] through its iterations. *)
Fixpoint foldM {S A} (f : S → A → Js S) (this : S) (xs : list A) : Js S :=
  match xs with
  | [] => mret this
  | x :: xs' => this' ← f this x ; foldM f this' xs'
  end.

(** [el.classList.contains(c)] read off a world. *)
Definition has_class (w : World) (n : node) (c : string) : bool :=
  bool_decide (c ∈ classList (element w n)).

End Dom.
Import Dom.

(* ===================================================================== *)
(** * JavaScript numbers                                                  *)
(* ===================================================================== *)

Module JsNum.

(** [ToBoolean] of a number: false for [+0], [-0] and [NaN]. *)
Definition truthy (x : float) : bool :=
  negb (PrimFloat.is_nan x || PrimFloat.is_zero x).

(** [a || b] on numbers. *)
Definition or_else (a b : float) : float := if truthy a then a else b.

(** [Math.min(a, b)]: [NaN] as soon as one argument is [NaN], and [-0]
    counts as smaller than [+0]. *)
Definition Math_min (a b : float) : float :=
  if PrimFloat.is_nan a || PrimFloat.is_nan b then nan
  else if (a <? b)%float then a
  else if (b <? a)%float then b
  else if PrimFloat.get_sign a then a else b.

End JsNum.

(* ===================================================================== *)
(** * NavigationManager                                                   *)
(* ===================================================================== *)

Module Navigation.

Record NavigationManager := mkNavigationManager {
  mobileMenuToggle : option node;
  mobileNav : option node;
  navLinks : list node;
  scrollProgress : option node;
  sections : list node;
  header : option node
}.

(** What the browser reports when a scroll event is handled. *)
Record Viewport := mkViewport {
  pageYOffset : float;
  documentScrollTop : float;
  documentScrollHeight : float;
  innerHeight : float
}.

(** [openMobileMenu()] *)
Definition openMobileMenu (this : NavigationManager) : Js unit :=
  match mobileMenuToggle this, mobileNav this with
  | Some toggle, Some nav =>
      classList_add toggle "active" ;;
      setAttribute toggle "aria-expanded" "true" ;;
      classList_add nav "active" ;;
      style_set document_body "overflow" (CssText "hidden")
  | _, _ => mret tt
  end.

(** [closeMobileMenu()] *)
Definition closeMobileMenu (this : NavigationManager) : Js unit :=
  match mobileMenuToggle this, mobileNav this with
  | Some toggle, Some nav =>
      classList_remove toggle "active" ;;
      setAttribute toggle "aria-expanded" "false" ;;
      classList_remove nav "active" ;;
      style_set document_body "overflow" (CssText "")
  | _, _ => mret tt
  end.

(** [toggleMobileMenu()]: reads [this.mobileMenuToggle.classList] without
    a null check. *)
Definition toggleMobileMenu (this : NavigationManager) : Js unit :=
  toggle ← deref (mobileMenuToggle this) "classList" ;
  isActive ← classList_contains toggle "active" ;
  if isActive : bool then closeMobileMenu this else openMobileMenu this.

(** The listeners [initMobileMenu()] registers on the document; none when
    the toggle is absent. *)
Inductive DocumentListener :=
| CloseOnOutsideClick
| CloseOnEscape.

Definition initMobileMenu (this : NavigationManager) : list DocumentListener :=
  match mobileMenuToggle this with
  | None => []
  | Some _ => [CloseOnOutsideClick; CloseOnEscape]
  end.

(** The click listener on the document: [insideHeader] is what
    [this.header.contains(e.target)] answers. *)
Definition onDocumentClick (this : NavigationManager) (insideHeader : bool) : Js unit :=
  _ ← deref (header this) "contains" ;
  if insideHeader then mret tt else closeMobileMenu this.

(** The keydown listener on the document. *)
Definition onDocumentKeydown (this : NavigationManager) (key : string) : Js unit :=
  if bool_decide (key = "Escape") then closeMobileMenu this else mret tt.

(** An event on the document runs the listeners registered for it. *)
Inductive DocumentEvent :=
| Click (insideHeader : bool)
| Keydown (key : string).

Definition runDocumentListener (this : NavigationManager) (ev : DocumentEvent)
    (listener : DocumentListener) : Js unit :=
  match listener, ev with
  | CloseOnOutsideClick, Click insideHeader => onDocumentClick this insideHeader
  | CloseOnEscape, Keydown key => onDocumentKeydown this key
  | _, _ => mret tt
  end.

Definition dispatchDocument (this : NavigationManager) (ev : DocumentEvent) : Js unit :=
  forEach (initMobileMenu this) (runDocumentListener this ev).

(** What the listener of [initScrollProgress] computes: [scrollTop],
    [scrollHeight] and [scrollPercentage]. *)
Definition scrollTop_of (vp : Viewport) : float :=
  JsNum.or_else (pageYOffset vp) (documentScrollTop vp).

Definition scrollHeight_of (vp : Viewport) : float :=
  (documentScrollHeight vp - innerHeight vp)%float.

Definition scrollPercentage (vp : Viewport) : float :=
  (scrollTop_of vp / scrollHeight_of vp * 100)%float.

(** The number published as the width of the progress bar. *)
Definition publishedProgress (vp : Viewport) : float :=
  JsNum.Math_min (scrollPercentage vp) 100%float.

(** The scroll listener of [initScrollProgress], for the progress
    element [progress]. *)
Definition onScroll (this : NavigationManager) (progress : node) (vp : Viewport) : Js unit :=
  let scrollTop := scrollTop_of vp in
  style_set progress "width" (CssPercent (publishedProgress vp)) ;;
  match header this with
  | Some h =>
      if (50 <? scrollTop)%float
      then classList_add h "scrolled"
      else classList_remove h "scrolled"
  | None => mret tt
  end.

(** [initScrollProgress()]: the scroll listeners it registers on the
    window; none when the progress element is absent. *)
Definition initScrollProgress (this : NavigationManager) : list (Viewport → Js unit) :=
  match scrollProgress this with
  | None => []
  | Some progress => [onScroll this progress]
  end.

(** A scroll event on the window runs the registered listeners. *)
Definition dispatchScroll (this : NavigationManager) (vp : Viewport) : Js unit :=
  forEach (initScrollProgress this) (λ listener, listener vp).

(** [updateActiveNavLink(activeId)] *)
Definition updateActiveNavLink (this : NavigationManager) (activeId : string) : Js unit :=
  forEach (navLinks this) (λ link,
    classList_remove link "active" ;;
    section ← getAttribute link "data-section" ;
    if bool_decide (section = Some activeId)
    then classList_add link "active"
    else mret tt).

(** [entry.target.id]: the [id] attribute, or the empty string. *)
Definition id_of (n : node) : Js string :=
  a ← getAttribute n "id" ; mret (default "" a).

(** The intersection callback of [initActiveNavigation()]. *)
Definition onSectionIntersection (this : NavigationManager) (entries : list Entry) : Js unit :=
  forEach entries (λ entry,
    if isIntersecting entry
    then i ← id_of (target entry) ; updateActiveNavLink this i
    else mret tt).

(** The click listener [initSmoothScrolling()] puts on an anchor whose
    [href] starts with [#].  [found] is what
    [document.querySelector(anchor.getAttribute('href'))] returns for a
    well-formed selector, and [offsetTop], [offsetHeight] are the layout
    metrics of the browser. *)
Definition onAnchorClick (this : NavigationManager) (offsetTop offsetHeight : node → Z)
    (found : option node) : Js unit :=
  preventDefault ;;
  match found, header this with
  | Some tgt, Some h =>
      let headerHeight := offsetHeight h in
      let targetPosition := (offsetTop tgt - headerHeight)%Z in
      scrollTo targetPosition ;;
      closeMobileMenu this
  | _, _ => mret tt
  end.

End Navigation.

(* ===================================================================== *)
(** * AnimationManager                                                    *)
(* ===================================================================== *)

Module Animation.

(** [observers] maps a name to the identity of an IntersectionObserver;
    [animatedElements] is the set of elements already faded in. *)
Record AnimationManager := mkAnimationManager {
  observers : gmap string nat;
  animatedElements : gset node
}.

(** One iteration of the callback of [initFadeInAnimations()], for the
    observer [observer] the closure captured.  [dataset.animateOnce] is
    the attribute [data-animate-once]. *)
Definition onFadeInEntry (observer : nat) (this : AnimationManager) (entry : Entry)
    : Js AnimationManager :=
  if isIntersecting entry && negb (bool_decide (target entry ∈ animatedElements this))
  then
    classList_add (target entry) "visible" ;;
    let this' := mkAnimationManager (observers this) (animatedElements this ∪ {[target entry]}) in
    animateOnce ← getAttribute (target entry) "data-animate-once" ;
    (if bool_decide (animateOnce ≠ Some "false")
     then observer_unobserve observer (target entry)
     else mret tt) ;;
    mret this'
  else mret this.

(** The intersection callback: [entries.forEach(...)]. *)
Definition fadeInCallback (observer : nat) (this : AnimationManager) (entries : list Entry)
    : Js AnimationManager :=
  foldM (onFadeInEntry observer) this entries.

(** [initFadeInAnimations()]: [observer] is the object
    [new IntersectionObserver] allocates and [fadeIns] the result of
    [document.querySelectorAll('.fade-in')]. *)
Definition initFadeInAnimations (observer : nat) (fadeIns : list node) (this : AnimationManager)
    : Js AnimationManager :=
  let this' := mkAnimationManager (<["fadeIn" := observer]> (observers this)) (animatedElements this) in
  forEach fadeIns (observer_observe observer) ;;
  mret this'.

(** The constructor, up to the listeners [initParallaxEffects()] and
    [setupPerformanceOptimizations()] register, which write nothing until
    a scroll or visibility event arrives. *)
Definition construct (observer : nat) (fadeIns : list node) : Js AnimationManager :=
  initFadeInAnimations observer fadeIns (mkAnimationManager ∅ ∅).

(** [observeElement(element)] *)
Definition observeElement (this : AnimationManager) (element : option node) : Js unit :=
  match observers this !! "fadeIn", element with
  | Some observer, Some el => observer_observe observer el
  | _, _ => mret tt
  end.

(** [destroy()] *)
Definition destroy (this : AnimationManager) : Js AnimationManager :=
  forEach (map_to_list (observers this)).*2 observer_disconnect ;;
  mret (mkAnimationManager ∅ ∅).

End Animation.

(* ===================================================================== *)
(** * LoadingManager                                                      *)
(* ===================================================================== *)

Module Loading.

Record LoadingManager := mkLoadingManager {
  pageLoader : option node;
  pageTransition : option node;
  isLoading : bool
}.

Definition set_isLoading (b : bool) (this : LoadingManager) : LoadingManager :=
  mkLoadingManager (pageLoader this) (pageTransition this) b.

(** [hideLoader()] *)
Definition hideLoader (this : LoadingManager) : Js unit :=
  match pageLoader this with
  | None => mret tt
  | Some loader =>
      classList_add loader "fade-out" ;;
      setTimeout (TaskLoaderGone loader) 600
  end.

(** [showTransition()] *)
Definition showTransition (this : LoadingManager) : Js LoadingManager :=
  match isLoading this, pageTransition this with
  | false, Some overlay =>
      let this' := set_isLoading true this in
      classList_add overlay "active" ;;
      mret this'
  | _, _ => mret this
  end.

(** [hideTransition()] *)
Definition hideTransition (this : LoadingManager) : Js unit :=
  match pageTransition this with
  | None => mret tt
  | Some overlay => setTimeout (TaskTransitionReset overlay) 300
  end.

(** The load listener of [initPageLoader()]. *)
Definition onWindowLoad : Js unit := setTimeout TaskHideLoader 500.

(** A timer fires. *)
Definition fire (this : LoadingManager) (t : Task) : Js LoadingManager :=
  match t with
  | TaskNavigate url => location_assign url ;; mret this
  | TaskLoaderGone loader =>
      style_set loader "display" (CssText "none") ;;
      classList_add document_body "loaded" ;;
      mret this
  | TaskHideLoader => hideLoader this ;; mret this
  | TaskTransitionReset overlay =>
      classList_remove overlay "active" ;;
      mret (set_isLoading false this)
  end.

(** An anchor of the document.  [link_attribute] is its [href] content
    attribute, the text the selectors [a[href^=...]] and [a[href$=...]]
    match; [link_href] is the [href] property, the absolute URL the
    browser resolves the attribute to against the address of the page;
    [link_target] is the [target] property. *)
Record Anchor := mkAnchor {
  link_node : node;
  link_attribute : option string;
  link_href : string;
  link_target : string
}.

(** [s.endsWith(suffix)] *)
Definition endsWith (suffix s : string) : bool :=
  let n := String.length suffix in
  let m := String.length s in
  (n <=? m) && String.eqb (String.substring (m - n) n s) suffix.

(** [s.includes(sub)] *)
Definition includes (sub s : string) : bool :=
  match String.index 0 sub s with
  | Some _ => true
  | None => false
  end.

(** [a[href^="http"], a[href^="mailto:"]] *)
Definition selects_external (a : Anchor) : bool :=
  match link_attribute a with
  | Some h => String.prefix "http" h || String.prefix "mailto:" h
  | None => false
  end.

(** [a[href$=".html"]] *)
Definition selects_html (a : Anchor) : bool :=
  match link_attribute a with
  | Some h => endsWith ".html" h
  | None => false
  end.

(** The two click listeners of [initTransitions()]. *)
Inductive ClickListener :=
| ExternalLinkClick
| PageLinkClick.

(** [initTransitions()]: the click listeners it registers, in order, over
    the anchors of the document. *)
Definition initTransitions (anchors : list Anchor) : list (Anchor * ClickListener) :=
  map (λ link, (link, ExternalLinkClick)) (List.filter selects_external anchors) ++
  flat_map (λ link,
      if negb (String.prefix "http" (link_href link)) && negb (includes "#" (link_href link))
      then [(link, PageLinkClick)]
      else [])
    (List.filter selects_html anchors).

(** The body of a click listener on [link]. *)
Definition onClick (this : LoadingManager) (registration : Anchor * ClickListener)
    : Js LoadingManager :=
  let '(link, listener) := registration in
  match listener with
  | ExternalLinkClick =>
      if negb (String.eqb (link_target link) "_blank")
         && negb (String.prefix "mailto:" (link_href link))
      then
        preventDefault ;;
        this' ← showTransition this ;
        setTimeout (TaskNavigate (link_href link)) 600 ;;
        mret this'
      else mret this
  | PageLinkClick =>
      preventDefault ;;
      this' ← showTransition this ;
      setTimeout (TaskNavigate (link_href link)) 600 ;;
      mret this'
  end.

(** A click on the anchor [link] runs the listeners registered on it. *)
Definition click (this : LoadingManager) (anchors : list Anchor) (link : Anchor)
    : Js LoadingManager :=
  foldM onClick this
    (List.filter (λ r, Nat.eqb (link_node (fst r)) (link_node link)) (initTransitions anchors)).

End Loading.

(* ===================================================================== *)
(** * ThemeManager                                                        *)
(* ===================================================================== *)

Module Theme.

Record ThemeManager := mkThemeManager {
  themeToggle : option node;
  themeIcon : option node;
  html : node
}.

(** The two icon texts, as the source spells them. *)
Definition icon_for_dark : string := "‚òÄÔ∏è".
Definition icon_for_light : string := "üåô".

(** [value || 'light'] for a string or null: null and the empty string
    are falsy. *)
Definition or_light (value : option string) : string :=
  match value with
  | Some s => if bool_decide (s = "") then "light" else s
  | None => "light"
  end.

(** [updateThemeIcon(theme)] *)
Definition updateThemeIcon (this : ThemeManager) (theme : string) : Js unit :=
  match themeIcon this with
  | None => mret tt
  | Some icon =>
      textContent_set icon (if bool_decide (theme = "dark") then icon_for_dark else icon_for_light)
  end.

(** [setTheme(theme)] *)
Definition setTheme (this : ThemeManager) (theme : string) : Js unit :=
  setAttribute (html this) "data-theme" theme ;;
  localStorage_setItem "theme" theme ;;
  updateThemeIcon this theme ;;
  dispatchEvent "themechange" theme.

(** [toggleTheme()] *)
Definition toggleTheme (this : ThemeManager) : Js unit :=
  currentTheme ← getAttribute (html this) "data-theme" ;
  let newTheme := if bool_decide (currentTheme = Some "dark") then "light" else "dark" in
  setTheme this newTheme.

(** [getCurrentTheme()] *)
Definition getCurrentTheme (this : ThemeManager) : Js string :=
  a ← getAttribute (html this) "data-theme" ; mret (or_light a).

(** [setThemePreference(theme)] *)
Definition setThemePreference (this : ThemeManager) (theme : string) : Js unit :=
  if bool_decide (theme = "dark") || bool_decide (theme = "light")
  then setTheme this theme
  else mret tt.

(** [initTheme()], up to the listeners it registers: the click listener
    of the toggle is [toggleTheme] and the listener of the colour-scheme
    media query is [onSystemThemeChange]. *)
Definition initTheme (this : ThemeManager) : Js unit :=
  match themeToggle this, themeIcon this with
  | Some _, Some _ =>
      saved ← localStorage_getItem "theme" ;
      let savedTheme := or_light saved in
      setAttribute (html this) "data-theme" savedTheme ;;
      updateThemeIcon this savedTheme
  | _, _ => mret tt
  end.

(** The listener of the [prefers-color-scheme] media query. *)
Definition onSystemThemeChange (this : ThemeManager) (matches : bool) : Js unit :=
  saved ← localStorage_getItem "theme" ;
  match saved with
  | None | Some "" => setTheme this (if matches then "dark" else "light")
  | Some _ => mret tt
  end.

End Theme.

(* ===================================================================== *)
(** * HeaderEffects, the header of the single-file script                 *)
(* ===================================================================== *)

Module Legacy.

(** [header] is [document.querySelector('.navbar')]; [lastScrollY] is the
    variable the scroll listener closes over. *)
Record HeaderEffects := mkHeaderEffects {
  header : option node;
  lastScrollY : float
}.

(** The scroll listener of [initScrollEffect()], at [window.scrollY]. *)
Definition onScroll (this : HeaderEffects) (currentScrollY : float) : Js HeaderEffects :=
  match header this with
  | Some h =>
      (if (100 <? currentScrollY)%float
       then classList_add h "scrolled"
       else classList_remove h "scrolled") ;;
      (if (lastScrollY this <? currentScrollY)%float && (200 <? currentScrollY)%float
       then style_set h "transform" (CssText "translateY(-100%)")
       else style_set h "transform" (CssText "translateY(0)"))
  | None => mret tt
  end ;;
  mret (mkHeaderEffects (header this) currentScrollY).

(** The constructor calls [initScrollEffect()], which registers the
    listener, only when the header exists; [scrollY] is [window.scrollY]
    at that time. *)
Definition construct (navbar : option node) (scrollY : float)
    : list (HeaderEffects → float → Js HeaderEffects) * HeaderEffects :=
  match navbar with
  | Some _ => ([onScroll], mkHeaderEffects navbar scrollY)
  | None => ([], mkHeaderEffects navbar scrollY)
  end.

End Legacy.

(* ===================================================================== *)
(** * The operations behind an optional DOM hook                          *)
(* ===================================================================== *)

(** The operations embedded above that act on an element the host markup
    may not provide, each with the element it acts on, so that a policy
    on missing hooks can be stated over all of them. *)

Module Page.
Import Navigation Loading Theme.

(** The managers of a page. *)
Record Page := mkPage {
  loading : LoadingManager;
  navigation : NavigationManager;
  theme : ThemeManager
}.

Definition set_loading (l : LoadingManager) (page : Page) : Page :=
  mkPage l (navigation page) (theme page).

(** The operations of the managers that act on an element the host
    markup may or may not provide. *)
Inductive Operation :=
| HideLoader
| ShowTransition
| HideTransition
| UpdateThemeIcon (name : string)
| InitTheme
| ScrollProgress (vp : Viewport)
| OpenMobileMenu
| CloseMobileMenu
| ToggleMobileMenu
| OutsideClick (insideHeader : bool)
| SmoothScroll (offsetTop offsetHeight : node → Z) (found : option node).

Definition absent (r : option node) : bool :=
  match r with
  | None => true
  | Some _ => false
  end.

(** The element an operation acts on is missing from the page. *)
Definition target_absent (op : Operation) (page : Page) : bool :=
  match op with
  | HideLoader => absent (pageLoader (loading page))
  | ShowTransition | HideTransition => absent (pageTransition (loading page))
  | UpdateThemeIcon _ => absent (themeIcon (theme page))
  | InitTheme => absent (themeToggle (theme page)) || absent (themeIcon (theme page))
  | ScrollProgress _ => absent (scrollProgress (navigation page))
  | OpenMobileMenu | CloseMobileMenu =>
      absent (mobileMenuToggle (navigation page)) || absent (mobileNav (navigation page))
  | ToggleMobileMenu => absent (mobileMenuToggle (navigation page))
  | OutsideClick _ => absent (header (navigation page))
  | SmoothScroll _ _ found => absent found
  end.

Definition perform (op : Operation) (page : Page) : Js Page :=
  match op with
  | HideLoader => hideLoader (loading page) ;; mret page
  | ShowTransition => l ← showTransition (loading page) ; mret (set_loading l page)
  | HideTransition => hideTransition (loading page) ;; mret page
  | UpdateThemeIcon name => updateThemeIcon (theme page) name ;; mret page
  | InitTheme => initTheme (theme page) ;; mret page
  | ScrollProgress vp => dispatchScroll (navigation page) vp ;; mret page
  | OpenMobileMenu => openMobileMenu (navigation page) ;; mret page
  | CloseMobileMenu => closeMobileMenu (navigation page) ;; mret page
  | ToggleMobileMenu => toggleMobileMenu (navigation page) ;; mret page
  | OutsideClick insideHeader =>
      dispatchDocument (navigation page) (Click insideHeader) ;; mret page
  | SmoothScroll offsetTop offsetHeight found =>
      onAnchorClick (navigation page) offsetTop offsetHeight found ;; mret page
  end.

(** The operations that start with an existence check of their
    target. *)
Definition checks_target_first (op : Operation) : bool :=
  match op with
  | ToggleMobileMenu | OutsideClick _ | SmoothScroll _ _ _ => false
  | _ => true
  end.

End Page.

(* ===================================================================== *)
(** * DOM calls of the utilities                                          *)
(* ===================================================================== *)

(** Calls the four managers never make.  [removeAttribute] has no entry
    in the log, which keeps the calls of the managers; it is observed
    through the store.  [classList.toggle] is recorded as the removal or
    the addition it performs. *)

Module DomExtra.

Definition removeAttribute (n : node) (k : string) : Js unit :=
  modify (update_element n (λ e, set_attributes (delete k (attributes e)) e)).

Definition hasAttribute (n : node) (k : string) : Js bool :=
  gets (λ w, bool_decide (is_Some (attributes (element w n) !! k))).

Definition classList_toggle (n : node) (c : string) : Js unit :=
  present ← classList_contains n c ;
  if present : bool then classList_remove n c else classList_add n c.

(** [el.textContent] *)
Definition textContent_get (n : node) : Js string :=
  gets (λ w, textContent (element w n)).

End DomExtra.

(* ===================================================================== *)
(** * NavigationManager, AnimationManager and LoadingManager: the rest   *)
(* ===================================================================== *)

Module Managers.
Import DomExtra.

(** [AnimationManager.triggerAnimation(element, animationClass)]: the
    class is added and the listener [handleAnimationEnd] is registered on
    the element; the result is the listener registered, none for a null
    element. *)
Definition handleAnimationEnd (element : node) (animationClass : string) : Js unit :=
  classList_remove element animationClass.

Definition triggerAnimation (element : option node) (animationClass : string)
    : Js (option (Js unit)) :=
  match element with
  | None => mret None
  | Some el =>
      classList_add el animationClass ;;
      mret (Some (handleAnimationEnd el animationClass))
  end.

(** [LoadingManager.animateLoaderText()].  [index] is the variable the
    closures share; the timer pending is either [typeWriter] itself
    (after 100 ms) or the closure that clears the text and starts over
    (after 1000 ms). *)
Definition loaderText : string := "Loading...".

Inductive TypeWriterTimer :=
| NextCharacter
| StartOver.

Definition delay_of (t : TypeWriterTimer) : nat :=
  match t with
  | NextCharacter => 100
  | StartOver => 1000
  end.

(** [typeWriter()]: the new [index] and the timer it sets. *)
Definition typeWriter (loader : node) (index : nat) : Js (nat * TypeWriterTimer) :=
  if index <? String.length loaderText
  then
    textContent_set loader (String.substring 0 (index + 1) loaderText) ;;
    mret (index + 1, NextCharacter)
  else mret (index, StartOver).

(** The pending timer fires. *)
Definition typeWriterFires (loader : node) (index : nat) (t : TypeWriterTimer)
    : Js (nat * TypeWriterTimer) :=
  match t with
  | NextCharacter => typeWriter loader index
  | StartOver => textContent_set loader "" ;; typeWriter loader 0
  end.

(** [animateLoaderText()]: nothing is started without the element
    [.loader-text]. *)
Definition animateLoaderText (loader : option node) : Js (option (nat * TypeWriterTimer)) :=
  match loader with
  | None => mret None
  | Some l => r ← typeWriter l 0 ; mret (Some r)
  end.

(** [n] timers fire in a row. *)
Fixpoint typeWriterRuns (loader : node) (n : nat) (state : nat * TypeWriterTimer)
    : Js (nat * TypeWriterTimer) :=
  match n with
  | 0 => mret state
  | S n' => state' ← typeWriterFires loader state.1 state.2 ; typeWriterRuns loader n' state'
  end.

End Managers.

(* ===================================================================== *)
(** * utils/performance.js                                                *)
(* ===================================================================== *)

Module Performance.
Import DomExtra.

(** What happens to a debounced or throttled function: it is called, or a
    timer it has set fires. *)
Inductive Event (Args : Type) :=
| Call (args : Args)
| TimerFires.
Arguments Call {Args} args.
Arguments TimerFires {Args}.

Section closures.
Context {Args : Type}.

(** ** [debounce(func, wait, immediate)]

    The function returned closes over [immediate] and [timeout]: the
    timer pending, with the arguments its closure [later] captured, or no
    timer ([undefined] at first, [null] once [later] has run).
    [clearTimeout] cancels the timer pending, so that only the timer set
    last can fire. *)
Record Debounced := mkDebounced {
  immediate : bool;
  timeout : option Args
}.

(** [executedFunction(...args)]: the new state and the calls of [func]. *)
Definition executedFunction (d : Debounced) (args : Args) : Debounced * list Args :=
  let callNow := immediate d && negb (bool_decide (is_Some (timeout d))) in
  (mkDebounced (immediate d) (Some args), if callNow then [args] else []).

(** The timer pending fires and runs [later]. *)
Definition later (d : Debounced) : Debounced * list Args :=
  match timeout d with
  | Some args => (mkDebounced (immediate d) None, if immediate d then [] else [args])
  | None => (d, [])
  end.

Definition debounceStep (d : Debounced) (ev : Event Args) : Debounced * list Args :=
  match ev with
  | Call args => executedFunction d args
  | TimerFires => later d
  end.

(** ** [throttle(func, limit)]

    The function returned closes over [inThrottle]; its timers are never
    cancelled, [timers] counts those pending. *)
Record Throttled := mkThrottled {
  inThrottle : bool;
  timers : nat
}.

Definition throttledFunction (t : Throttled) (args : Args) : Throttled * list Args :=
  if inThrottle t then (t, [])
  else (mkThrottled true (timers t + 1), [args]).

(** A timer fires: [inThrottle = false]. *)
Definition throttleTimer (t : Throttled) : Throttled * list Args :=
  match timers t with
  | 0 => (t, [])
  | S n => (mkThrottled false n, [])
  end.

Definition throttleStep (t : Throttled) (ev : Event Args) : Throttled * list Args :=
  match ev with
  | Call args => throttledFunction t args
  | TimerFires => throttleTimer t
  end.

(** A sequence of events: the final state and the calls of [func], in
    order. *)
Fixpoint runEvents {S} (step : S → Event Args → S * list Args) (s : S) (evs : list (Event Args))
    : S * list Args :=
  match evs with
  | [] => (s, [])
  | ev :: evs' =>
      let '(s1, calls1) := step s ev in
      let '(s2, calls2) := runEvents step s1 evs' in
      (s2, calls1 ++ calls2)
  end.

End closures.

(** ** [LazyLoader]

    [observer] is null when the browser has no IntersectionObserver.  For
    the elements that have them (images, sources, frames) the properties
    [src] and [srcset] reflect the attributes of the same name. *)
Record LazyLoader := mkLazyLoader {
  observer : option nat
}.

(** [value] is truthy: a string that is not empty. *)
Definition nonempty (value : option string) : option string :=
  match value with
  | Some s => if bool_decide (s = "") then None else Some s
  | None => None
  end.

(** [loadElement(element)] *)
Definition loadElement (element : node) : Js unit :=
  src ← getAttribute element "data-src" ;
  srcset ← getAttribute element "data-srcset" ;
  match nonempty src with
  | Some s => setAttribute element "src" s ;; removeAttribute element "data-src"
  | None => mret tt
  end ;;
  match nonempty srcset with
  | Some s => setAttribute element "srcset" s ;; removeAttribute element "data-srcset"
  | None => mret tt
  end ;;
  classList_add element "loaded".

(** [handleIntersection(entries)] *)
Definition handleIntersection (this : LazyLoader) (entries : list Entry) : Js unit :=
  forEach entries (λ entry,
    if isIntersecting entry
    then
      loadElement (target entry) ;;
      obs ← deref (observer this) "unobserve" ;
      observer_unobserve obs (target entry)
    else mret tt).

(** [loadElements()], over the result of
    [document.querySelectorAll('[data-src], [data-srcset]')]. *)
Definition loadElements (this : LazyLoader) (lazyElements : list node) : Js unit :=
  forEach lazyElements (λ el,
    obs ← deref (observer this) "observe" ;
    observer_observe obs el).

(** [loadAllImages()] *)
Definition loadAllImages (lazyElements : list node) : Js unit :=
  forEach lazyElements loadElement.

(** The constructor: [supported] is ['IntersectionObserver' in window]
    and [obs] the observer [new IntersectionObserver] allocates. *)
Definition construct (supported : bool) (obs : nat) (lazyElements : list node) : Js LazyLoader :=
  if supported
  then
    let this := mkLazyLoader (Some obs) in
    loadElements this lazyElements ;;
    mret this
  else
    loadAllImages lazyElements ;;
    mret (mkLazyLoader None).

End Performance.

(* ===================================================================== *)
(** * utils/links.js                                                      *)
(* ===================================================================== *)

Module Links.
Import DomExtra.

(** [link.rel]: the attribute [rel], or the empty string. *)
Definition rel (link : node) : Js string :=
  a ← getAttribute link "rel" ; mret (default "" a).

(** The first loop of [handleExternalLinks()] on one link.  The two
    listeners it registers write to the console and to the analytics
    only. *)
Definition secureLink (link : node) : Js unit :=
  r ← rel link ;
  (if negb (Loading.includes "noopener" r)
   then
     r ← rel link ;
     setAttribute link "rel" (if bool_decide (r = "") then "noopener" else r +:+ " noopener")
   else mret tt) ;;
  r ← rel link ;
  if negb (Loading.includes "noreferrer" r)
  then
    r ← rel link ;
    setAttribute link "rel" (if bool_decide (r = "") then "noreferrer" else r +:+ " noreferrer")
  else mret tt.

(** [handleExternalLinks()], over the result of
    [document.querySelectorAll('a[target="_blank"]')]; the other two
    loops register listeners that write to the console and to the
    analytics only. *)
Definition handleExternalLinks (blankLinks : list node) : Js unit :=
  forEach blankLinks secureLink.

(** The click listener of [addLinkLoadingStates()]: the result tells
    whether the timer of 3000 ms was set. *)
Definition onLoadingLinkClick (link : node) : Js bool :=
  loading ← classList_contains link "loading" ;
  if loading : bool
  then preventDefault ;; mret false
  else
    classList_add link "loading" ;;
    setAttribute link "aria-busy" "true" ;;
    mret true.

(** The closure of that timer. *)
Definition onLoadingTimeout (link : node) : Js unit :=
  classList_remove link "loading" ;;
  removeAttribute link "aria-busy".

(** [preloadLinksOnHover()]: [preloadedUrls] is the set the listeners
    share, and [head] the [rel] and [href] of the link elements appended
    to [document.head], in order. *)
Record Preloader := mkPreloader {
  preloadedUrls : gset string;
  head : list (string * string)
}.

(** The [mouseenter] listener of a link whose [href] is [url]; [origin]
    is [window.location.origin]. *)
Definition onMouseEnter (origin : string) (this : Preloader) (url : string) : Preloader :=
  if bool_decide (url ∈ preloadedUrls this) then this
  else if negb (String.prefix origin url) then this
  else mkPreloader (preloadedUrls this ∪ {[url]}) (head this ++ [("prefetch", url)]).

End Links.

(* ===================================================================== *)
(** * utils/accessibility.js                                              *)
(* ===================================================================== *)

Module Accessibility.
Import DomExtra.

(** ** [FocusManager]

    The manager is observed with [document.activeElement], which
    [el.focus()] sets. *)
Record FocusManager := mkFocusManager {
  focusableElements : option (list node);
  firstFocusable : option node;
  lastFocusable : option node;
  previouslyFocused : option node
}.

(** The constructor. *)
Definition construct : FocusManager := mkFocusManager None None None None.






(** ** [enhanceAriaLabels()] *)

Section aria.
(** [String.prototype.trim] *)
Variable trim : string → string.

(** [value || other] on a string or null. *)
Definition or_string (value : option string) (other : string) : string :=
  match value with
  | Some s => if bool_decide (s = "") then other else s
  | None => other
  end.

(** The second loop of [enhanceAriaLabels()], over the anchors with
    [target="_blank"]: the selector keeps those without [aria-label].
    The first loop writes to the console only. *)
Definition enhanceAriaLabels (blankLinks : list node) : Js unit :=
  selected ← gets (λ w, List.filter
    (λ link, negb (bool_decide (is_Some (attributes (element w link) !! "aria-label"))))
    blankLinks) ;
  forEach selected (λ link,
    label ← getAttribute link "aria-label" ;
    text ← textContent_get link ;
    let currentLabel := or_string label (trim text) in
    setAttribute link "aria-label" (currentLabel +:+ " (opens in new tab)")).

End aria.

End Accessibility.

(* ===================================================================== *)
(** * The single-file script: the other classes                           *)
(* ===================================================================== *)

Module Script.
Import DomExtra.

(** ** [ThemeManager]

    [theme] is the field [this.theme]; [themeIcon] is what
    [document.querySelector('.theme-icon')] returns. *)
Record ThemeManager := mkThemeManager {
  theme : string;
  themeIcon : option node
}.

Definition icon_for_light : string := "🌙".
Definition icon_for_dark : string := "☀️".

(** [updateThemeIcon()] *)
Definition updateThemeIcon (this : ThemeManager) : Js unit :=
  match themeIcon this with
  | Some icon =>
      textContent_set icon
        (if bool_decide (theme this = "light") then icon_for_light else icon_for_dark)
  | None => mret tt
  end.

(** [initTheme()] *)
Definition initTheme (this : ThemeManager) : Js unit :=
  setAttribute document_documentElement "data-theme" (theme this) ;;
  updateThemeIcon this.

(** The constructor, up to the click listener of [initThemeToggle()],
    which is [toggleTheme]. *)
Definition construct (icon : option node) : Js ThemeManager :=
  saved ← localStorage_getItem "theme" ;
  let this := mkThemeManager (Theme.or_light saved) icon in
  initTheme this ;;
  mret this.

(** [toggleTheme()] *)
Definition toggleTheme (this : ThemeManager) : Js ThemeManager :=
  let this' :=
    mkThemeManager (if bool_decide (theme this = "light") then "dark" else "light")
      (themeIcon this) in
  setAttribute document_documentElement "data-theme" (theme this') ;;
  localStorage_setItem "theme" (theme this') ;;
  updateThemeIcon this' ;;
  mret this'.

(** ** [MobileMenuHandler] *)
Record MobileMenuHandler := mkMobileMenuHandler {
  menuToggle : option node;
  mobileMenu : option node
}.

Inductive MenuEvent :=
| ToggleClick
| DocumentClick (insideToggle insideMenu : bool)
| DocumentKeydown (key : string).

(** The three listeners of [initMobileMenu()], for the elements [toggle]
    and [menu]. *)
Definition onMenuEvent (toggle menu : node) (ev : MenuEvent) : Js unit :=
  match ev with
  | ToggleClick =>
      classList_toggle menu "active" ;;
      classList_toggle toggle "active" ;;
      classList_toggle document_body "menu-open"
  | DocumentClick insideToggle insideMenu =>
      if negb insideToggle && negb insideMenu
      then
        classList_remove menu "active" ;;
        classList_remove toggle "active" ;;
        classList_remove document_body "menu-open"
      else mret tt
  | DocumentKeydown key =>
      if bool_decide (key = "Escape")
      then
        classList_remove menu "active" ;;
        classList_remove toggle "active" ;;
        classList_remove document_body "menu-open"
      else mret tt
  end.

(** An event on a page: the constructor registers the listeners only when
    both elements exist. *)
Definition dispatchMenuEvent (this : MobileMenuHandler) (ev : MenuEvent) : Js unit :=
  match menuToggle this, mobileMenu this with
  | Some toggle, Some menu => onMenuEvent toggle menu ev
  | _, _ => mret tt
  end.

(** ** [initFAQToggles()]

    An item [.faq-item] with what [item.querySelector('.faq-answer')]
    returns. *)
Record FaqItem := mkFaqItem {
  faq_item : node;
  faq_answer : option node
}.

(** The click listener of a question whose parent is [faqItem]; [items]
    are the elements [.faq-item] of the document, in order, and
    [scrollHeight] is the layout metric of the browser. *)
Definition onQuestionClick (items : list FaqItem) (scrollHeight : node → nat)
    (faqItem : FaqItem) : Js unit :=
  isActive ← classList_contains (faq_item faqItem) "active" ;
  actives ← gets (λ w, List.filter (λ it, has_class w (faq_item it) "active") items) ;
  forEach actives (λ it,
    if negb (Nat.eqb (faq_item it) (faq_item faqItem))
    then
      classList_remove (faq_item it) "active" ;;
      otherAnswer ← deref (faq_answer it) "style" ;
      style_set otherAnswer "maxHeight" (CssText "")
    else mret tt) ;;
  if isActive : bool
  then
    classList_remove (faq_item faqItem) "active" ;;
    answer ← deref (faq_answer faqItem) "style" ;
    style_set answer "maxHeight" (CssText "")
  else
    classList_add (faq_item faqItem) "active" ;;
    answer ← deref (faq_answer faqItem) "style" ;
    style_set answer "maxHeight" (CssText (pretty (scrollHeight answer) +:+ "px")).

End Script.

(* ===================================================================== *)
(** * Observations on worlds, and sample pages                            *)
(* ===================================================================== *)

Import Navigation Animation Loading Theme Page.

(** The iteration of [updateActiveNavLink] on one link. *)
Definition mark (activeId : string) (link : node) : Js unit :=
  classList_remove link "active" ;;
  section ← getAttribute link "data-section" ;
  if bool_decide (section = Some activeId)
  then classList_add link "active"
  else mret tt.

Definition data_section (w : World) (link : node) : option string :=
  attributes (element w link) !! "data-section".

(** The number of tracked links that carry the class [active]. *)
Definition activeCount (this : NavigationManager) (w : World) : nat :=
  length (List.filter (λ link, has_class w link "active") (navLinks this)).

(** The page of the counterexample: a desktop link and a mobile link to
    the same section, both in the tracked collection. *)
Definition twin_links : NavigationManager :=
  mkNavigationManager None None [2; 3] None [] None.

(** The same two links when they point to different sections, the second
    one active in the markup. *)
Definition two_sections_page : World :=
  mkWorld
    (<[2 := mkElement {["nav-link"]} {["data-section" := "home"]} ∅ ""]>
      (<[3 := mkElement {["nav-link"; "active"]} {["data-section" := "about"]} ∅ ""]> ∅))
    ∅ ∅ [].

Definition twin_page : World :=
  mkWorld
    (<[2 := mkElement {["nav-link"]} {["data-section" := "about"]} ∅ ""]>
      (<[3 := mkElement {["mobile-nav-link"]} {["data-section" := "about"]} ∅ ""]> ∅))
    ∅ ∅ [].

(** The calls of the log that concern the element [el]. *)
Definition is_visible_add (el : node) (e : Effect) : bool :=
  match e with
  | ClassAdd n c => Nat.eqb n el && String.eqb c "visible"
  | _ => false
  end.

Definition is_observe (el : node) (e : Effect) : bool :=
  match e with
  | Observe _ n => Nat.eqb n el
  | _ => false
  end.

Definition is_unobserve (el : node) (e : Effect) : bool :=
  match e with
  | Unobserve _ n => Nat.eqb n el
  | _ => false
  end.

Definition visible_adds (el : node) (l : list Effect) : nat :=
  length (List.filter (is_visible_add el) l).

Definition observe_calls (el : node) (l : list Effect) : nat :=
  length (List.filter (is_observe el) l).

Definition unobserve_calls (el : node) (l : list Effect) : nat :=
  length (List.filter (is_unobserve el) l).

(** Some entry reports [el] intersecting. *)
Definition intersects (el : node) (entries : list Entry) : bool :=
  existsb (λ entry, isIntersecting entry && Nat.eqb (target entry) el) entries.

(** [el.dataset.animateOnce !== 'false'] *)
Definition animates_once (w : World) (el : node) : Prop :=
  attributes (element w el) !! "data-animate-once" ≠ Some "false".

(** The targets of an observer. *)
Definition targets (w : World) (observer : nat) : gset node := observing w !!! observer.

(** What one iteration of the callback does to an element [el]. *)
Definition entry_fires (this : AnimationManager) (entry : Entry) : bool :=
  isIntersecting entry && negb (bool_decide (target entry ∈ animatedElements this)).

(** What the callback has done to [el] once it returns: from a state in
    which [el] was already recorded it is [settled]; from a state in
    which it was not, it is [faded_in] if an entry reported it
    intersecting and [untouched] otherwise. *)
Definition settled (observer : nat) (el : node) (this' : AnimationManager) (w w' : World)
    (new : list Effect) : Prop :=
  el ∈ animatedElements this' ∧
  visible_adds el new = 0 ∧ unobserve_calls el new = 0 ∧
  element w' el = element w el ∧
  (el ∈ targets w' observer ↔ el ∈ targets w observer).

Definition untouched (observer : nat) (el : node) (this' : AnimationManager) (w w' : World)
    (new : list Effect) : Prop :=
  (el ∉ animatedElements this') ∧
  visible_adds el new = 0 ∧ unobserve_calls el new = 0 ∧
  element w' el = element w el ∧
  (el ∈ targets w' observer ↔ el ∈ targets w observer).

Definition faded_in (observer : nat) (el : node) (this' : AnimationManager) (w w' : World)
    (new : list Effect) : Prop :=
  el ∈ animatedElements this' ∧
  visible_adds el new = 1 ∧
  classList (element w' el) = classList (element w el) ∪ {["visible"]} ∧
  (animates_once w el → unobserve_calls el new = 1 ∧ el ∉ targets w' observer).

(** The world before any script ran. *)
Definition fresh_world : World := mkWorld ∅ ∅ ∅ [].

(** A manager with an overlay and no transition in flight. *)
Definition idle_manager : LoadingManager := mkLoadingManager (Some 8) (Some 9) false.

(** A link of the site to another of its pages, on the page served at
    [https://samuelkahessay.github.io/]: the attribute is relative, the
    [href] property is the absolute URL. *)
Definition sonora_link : Anchor :=
  mkAnchor 12 (Some "sonora/index.html")
    "https://samuelkahessay.github.io/sonora/index.html" "".

(** The same link when the page is opened from the disk. *)
Definition sonora_link_from_disk : Anchor :=
  mkAnchor 12 (Some "sonora/index.html") "file:///site/sonora/index.html" "".

(** An absolute link that stays in the browsing context. *)
Definition github_link : Anchor :=
  mkAnchor 13 (Some "https://github.com/samuelkahessay") "https://github.com/samuelkahessay" "".

(** The links the interception leaves alone: a link that opens a new
    browsing context, a mail link and a link within the page. *)
Definition blank_link : Anchor :=
  mkAnchor 14 (Some "https://github.com/samuelkahessay") "https://github.com/samuelkahessay"
    "_blank".

Definition mail_link : Anchor :=
  mkAnchor 15 (Some "mailto:hello@example.com") "mailto:hello@example.com" "".

Definition same_page_link : Anchor :=
  mkAnchor 16 (Some "#about") "https://samuelkahessay.github.io/#about" "".

(** The theme a toggle switches to. *)
Definition other_theme (t : string) : string :=
  if bool_decide (t = "dark") then "light" else "dark".

(** The [data-theme] attribute of the document element. *)
Definition data_theme (this : ThemeManager) (w : World) : option string :=
  attributes (element w (html this)) !! "data-theme".

(** The payload of the last event dispatched, if the last effectful call
    was a [themechange] dispatch. *)
Definition last_themechange (w : World) : option string :=
  match log w with
  | DispatchEvent "themechange" detail :: _ => Some detail
  | _ => None
  end.

(** A page in the light theme, with toggle and icon. *)
Definition themed_manager : ThemeManager :=
  mkThemeManager (Some 20) (Some 21) document_documentElement.

Definition light_page : World :=
  mkWorld (<[document_documentElement := mkElement ∅ {["data-theme" := "light"]} ∅ ""]> ∅)
    ∅ ∅ [].

(** A page whose markup provides none of the optional hooks. *)
Definition bare_page : Page :=
  mkPage (mkLoadingManager None None false)
    (mkNavigationManager None None [] None [] None)
    (mkThemeManager None None document_documentElement).

(** A scroll event at the position [y] of a page 3000 pixels high in a
    window 800 pixels high. *)
Definition viewport_at (y : float) : Viewport := mkViewport y y 3000 800.

(** The header state after each scroll event of a sequence. *)
Fixpoint scrolledAfterEach (this : NavigationManager) (h : node) (samples : list Viewport)
    (w : World) : list bool :=
  match samples with
  | [] => []
  | vp :: rest =>
      match exec (dispatchScroll this vp) w with
      | Some w' => has_class w' h "scrolled" :: scrolledAfterEach this h rest w'
      | None => []
      end
  end.

(** The width written to the progress element. *)
Definition progress_width (w : World) (progress : node) : option CssValue :=
  style (element w progress) !! "width".

(** A page with a progress bar and a header. *)
Definition scrolling_manager : NavigationManager :=
  mkNavigationManager None None [] (Some 10) [] (Some 11).

(** The header state after each scroll event, for the listener of the
    single-file script. *)
Fixpoint legacyScrolledAfterEach (this : Legacy.HeaderEffects) (h : node) (samples : list float)
    (w : World) : list bool :=
  match samples with
  | [] => []
  | y :: rest =>
      match Legacy.onScroll this y w with
      | Normal (this', w') =>
          has_class w' h "scrolled" :: legacyScrolledAfterEach this' h rest w'
      | Throw _ => []
      end
  end.

(** A value that is zero (of either sign), positive and finite, or
    [+Infinity]. *)
Definition sf_nonneg (f : spec_float) : Prop :=
  match f with
  | S754_zero _ | S754_infinity false | S754_finite false _ _ => True
  | _ => False
  end.

(** A value that is positive: finite or [+Infinity]. *)
Definition sf_pos (f : spec_float) : Prop :=
  match f with
  | S754_infinity false | S754_finite false _ _ => True
  | _ => False
  end.

(** A value of sign [s] that is not [NaN]. *)
Definition sf_signed (s : bool) (f : spec_float) : Prop :=
  match f with
  | S754_zero s' | S754_infinity s' | S754_finite s' _ _ => s' = s
  | S754_nan => False
  end.

(** A scroll event on a page whose document is exactly as high as the
    window. *)
Definition unscrollable : Viewport := mkViewport 0 0 800 800.

(** A scroll event during an overscroll bounce, above the top of the
    page. *)
Definition overscrolled : Viewport := mkViewport (-10) (-10) 3000 800.

(** ** Observations on the utilities *)

(** The arguments of the calls of a sequence of events, and the number of
    timers that fire in it. *)
Definition callArgs {Args} (evs : list (Performance.Event Args)) : list Args :=
  flat_map (λ ev, match ev with Performance.Call a => [a] | Performance.TimerFires => [] end) evs.

Definition firings {Args} (evs : list (Performance.Event Args)) : nat :=
  length (List.filter
    (λ ev, match ev with Performance.TimerFires => true | Performance.Call _ => false end) evs).

(** What can reach the theme after [initTheme()]: a click on the toggle,
    a change of the colour scheme of the system, and a call of
    [setThemePreference]. *)
Inductive ThemeEvent :=
| ToggleClicked
| SystemChanged (matches : bool)
| PreferenceSet (name : string).

Definition onThemeEvent (this : ThemeManager) (ev : ThemeEvent) : Js unit :=
  match ev with
  | ToggleClicked => toggleTheme this
  | SystemChanged matches => onSystemThemeChange this matches
  | PreferenceSet name => setThemePreference this name
  end.

(** The theme of the document is the stored one, [light] when nothing is
    stored. *)
Definition theme_follows_storage (this : ThemeManager) (w : World) : Prop :=
  data_theme this w = Some (or_light (localStorage w !! "theme")).

Definition theme_is_known (this : ThemeManager) (w : World) : Prop :=
  data_theme this w = Some "light" ∨ data_theme this w = Some "dark".

(** The state of the mobile menu, as the page shows it. *)
Record MenuState := mkMenuState {
  toggle_active : bool;
  nav_active : bool;
  aria_expanded : option string;
  body_overflow : option CssValue
}.

Definition menu_state (w : World) (toggle nav : node) : MenuState :=
  mkMenuState (has_class w toggle "active") (has_class w nav "active")
    (attributes (element w toggle) !! "aria-expanded")
    (style (element w document_body) !! "overflow").

Definition menu_opened : MenuState :=
  mkMenuState true true (Some "true") (Some (CssText "hidden")).

Definition menu_closed : MenuState :=
  mkMenuState false false (Some "false") (Some (CssText "")).


(** The last entry of a batch that is intersecting. *)
Definition last_intersecting (entries : list Entry) : option Entry :=
  last (List.filter isIntersecting entries).

(** A page with a mobile menu, closed. *)
Definition menu_manager : NavigationManager :=
  mkNavigationManager (Some 30) (Some 31) [] None [] (Some 32).

(** The two calls that drive the transition overlay. *)
Inductive TransitionCall :=
| ShowCall
| HideCall.

Definition onTransitionCall (this : LoadingManager) (call : TransitionCall) : Js LoadingManager :=
  match call with
  | ShowCall => showTransition this
  | HideCall => hideTransition this ;; mret this
  end.

(** The state of a throttled function: a timer is pending exactly while
    [inThrottle] is set. *)
Definition throttle_consistent (t : Performance.Throttled) : Prop :=
  Performance.timers t = if Performance.inThrottle t then 1 else 0.

(** A page with a stored theme the script does not know. *)
Definition foreign_theme_page : World := mkWorld ∅ {["theme" := "sepia"]} ∅ [].

(** A page with a fade-in element that asks to be animated again. *)
Definition repeatable_page : World :=
  mkWorld (<[4 := mkElement {["fade-in"]} {["data-animate-once" := "false"]} ∅ ""]> ∅) ∅ ∅ [].

(** What [loadElement] leaves of an element. *)
Definition loaded (e : Element) : Element :=
  let a := attributes e in
  let a1 :=
    match Performance.nonempty (a !! "data-src") with
    | Some s => delete "data-src" (<["src" := s]> a)
    | None => a
    end in
  let a2 :=
    match Performance.nonempty (a !! "data-srcset") with
    | Some s => delete "data-srcset" (<["srcset" := s]> a1)
    | None => a1
    end in
  mkElement (classList e ∪ {["loaded"]}) a2 (style e) (textContent e).

(** The element [e] is what lazy loading makes of [e0]: it carries the
    class [loaded], and a source [e0] held in [data-src] or [data-srcset]
    is now in [src] or [srcset], the data attribute gone. *)
Definition loaded_from (e0 e : Element) : Prop :=
  "loaded" ∈ classList e ∧
  (∀ s, attributes e0 !! "data-src" = Some s → s ≠ "" →
     attributes e !! "src" = Some s ∧ attributes e !! "data-src" = None) ∧
  (∀ s, attributes e0 !! "data-srcset" = Some s → s ≠ "" →
     attributes e !! "srcset" = Some s ∧ attributes e !! "data-srcset" = None) ∧
  style e = style e0 ∧ textContent e = textContent e0.

(** [link.rel] read off a world, and whether it names both security
    keywords. *)
Definition rel_of (w : World) (link : node) : string :=
  default "" (attributes (element w link) !! "rel").

Definition secured (w : World) (link : node) : bool :=
  Loading.includes "noopener" (rel_of w link) && Loading.includes "noreferrer" (rel_of w link).

(** The pointer enters links whose [href] are [urls], in order, on a page
    that has preloaded nothing yet. *)
Definition hover (origin : string) (urls : list string) : Links.Preloader :=
  foldl (Links.onMouseEnter origin) (Links.mkPreloader ∅ []) urls.

(** A link marked [data-loading] that is at rest. *)
Definition resting_link_page : World :=
  mkWorld (<[40 := mkElement {["button"]} {["data-loading" := "true"]} ∅ "Download"]> ∅) ∅ ∅ [].



(** The [aria-label] of an element. *)
Definition aria_label (w : World) (link : node) : option string :=
  attributes (element w link) !! "aria-label".

(** A page with two links that open a new tab, one of them labelled. *)
Definition blank_links_page : World :=
  mkWorld
    (<[50 := mkElement ∅ {["target" := "_blank"]} ∅ " GitHub "]>
      (<[51 := mkElement ∅ {["target" := "_blank"; "aria-label" := "Resume"]} ∅ "CV"]> ∅))
    ∅ ∅ [].

(** Whether the mobile menu of the single-file script is open after a
    sequence of events, read off the events alone. *)
Definition menuOpenAfter (open : bool) (evs : list Script.MenuEvent) : bool :=
  foldl (λ open ev,
    match ev with
    | Script.ToggleClick => negb open
    | Script.DocumentClick insideToggle insideMenu =>
        if negb insideToggle && negb insideMenu then false else open
    | Script.DocumentKeydown key => if bool_decide (key = "Escape") then false else open
    end) open evs.

(** The three classes of the mobile menu say [open]. *)
Definition menu_classes (w : World) (toggle menu : node) (open : bool) : Prop :=
  has_class w menu "active" = open ∧
  has_class w toggle "active" = open ∧
  has_class w document_body "menu-open" = open.

(** [n] clicks on the theme toggle of the single-file script. *)
Definition toggles (n : nat) (this : Script.ThemeManager) : Js Script.ThemeManager :=
  foldM (λ this _, Script.toggleTheme this) this (replicate n ()).

(** The theme of the single-file script after [n] clicks, from the theme
    [t] the constructor read. *)
Definition themeAfter (n : nat) (t : string) : string :=
  match n with
  | 0 => t
  | S _ =>
      if Nat.even n
      then (if bool_decide (t = "light") then "light" else "dark")
      else (if bool_decide (t = "light") then "dark" else "light")
  end.

(** A FAQ page: three items with their answers, the second one open. *)
Definition faq_items : list Script.FaqItem :=
  [Script.mkFaqItem 60 (Some 61); Script.mkFaqItem 62 (Some 63); Script.mkFaqItem 64 (Some 65)].

Definition faq_page : World :=
  mkWorld (<[62 := mkElement {["faq-item"; "active"]} ∅ ∅ ""]> ∅) ∅ ∅ [].

(** What the loader shows while a timer of the typing animation is
    pending: the first [index] characters of the text, at least one. *)
Definition typing (w : World) (loader : node) (state : nat * Managers.TypeWriterTimer) : Prop :=
  1 ≤ state.1 ≤ String.length Managers.loaderText ∧
  textContent (element w loader) = String.substring 0 state.1 Managers.loaderText ∧
  (state.2 = Managers.StartOver → state.1 = String.length Managers.loaderText).

(* ===================================================================== *)
(** * The primitives on small inputs                                      *)
(* ===================================================================== *)

Section samples.
Local Open Scope float_scope.

Example Math_min_below : JsNum.Math_min 25 100 = 25.
Proof. reflexivity. Qed.

Example Math_min_above : JsNum.Math_min infinity 100 = 100.
Proof. reflexivity. Qed.

Example Math_min_nan : JsNum.Math_min (0 / 0) 100 = nan.
Proof. reflexivity. Qed.

Example Math_min_zeros : JsNum.Math_min 0 (-0) = (-0) ∧ JsNum.Math_min (-0) 0 = (-0).
Proof. split; reflexivity. Qed.

Example or_else_zero : JsNum.or_else 0 120 = 120 ∧ JsNum.or_else 60 120 = 60.
Proof. split; reflexivity. Qed.

Example progress_quarter : publishedProgress (viewport_at 550) = 25.
Proof. reflexivity. Qed.

Example progress_past_the_end : publishedProgress (viewport_at 3000) = 100.
Proof. reflexivity. Qed.

Example endsWith_html :
  endsWith ".html" "sonora/index.html" = true ∧ endsWith ".html" "index.htm" = false ∧
  endsWith ".html" "html" = false.
Proof. by split_and!. Qed.

Example includes_hash :
  includes "#" "https://samuelkahessay.github.io/#about" = true ∧
  includes "#" "https://samuelkahessay.github.io/" = false.
Proof. by split_and!. Qed.

Example selectors :
  selects_external github_link = true ∧ selects_external mail_link = true ∧
  selects_external sonora_link = false ∧ selects_external same_page_link = false ∧
  selects_html sonora_link = true ∧ selects_html github_link = false.
Proof. by split_and!. Qed.

End samples.

(* ===================================================================== *)
(** * Reading the store                                                   *)
(* ===================================================================== *)

Section store.
Implicit Types (w : World) (n m : node) (f : Element → Element).

Lemma element_update_eq w n f :
  element (update_element n f w) n = f (element w n).
Proof. unfold element, update_element; simpl. by rewrite lookup_total_insert_eq. Qed.

Lemma element_update_ne w n m f :
  n ≠ m → element (update_element n f w) m = element w m.
Proof. intros ?. unfold element, update_element; simpl. by rewrite lookup_total_insert_ne. Qed.

Lemma element_record w e n : element (record e w) n = element w n.
Proof. done. Qed.

Lemma element_with_observing w g n : element (with_observing g w) n = element w n.
Proof. done. Qed.

Lemma element_with_storage w g n : element (with_storage g w) n = element w n.
Proof. done. Qed.

Lemma has_class_spec w n c : has_class w n c = true ↔ c ∈ classList (element w n).
Proof. unfold has_class. by rewrite bool_decide_eq_true. Qed.

End store.

(** Reads an element through the writes made to the store. *)
Ltac store_simpl :=
  cbn [parses];
  repeat first
    [ rewrite element_record
    | rewrite element_with_observing
    | rewrite element_with_storage
    | rewrite element_update_eq
    | rewrite element_update_ne by done ];
  simpl.

(** Unfolds the monad down to the worlds it threads. *)
Ltac js_unfold :=
  unfold classList_add, classList_remove, classList_contains, getAttribute,
    setAttribute, style_set, textContent_set, localStorage_getItem,
    localStorage_setItem, dispatchEvent, preventDefault, setTimeout, scrollTo,
    location_assign, observer_observe, observer_unobserve, observer_disconnect,
    deref, throw, modify, gets, mbind, Js_bind, mret, Js_ret in *.

(* ===================================================================== *)
(** * NavigationManager: the active link                                  *)
(* ===================================================================== *)

Section active_link.

(** What one iteration leaves behind. *)
Lemma mark_spec activeId link w :
  ∃ w', mark activeId link w = Normal (tt, w') ∧
    (∀ n, attributes (element w' n) = attributes (element w n)) ∧
    (∀ n, n ≠ link → element w' n = element w n) ∧
    (∀ c, c ≠ "active" → c ∈ classList (element w' link) ↔ c ∈ classList (element w link)) ∧
    ("active" ∈ classList (element w' link) ↔ data_section w link = Some activeId) ∧
    localStorage w' = localStorage w ∧ observing w' = observing w.
Proof.
  unfold mark, data_section. js_unfold.
  rewrite element_record, element_update_eq. simpl.
  case_bool_decide as Hs; (eexists; split; [done|]); split_and!; try done.
  all: try (intros n; destruct (decide (n = link)) as [->|]; by store_simpl).
  all: try (intros n ?; by store_simpl).
  all: store_simpl; try (intros c ?); set_solver.
Qed.

(** The whole loop: attributes and the rest of the world are kept, the
    links outside the collection are untouched, and on every tracked link
    the class [active] is decided by its [data-section] alone. *)
Lemma forEach_mark activeId links w :
  ∃ w', forEach links (mark activeId) w = Normal (tt, w') ∧
    (∀ n, attributes (element w' n) = attributes (element w n)) ∧
    (∀ n, n ∉ links → element w' n = element w n) ∧
    (∀ n c, c ≠ "active" → c ∈ classList (element w' n) ↔ c ∈ classList (element w n)) ∧
    (∀ n, n ∈ links →
       "active" ∈ classList (element w' n) ↔ data_section w n = Some activeId) ∧
    localStorage w' = localStorage w ∧ observing w' = observing w.
Proof.
  revert w. induction links as [|link links IH]; intros w.
  - exists w. split_and!; try done. intros n Hn. by apply not_elem_of_nil in Hn.
  - destruct (mark_spec activeId link w) as (w1 & Hrun & Hattr & Hother & Hcls & Hact & Hst & Hob).
    destruct (IH w1) as (w2 & Hrun' & Hattr' & Hother' & Hcls' & Hact' & Hst' & Hob').
    exists w2. split_and!.
    + simpl. unfold mbind, Js_bind. by rewrite Hrun.
    + intros n. by rewrite Hattr', Hattr.
    + intros n Hn. apply not_elem_of_cons in Hn as [? ?].
      by rewrite Hother', Hother.
    + intros n c Hc. rewrite Hcls' by done.
      destruct (decide (n = link)) as [->|]; [by apply Hcls|by rewrite Hother].
    + intros n Hn.
      destruct (decide (n ∈ links)) as [Hin|Hnin].
      * rewrite Hact' by done. unfold data_section. by rewrite Hattr.
      * apply elem_of_cons in Hn as [->|]; [|done].
        by rewrite Hother'.
    + congruence.
    + congruence.
Qed.

Lemma forEach_app {A} (xs ys : list A) (f : A → Js unit) w :
  forEach (xs ++ ys) f w = (forEach xs f ;; forEach ys f) w.
Proof.
  revert w. induction xs as [|x xs IH]; intros w; simpl.
  - done.
  - unfold mbind, Js_bind in *. destruct (f x w) as [[[] w1]|e]; [apply IH|done].
Qed.

(** Any sequence of section-visibility events completes and keeps the
    attributes of every element. *)
Lemma updates_complete this ids w :
  ∃ w', forEach ids (updateActiveNavLink this) w = Normal (tt, w') ∧
    ∀ n, attributes (element w' n) = attributes (element w n).
Proof.
  revert w. induction ids as [|i ids IH]; intros w.
  - by exists w.
  - destruct (forEach_mark i (navLinks this) w) as (w1 & Hrun & Hattr & _).
    destruct (IH w1) as (w2 & Hrun' & Hattr').
    exists w2. split.
    + simpl. unfold mbind, Js_bind, updateActiveNavLink. fold (mark i).
      by rewrite Hrun.
    + intros n. by rewrite Hattr', Hattr.
Qed.

(** One call: it completes, keeps the attributes, and decides the class
    [active] of every tracked link by its [data-section]. *)
Lemma updateActiveNavLink_exact this activeId w :
  ∃ w', updateActiveNavLink this activeId w = Normal (tt, w') ∧
    (∀ n, attributes (element w' n) = attributes (element w n)) ∧
    ∀ link, link ∈ navLinks this →
      has_class w' link "active" = bool_decide (data_section w link = Some activeId).
Proof.
  destruct (forEach_mark activeId (navLinks this) w) as (w' & Hrun & Hattr & _ & _ & Hact & _).
  exists w'. split_and!; [done|done|].
  intros link Hin. apply bool_decide_ext. by rewrite <- Hact.
Qed.

Lemma filter_at_most_one {A} (p : A → bool) (l : list A) :
  NoDup l →
  (∀ a b, a ∈ l → b ∈ l → p a = true → p b = true → a = b) →
  length (List.filter p l) ≤ 1.
Proof.
  induction 1 as [|x l Hx Hl IH]; intros Huniq; simpl; [lia|].
  destruct (p x) eqn:Hpx; simpl.
  - destruct (List.filter p l) as [|y ys] eqn:Hf; simpl; [lia|].
    assert (In y (List.filter p l)) as Hy by (rewrite Hf; by left).
    apply List.filter_In in Hy as [Hy Hpy]. apply list_elem_of_In in Hy.
    exfalso. apply Hx. rewrite (Huniq x y); [done|set_solver..|done|done].
  - apply IH. intros a b ????. apply Huniq; set_solver.
Qed.

(** C10.  A call [updateActiveNavLink(id)] completes, and afterwards a
    tracked link carries the class [active] exactly when its
    [data-section] attribute equals [id]: the links that were active
    before play no part (two worlds whose tracked links have the same
    [data-section] end with the same active links), and when no tracked
    link matches [id] no tracked link is active. *)
Theorem updateActiveNavLink_determined_by_id (this : NavigationManager) (activeId : string)
    (w : World) :
  ∃ w', updateActiveNavLink this activeId w = Normal (tt, w') ∧
    (∀ link, link ∈ navLinks this →
       has_class w' link "active" = bool_decide (data_section w link = Some activeId)) ∧
    (∀ link, data_section w' link = data_section w link) ∧
    (∀ v v', (∀ link, link ∈ navLinks this → data_section v link = data_section w link) →
       updateActiveNavLink this activeId v = Normal (tt, v') →
       ∀ link, link ∈ navLinks this →
         has_class v' link "active" = has_class w' link "active") ∧
    ((∀ link, link ∈ navLinks this → data_section w link ≠ Some activeId) →
       ∀ link, link ∈ navLinks this → has_class w' link "active" = false).
Proof.
  destruct (updateActiveNavLink_exact this activeId w) as (w' & Hrun & Hattr & Hact).
  exists w'. split_and!; [done|done| | |].
  - intros link. unfold data_section. by rewrite Hattr.
  - intros v v' Hsame Hv link Hin.
    destruct (updateActiveNavLink_exact this activeId v) as (v'' & Hv' & _ & Hactv).
    rewrite Hv in Hv'. injection Hv' as <-.
    by rewrite Hactv, Hact, Hsame.
  - intros Hnone link Hin. rewrite Hact by done.
    apply bool_decide_eq_false. by apply Hnone.
Qed.

(** C2, as the claim states it, fails: with a desktop link and a mobile
    link to the same section in the tracked collection, one event leaves
    two links active. *)
Lemma twin_links_both_active :
  NoDup (navLinks twin_links) ∧
  activeCount twin_links <$> exec (forEach ["about"] (updateActiveNavLink twin_links)) twin_page
    = Some 2.
Proof.
  split; [|by vm_compute].
  apply NoDup_cons. split; [set_solver|]. apply NoDup_singleton.
Qed.

(** C2, amended.  On every page, after a non-empty sequence of
    section-visibility events the active links are exactly the tracked
    links whose [data-section] is the last section id; so when no two of
    the tracked links (which are distinct elements) share a
    [data-section], at most one tracked link is active. *)
Theorem at_most_one_active_per_section (this : NavigationManager) (ids : list string)
    (activeId : string) (w : World) :
  ∃ w', forEach (ids ++ [activeId]) (updateActiveNavLink this) w = Normal (tt, w') ∧
    (∀ link, link ∈ navLinks this →
       has_class w' link "active" = bool_decide (data_section w link = Some activeId)) ∧
    (NoDup (navLinks this) →
     (∀ a b, a ∈ navLinks this → b ∈ navLinks this →
        is_Some (data_section w a) → data_section w a = data_section w b → a = b) →
     activeCount this w' ≤ 1).
Proof.
  destruct (updates_complete this ids w) as (w1 & Hrun1 & Hattr1).
  destruct (updateActiveNavLink_exact this activeId w1) as (w2 & Hrun2 & Hattr2 & Hact2).
  assert (Hact : ∀ link, link ∈ navLinks this →
    has_class w2 link "active" = bool_decide (data_section w link = Some activeId)).
  { intros link Hin. rewrite Hact2 by done. unfold data_section. by rewrite Hattr1. }
  exists w2. split_and!; [|done|].
  - rewrite forEach_app. unfold mbind, Js_bind. rewrite Hrun1. simpl.
    unfold mbind, Js_bind. by rewrite Hrun2.
  - intros Hnodup Hdistinct. apply filter_at_most_one; [done|].
    intros a b Ha Hb Haa Hab. rewrite Hact in Haa, Hab by done.
    apply bool_decide_eq_true in Haa, Hab.
    apply Hdistinct; [done|done|by rewrite Haa|congruence].
Qed.

(** The amended C2 on the page of the counterexample, with its two links
    to the same section, and on a page with two links to two sections:
    on both the active links are those of the last section, two of them
    on the first page and at most one on the second. *)
Lemma at_most_one_active_per_section_witness :
  (∃ w', forEach (["home"] ++ ["about"]) (updateActiveNavLink twin_links) twin_page
       = Normal (tt, w') ∧
     (∀ link, link ∈ navLinks twin_links →
        has_class w' link "active"
        = bool_decide (data_section twin_page link = Some "about")) ∧
     activeCount twin_links w' = 2) ∧
  (∃ w', forEach (["home"] ++ ["about"]) (updateActiveNavLink twin_links) two_sections_page
       = Normal (tt, w') ∧
     (∀ link, link ∈ navLinks twin_links →
        has_class w' link "active"
        = bool_decide (data_section two_sections_page link = Some "about")) ∧
     activeCount twin_links w' ≤ 1).
Proof.
  split.
  - destruct (at_most_one_active_per_section twin_links ["home"] "about" twin_page)
      as (w' & Hrun & Hexact & _).
    exists w'. split_and!; [done|done|].
    unfold activeCount. simpl.
    rewrite !Hexact by (simpl; set_solver). reflexivity.
  - destruct (at_most_one_active_per_section twin_links ["home"] "about" two_sections_page)
      as (w' & Hrun & Hexact & Hcount).
    exists w'. split_and!; [done|done|]. apply Hcount.
    + apply NoDup_cons. split; [set_solver|]. apply NoDup_singleton.
    + intros a b Ha Hb _.
      apply elem_of_cons in Ha as [->|Ha]; [|apply list_elem_of_singleton in Ha as ->];
      (apply elem_of_cons in Hb as [->|Hb]; [|apply list_elem_of_singleton in Hb as ->]);
      by vm_compute.
Defined.

End active_link.

(* ===================================================================== *)
(** * AnimationManager: fading in once                                    *)
(* ===================================================================== *)

Section fade_in.

Lemma targets_unobserve w observer n :
  targets (record (Unobserve observer n)
    (with_observing (λ o, <[observer := (o !!! observer) ∖ {[n]}]> o) w)) observer
  = targets w observer ∖ {[n]}.
Proof. unfold targets; simpl. by rewrite lookup_total_insert_eq. Qed.

Lemma onFadeInEntry_idle observer this entry w :
  entry_fires this entry = false →
  onFadeInEntry observer this entry w = Normal (this, w).
Proof. unfold onFadeInEntry, entry_fires. by intros ->. Qed.

Lemma onFadeInEntry_fires observer this entry w :
  entry_fires this entry = true →
  ∃ w' new,
    onFadeInEntry observer this entry w
      = Normal (mkAnimationManager (observers this)
                  (animatedElements this ∪ {[target entry]}), w') ∧
    log w' = new ++ log w ∧
    (∀ n, attributes (element w' n) = attributes (element w n)) ∧
    (∀ n, n ≠ target entry → element w' n = element w n) ∧
    classList (element w' (target entry)) = classList (element w (target entry)) ∪ {["visible"]} ∧
    visible_adds (target entry) new = 1 ∧
    (∀ n, n ≠ target entry →
       visible_adds n new = 0 ∧ unobserve_calls n new = 0 ∧
       (n ∈ targets w' observer ↔ n ∈ targets w observer)) ∧
    (∀ n, observe_calls n new = 0) ∧
    (animates_once w (target entry) →
       unobserve_calls (target entry) new = 1 ∧ target entry ∉ targets w' observer).
Proof.
  intros Hfires. unfold onFadeInEntry. fold (entry_fires this entry). rewrite Hfires.
  clear Hfires. unfold animates_once. js_unfold. store_simpl.
  set (t := target entry).
  case_bool_decide as Honce.
  - eexists _, [Unobserve observer t; ClassAdd t "visible"].
    split_and!; try done.
    + intros n. destruct (decide (n = t)) as [->|]; by store_simpl.
    + intros n ?. by store_simpl.
    + by store_simpl.
    + unfold visible_adds; simpl. by rewrite Nat.eqb_refl.
    + intros n Hn. unfold visible_adds, unobserve_calls; simpl.
      apply Nat.eqb_neq in Hn as Hn'. rewrite Nat.eqb_sym in Hn'. rewrite Hn'. simpl.
      split_and!; [done..|]. rewrite targets_unobserve. set_solver.
    + intros _. unfold unobserve_calls; simpl. rewrite Nat.eqb_refl.
      split; [done|]. rewrite targets_unobserve. set_solver.
  - eexists _, [ClassAdd t "visible"].
    split_and!; try done.
    + intros n. destruct (decide (n = t)) as [->|]; by store_simpl.
    + intros n ?. by store_simpl.
    + by store_simpl.
    + unfold visible_adds; simpl. by rewrite Nat.eqb_refl.
    + intros n Hn. unfold visible_adds, unobserve_calls; simpl.
      apply Nat.eqb_neq in Hn as Hn'. rewrite Nat.eqb_sym in Hn'. by rewrite Hn'.
Qed.

Lemma visible_adds_app el l1 l2 :
  visible_adds el (l1 ++ l2) = visible_adds el l1 + visible_adds el l2.
Proof. unfold visible_adds. by rewrite List.filter_app, length_app. Qed.

Lemma observe_calls_app el l1 l2 :
  observe_calls el (l1 ++ l2) = observe_calls el l1 + observe_calls el l2.
Proof. unfold observe_calls. by rewrite List.filter_app, length_app. Qed.

Lemma unobserve_calls_app el l1 l2 :
  unobserve_calls el (l1 ++ l2) = unobserve_calls el l1 + unobserve_calls el l2.
Proof. unfold unobserve_calls. by rewrite List.filter_app, length_app. Qed.

Lemma fadeIn_entries_spec observer entries this w :
  ∃ this' w' new,
    foldM (onFadeInEntry observer) this entries w = Normal (this', w') ∧
    log w' = new ++ log w ∧
    observers this' = observers this ∧
    (∀ n, attributes (element w' n) = attributes (element w n)) ∧
    ∀ el, observe_calls el new = 0 ∧
      if bool_decide (el ∈ animatedElements this) then settled observer el this' w w' new
      else if intersects el entries then faded_in observer el this' w w' new
      else untouched observer el this' w w' new.
Proof.
  revert this w. induction entries as [|entry entries IH]; intros this w.
  - exists this, w, []. split_and!; try done.
    intros el. split; [done|]. unfold settled, untouched.
    case_bool_decide; simpl; by split_and!.
  - simpl foldM. unfold mbind, Js_bind.
    destruct (entry_fires this entry) eqn:Hfires.
    + destruct (onFadeInEntry_fires observer this entry w Hfires)
        as (w1 & new1 & Hrun & Hlog & Hattr & Hother & Hcls & Hadd & Hrest & Hobs & Honce).
      rewrite Hrun.
      set (this1 := mkAnimationManager _ _) in *.
      destruct (IH this1 w1) as (this' & w' & new2 & Hrun' & Hlog' & Hobs' & Hattr' & Hel).
      exists this', w', (new2 ++ new1). split_and!; [done| | | |].
      * by rewrite Hlog', Hlog, app_assoc.
      * done.
      * intros n. by rewrite Hattr', Hattr.
      * intros el. destruct (Hel el) as [Ho2 Hcase]. split.
        { by rewrite observe_calls_app, Ho2, Hobs. }
        unfold entry_fires in Hfires. apply andb_true_iff in Hfires as [Hint Hfresh].
        apply negb_true_iff, bool_decide_eq_false in Hfresh.
        destruct (decide (el = target entry)) as [->|Hne].
        -- rewrite bool_decide_eq_false_2 by done.
           assert (intersects (target entry) (entry :: entries) = true) as ->.
           { simpl. by rewrite Hint, Nat.eqb_refl. }
           rewrite bool_decide_eq_true_2 in Hcase by (subst this1; simpl; set_solver).
           destruct Hcase as (Hin & Hv & Hu & He & Ht).
           unfold faded_in. split_and!; [done| | |].
           ++ by rewrite visible_adds_app, Hv, Hadd.
           ++ by rewrite He, Hcls.
           ++ intros Ha. destruct (Honce Ha) as [Hu1 Ht1]. split.
              ** by rewrite unobserve_calls_app, Hu, Hu1.
              ** by rewrite Ht.
        -- destruct (Hrest el Hne) as (Hv1 & Hu1 & Ht1).
           assert (intersects el (entry :: entries) = intersects el entries) as ->.
           { simpl. apply Nat.eqb_neq in Hne. rewrite Nat.eqb_sym in Hne.
             by rewrite Hne, andb_false_r. }
           assert (bool_decide (el ∈ animatedElements this1)
                   = bool_decide (el ∈ animatedElements this)) as Hsame.
           { apply bool_decide_ext. subst this1; simpl. set_solver. }
           rewrite Hsame in Hcase.
           destruct (bool_decide (el ∈ animatedElements this));
             [|destruct (intersects el entries)].
           ++ destruct Hcase as (Hin & Hv & Hu & He & Ht). unfold settled. split_and!.
              ** done.
              ** by rewrite visible_adds_app, Hv, Hv1.
              ** by rewrite unobserve_calls_app, Hu, Hu1.
              ** by rewrite He, Hother.
              ** by rewrite Ht.
           ++ destruct Hcase as (Hin & Hv & Hc & Ho). unfold faded_in. split_and!.
              ** done.
              ** by rewrite visible_adds_app, Hv, Hv1.
              ** by rewrite Hc, Hother.
              ** intros Ha. unfold animates_once in *. rewrite Hattr in Ho.
                 destruct (Ho Ha) as [Hu Ht]. split; [|done].
                 by rewrite unobserve_calls_app, Hu, Hu1.
           ++ destruct Hcase as (Hin & Hv & Hu & He & Ht). unfold untouched. split_and!.
              ** done.
              ** by rewrite visible_adds_app, Hv, Hv1.
              ** by rewrite unobserve_calls_app, Hu, Hu1.
              ** by rewrite He, Hother.
              ** by rewrite Ht.
    + rewrite (onFadeInEntry_idle observer this entry w Hfires).
      destruct (IH this w) as (this' & w' & new & Hrun' & Hlog' & Hobs' & Hattr' & Hel).
      exists this', w', new. split_and!; [done..|].
      intros el. destruct (Hel el) as [Ho Hcase]. split; [done|].
      case_bool_decide as Hin; [done|].
      assert (intersects el (entry :: entries) = intersects el entries) as ->; [|done].
      simpl. unfold entry_fires in Hfires.
      destruct (isIntersecting entry); [|done]. simpl in *.
      apply negb_false_iff, bool_decide_eq_true in Hfires.
      destruct (Nat.eqb_spec (target entry) el) as [<-|]; [done|done].
Qed.

Lemma foldM_app {S A} (f : S → A → Js S) (xs ys : list A) (this : S) w :
  foldM f this (xs ++ ys) w = (this' ← foldM f this xs ; foldM f this' ys) w.
Proof.
  revert this w. induction xs as [|x xs IH]; intros this w; simpl.
  - done.
  - unfold mbind, Js_bind in *. destruct (f this x w) as [[this1 w1]|e]; [apply IH|done].
Qed.

(** A sequence of callbacks is one pass over all the entries delivered. *)
Lemma fadeIn_batches observer batches this w :
  foldM (fadeInCallback observer) this batches w
  = foldM (onFadeInEntry observer) this (concat batches) w.
Proof.
  revert this w. induction batches as [|batch batches IH]; intros this w; simpl.
  - done.
  - rewrite foldM_app. unfold mbind, Js_bind, fadeInCallback at 1.
    destruct (foldM _ this batch w) as [[this1 w1]|e]; [apply IH|done].
Qed.

Lemma forEach_observe observer els w :
  ∃ w', forEach els (observer_observe observer) w = Normal (tt, w') ∧
    ∀ n, element w' n = element w n.
Proof.
  revert w. induction els as [|el els IH]; intros w; simpl.
  - by exists w.
  - js_unfold.
    destruct (IH (record (Observe observer el)
      (with_observing (λ o, <[observer := (o !!! observer) ∪ {[el]}]> o) w)))
      as (w' & Hrun & Hel).
    exists w'. split; [exact Hrun|]. intros n. by rewrite Hel.
Qed.

Lemma forEach_disconnect observersList w :
  ∃ w', forEach observersList observer_disconnect w = Normal (tt, w') ∧
    ∀ n, element w' n = element w n.
Proof.
  revert w. induction observersList as [|o os IH]; intros w; simpl.
  - by exists w.
  - js_unfold.
    destruct (IH (record (Disconnect o) (with_observing (<[o := ∅]>) w)))
      as (w' & Hrun & Hel).
    exists w'. split; [exact Hrun|]. intros n. by rewrite Hel.
Qed.

(** The constructor leaves no element recorded and writes to no element. *)
Lemma construct_spec observer fadeIns w :
  ∃ w', construct observer fadeIns w
      = Normal (mkAnimationManager {["fadeIn" := observer]} ∅, w') ∧
    ∀ n, element w' n = element w n.
Proof.
  unfold construct, initFadeInAnimations.
  destruct (forEach_observe observer fadeIns w) as (w' & Hrun & Hel).
  exists w'. split; [|done].
  unfold mbind, Js_bind. rewrite Hrun. simpl. by rewrite insert_empty.
Qed.

(** [destroy()] completes, forgets every recorded element and writes to
    no element. *)
Lemma destroy_spec this w :
  ∃ w', destroy this w = Normal (mkAnimationManager ∅ ∅, w') ∧
    ∀ n, element w' n = element w n.
Proof.
  unfold destroy.
  destruct (forEach_disconnect (map_to_list (observers this)).*2 w) as (w' & Hrun & Hel).
  exists w'. split; [|done].
  unfold mbind, Js_bind. by rewrite Hrun.
Qed.

(** A callback none of whose entries is intersecting does nothing. *)
Lemma fadeInCallback_idle observer this entries w :
  forallb (λ entry, negb (isIntersecting entry)) entries = true →
  fadeInCallback observer this entries w = Normal (this, w).
Proof.
  unfold fadeInCallback. revert this w.
  induction entries as [|entry entries IH]; intros this w Hall; simpl; [done|].
  simpl in Hall. apply andb_true_iff in Hall as [Hentry Hall].
  unfold mbind, Js_bind. rewrite onFadeInEntry_idle; [by apply IH|].
  unfold entry_fires. apply negb_true_iff in Hentry. by rewrite Hentry.
Qed.

(** C3.  For an element whose [animate-once] is not disabled, from the
    construction of the manager on and over any sequence of intersection
    callbacks: the class [visible] is added exactly once if some entry
    reports the element intersecting (and never otherwise), the element
    is then recorded and withdrawn from the observer by exactly one
    [unobserve], and no callback submits it to the observer.  Any further
    callbacks [more] add nothing: no class, no [observe], no [unobserve],
    and the element is left as it was. *)
Theorem fade_in_happens_once (observer : nat) (fadeIns : list node) (el : node)
    (batches more : list (list Entry)) (w0 : World)
    (Honce : animates_once w0 el) :
  ∃ this0 w1 this' w' new this'' w'' new',
    construct observer fadeIns w0 = Normal (this0, w1) ∧
    foldM (fadeInCallback observer) this0 batches w1 = Normal (this', w') ∧
    log w' = new ++ log w1 ∧
    observe_calls el new = 0 ∧
    (if intersects el (concat batches)
     then visible_adds el new = 1 ∧ unobserve_calls el new = 1 ∧
          has_class w' el "visible" = true ∧
          el ∈ animatedElements this' ∧ el ∉ targets w' observer
     else visible_adds el new = 0 ∧ unobserve_calls el new = 0 ∧
          element w' el = element w1 el ∧ el ∉ animatedElements this') ∧
    foldM (fadeInCallback observer) this' more w' = Normal (this'', w'') ∧
    log w'' = new' ++ log w' ∧
    (intersects el (concat batches) = true →
       visible_adds el new' = 0 ∧ observe_calls el new' = 0 ∧
       unobserve_calls el new' = 0 ∧
       element w'' el = element w' el ∧
       el ∈ animatedElements this'' ∧ el ∉ targets w'' observer).
Proof.
  destruct (construct_spec observer fadeIns w0) as (w1 & Hc & Hel1).
  set (this0 := mkAnimationManager {["fadeIn" := observer]} ∅) in *.
  destruct (fadeIn_entries_spec observer (concat batches) this0 w1)
    as (this' & w' & new & Hrun & Hlog & _ & _ & Hel).
  destruct (fadeIn_entries_spec observer (concat more) this' w')
    as (this'' & w'' & new' & Hrun' & Hlog' & _ & _ & Hel').
  exists this0, w1, this', w', new, this'', w'', new'.
  destruct (Hel el) as [Hobs Hcase]. destruct (Hel' el) as [Hobs' Hcase'].
  rewrite bool_decide_eq_false_2 in Hcase by (subst this0; simpl; set_solver).
  rewrite !fadeIn_batches.
  split_and!; [done..| |done|done|].
  - destruct (intersects el (concat batches)).
    + destruct Hcase as (Hin & Hv & Hcls & Hu).
      destruct Hu as [Hu Ht].
      { unfold animates_once in *. by rewrite Hel1. }
      split_and!; [done..| |done|done].
      apply has_class_spec. rewrite Hcls. set_solver.
    + by destruct Hcase as (Hin & Hv & Hu & He & Ht).
  - intros Hint. rewrite Hint in Hcase.
    destruct Hcase as (Hin & Hv & Hcls & Hu).
    destruct Hu as [Hu Ht].
    { unfold animates_once in *. by rewrite Hel1. }
    rewrite bool_decide_eq_true_2 in Hcase' by done.
    destruct Hcase' as (Hin' & Hv' & Hu' & He' & Ht').
    split_and!; [done..|]. by rewrite Ht'.
Qed.

(** C3 on a page with two fade-in elements: three entries report the
    first one intersecting, and one more does later. *)
Lemma fade_in_happens_once_witness :
  ∃ this0 w1 this' w' new this'' w'' new',
    construct 7 [4; 5] fresh_world = Normal (this0, w1) ∧
    foldM (fadeInCallback 7) this0 [[mkEntry 4 false]; [mkEntry 4 true; mkEntry 4 true]] w1
      = Normal (this', w') ∧
    log w' = new ++ log w1 ∧
    observe_calls 4 new = 0 ∧
    (if intersects 4 (concat [[mkEntry 4 false]; [mkEntry 4 true; mkEntry 4 true]])
     then visible_adds 4 new = 1 ∧ unobserve_calls 4 new = 1 ∧
          has_class w' 4 "visible" = true ∧
          4 ∈ animatedElements this' ∧ 4 ∉ targets w' 7
     else visible_adds 4 new = 0 ∧ unobserve_calls 4 new = 0 ∧
          element w' 4 = element w1 4 ∧ 4 ∉ animatedElements this') ∧
    foldM (fadeInCallback 7) this' [[mkEntry 4 true]] w' = Normal (this'', w'') ∧
    log w'' = new' ++ log w' ∧
    (intersects 4 (concat [[mkEntry 4 false]; [mkEntry 4 true; mkEntry 4 true]]) = true →
       visible_adds 4 new' = 0 ∧ observe_calls 4 new' = 0 ∧
       unobserve_calls 4 new' = 0 ∧
       element w'' 4 = element w' 4 ∧
       4 ∈ animatedElements this'' ∧ 4 ∉ targets w'' 7).
Proof.
  apply (fade_in_happens_once 7 [4; 5] 4
           [[mkEntry 4 false]; [mkEntry 4 true; mkEntry 4 true]] [[mkEntry 4 true]]
           fresh_world).
  by vm_compute.
Defined.

(** C5, as the claim states it, fails: [destroy()] empties the set of
    recorded elements, and a callback delivered afterwards with an
    intersecting entry for a fade-in element adds the class [visible] to
    it and records it. *)
Lemma stale_callback_mutates :
  ∃ this1 w1 this2 w2 this3 w3,
    construct 7 [4] fresh_world = Normal (this1, w1) ∧
    destroy this1 w1 = Normal (this2, w2) ∧
    fadeInCallback 7 this2 [mkEntry 4 true] w2 = Normal (this3, w3) ∧
    has_class w2 4 "visible" = false ∧
    bool_decide (4 ∈ animatedElements this2) = false ∧
    has_class w3 4 "visible" = true ∧
    bool_decide (4 ∈ animatedElements this3) = true.
Proof.
  do 6 eexists. split_and!; [reflexivity..| | | |]; by vm_compute.
Qed.

(** C5, amended.  After [destroy()], a stale intersection callback
    completes without throwing.  It changes nothing when none of its
    entries is intersecting; an element that an entry reports
    intersecting is handled as on its first intersection (it gets the
    class [visible] and is recorded), and every other element is left as
    it was and stays unrecorded. *)
Theorem stale_callback_after_destroy (this : AnimationManager) (observer : nat)
    (entries : list Entry) (w : World) :
  ∃ this_d w_d this' w',
    destroy this w = Normal (this_d, w_d) ∧
    fadeInCallback observer this_d entries w_d = Normal (this', w') ∧
    (forallb (λ entry, negb (isIntersecting entry)) entries = true →
       this' = this_d ∧ w' = w_d) ∧
    ∀ el,
      if intersects el entries
      then "visible" ∈ classList (element w' el) ∧ el ∈ animatedElements this'
      else element w' el = element w_d el ∧ el ∉ animatedElements this'.
Proof.
  destruct (destroy_spec this w) as (w_d & Hd & _).
  set (this_d := mkAnimationManager ∅ ∅) in *.
  destruct (fadeIn_entries_spec observer entries this_d w_d)
    as (this' & w' & new & Hrun & _ & _ & _ & Hel).
  exists this_d, w_d, this', w'. split_and!; [done|done| |].
  - intros Hidle. unfold fadeInCallback in *.
    pose proof (fadeInCallback_idle observer this_d entries w_d Hidle) as Hsame.
    unfold fadeInCallback in Hsame. rewrite Hsame in Hrun. by injection Hrun as <- <-.
  - intros el. destruct (Hel el) as [_ Hcase].
    rewrite bool_decide_eq_false_2 in Hcase by (subst this_d; simpl; set_solver).
    destruct (intersects el entries).
    + destruct Hcase as (Hin & _ & Hcls & _). split; [|done]. rewrite Hcls. set_solver.
    + by destruct Hcase as (Hin & _ & _ & He & _).
Qed.

End fade_in.

(* ===================================================================== *)
(** * LoadingManager: the transition overlay                              *)
(* ===================================================================== *)

Section transition.

(** [showTransition()] is a no-op while a transition is in flight. *)
Lemma showTransition_in_flight this w :
  isLoading this = true → showTransition this w = Normal (this, w).
Proof. unfold showTransition. by intros ->. Qed.

(** [showTransition()] is a no-op without an overlay. *)
Lemma showTransition_no_overlay this w :
  pageTransition this = None → showTransition this w = Normal (this, w).
Proof. unfold showTransition. intros ->. by destruct (isLoading this). Qed.

(** C4.  From a state with no transition in flight, two calls of
    [showTransition()] in a row show the overlay once: the first call
    sets [isLoading] and adds the class [active] to the overlay (one call
    in the log), and the second call returns the same manager and the
    same world, log included. *)
Theorem showTransition_twice_shows_once (this : LoadingManager) (overlay : node) (w : World)
    (Hidle : isLoading this = false)
    (Hoverlay : pageTransition this = Some overlay) :
  ∃ this1 w1,
    showTransition this w = Normal (this1, w1) ∧
    isLoading this1 = true ∧
    has_class w1 overlay "active" = true ∧
    log w1 = ClassAdd overlay "active" :: log w ∧
    showTransition this1 w1 = Normal (this1, w1).
Proof.
  unfold showTransition at 1. rewrite Hidle, Hoverlay. js_unfold.
  eexists _, _. split_and!; [done|done| |done|].
  - apply has_class_spec. store_simpl. set_solver.
  - by apply showTransition_in_flight.
Qed.

(** C4 on a manager with an overlay, before any transition. *)
Lemma showTransition_twice_shows_once_witness :
  ∃ this1 w1,
    showTransition idle_manager fresh_world = Normal (this1, w1) ∧
    isLoading this1 = true ∧
    has_class w1 9 "active" = true ∧
    log w1 = ClassAdd 9 "active" :: log fresh_world ∧
    showTransition this1 w1 = Normal (this1, w1).
Proof.
  apply (showTransition_twice_shows_once idle_manager 9 fresh_world); reflexivity.
Defined.

(** ** Link interception *)

(** The listener of the second pass is registered on no anchor whose
    [href] property starts with [http]. *)
Lemma no_page_listener_over_http anchors link :
  String.prefix "http" (link_href link) = true →
  (link, PageLinkClick) ∉ initTransitions anchors.
Proof.
  intros Hhttp Hin. unfold initTransitions in Hin.
  apply elem_of_app in Hin as [Hin|Hin].
  - apply list_elem_of_fmap in Hin as (a & Heq & _). done.
  - apply list_elem_of_In, in_flat_map in Hin as (a & _ & Hin).
    destruct (negb (String.prefix "http" (link_href a))) eqn:Ha; simpl in Hin.
    + destruct (negb (includes "#" (link_href a))); simpl in Hin; [|done].
      destruct Hin as [Heq|[]]. injection Heq as ->.
      by rewrite Hhttp in Ha.
    + done.
Qed.

Lemma filter_none {A} (p : A → bool) (l : list A) :
  (∀ x, In x l → p x = false) → List.filter p l = [].
Proof.
  induction l as [|x l IH]; intros Hall; simpl; [done|].
  rewrite (Hall x) by (by left). apply IH. intros y Hy. apply Hall. by right.
Qed.

(** Every registration is on an anchor of the document; the first pass
    registers on the anchors its selector matches. *)
Lemma initTransitions_registered anchors link listener :
  In (link, listener) (initTransitions anchors) →
  In link anchors ∧
  match listener with
  | ExternalLinkClick => selects_external link = true
  | PageLinkClick => String.prefix "http" (link_href link) = false
  end.
Proof.
  unfold initTransitions. rewrite in_app_iff. intros [Hin|Hin].
  - apply in_map_iff in Hin as (a & Heq & Ha). injection Heq as -> <-.
    by apply List.filter_In in Ha.
  - apply in_flat_map in Hin as (a & Ha & Hin).
    apply List.filter_In in Ha as [Ha _].
    destruct (String.prefix "http" (link_href a)) eqn:Hp; simpl in Hin; [done|].
    destruct (negb (includes "#" (link_href a))); simpl in Hin; [|done].
    destruct Hin as [Heq|[]]. by injection Heq as <- <-.
Qed.

(** Over http(s) the [href] property of every link starts with [http]:
    a click on a link with a relative [href] attribute is never
    intercepted. *)
Lemma relative_link_never_intercepted_over_http this anchors link w :
  (∀ a, In a anchors → link_node a = link_node link → a = link) →
  selects_external link = false →
  String.prefix "http" (link_href link) = true →
  click this anchors link w = Normal (this, w).
Proof.
  intros Hnodes Hrel Hhttp. unfold click.
  rewrite filter_none; [done|].
  intros [a listener] Hin. simpl.
  apply initTransitions_registered in Hin as [Ha Hl].
  destruct (Nat.eqb_spec (link_node a) (link_node link)) as [Heq|]; [|done].
  rewrite (Hnodes a Ha Heq) in Hl. destruct listener; congruence.
Qed.

(** C7: the code at the failing input.  On the page served over https
    the relative link to [sonora/index.html] gets no listener, and a
    click on it is not intercepted: nothing is prevented, no overlay is
    shown and no navigation is scheduled. *)
Theorem relative_page_link_not_intercepted (this : LoadingManager) (w : World) :
  selects_html sonora_link = true ∧
  initTransitions [sonora_link] = [] ∧
  click this [sonora_link] sonora_link w = Normal (this, w).
Proof. by split_and!. Qed.

(** The second pass does what its comment says only when the [href]
    property does not start with [http], as on a page opened from the
    disk. *)
Lemma page_link_intercepted_from_disk w :
  click idle_manager [sonora_link_from_disk] sonora_link_from_disk w
  = Normal (set_isLoading true idle_manager,
      record (SetTimeout 600 (TaskNavigate "file:///site/sonora/index.html"))
        (record (ClassAdd 9 "active")
          (update_element 9 (λ e, set_classList (classList e ∪ {["active"]}) e)
            (record PreventDefault w)))).
Proof. done. Qed.

(** The excluded links are not intercepted. *)
Lemma excluded_links_not_intercepted this w :
  let anchors := [github_link; blank_link; mail_link; same_page_link] in
  click this anchors blank_link w = Normal (this, w) ∧
  click this anchors mail_link w = Normal (this, w) ∧
  click this anchors same_page_link w = Normal (this, w).
Proof. by split_and!. Qed.

(** An absolute link is intercepted by the first pass. *)
Lemma external_link_intercepted w :
  click idle_manager [github_link] github_link w
  = Normal (set_isLoading true idle_manager,
      record (SetTimeout 600 (TaskNavigate "https://github.com/samuelkahessay"))
        (record (ClassAdd 9 "active")
          (update_element 9 (λ e, set_classList (classList e ∪ {["active"]}) e)
            (record PreventDefault w)))).
Proof. done. Qed.

End transition.

(* ===================================================================== *)
(** * ThemeManager: toggling                                              *)
(* ===================================================================== *)

Section theme.

(** [setTheme(theme)] writes the theme to the attribute, to the storage
    and to the event. *)
Lemma setTheme_spec this name w :
  ∃ w', setTheme this name w = Normal (tt, w') ∧
    data_theme this w' = Some name ∧
    localStorage w' !! "theme" = Some name ∧
    last_themechange w' = Some name.
Proof.
  unfold setTheme, updateThemeIcon, data_theme, last_themechange.
  destruct (themeIcon this) as [icon|]; js_unfold; simpl.
  - eexists. split_and!; [done| |apply lookup_insert_eq|done].
    destruct (decide (icon = html this)) as [->|]; store_simpl;
      apply lookup_insert_eq.
  - eexists. split_and!; [done| |apply lookup_insert_eq|done].
    store_simpl. apply lookup_insert_eq.
Qed.

Lemma toggleTheme_spec this t w :
  data_theme this w = Some t →
  ∃ w', toggleTheme this w = Normal (tt, w') ∧
    data_theme this w' = Some (other_theme t) ∧
    localStorage w' !! "theme" = Some (other_theme t) ∧
    last_themechange w' = Some (other_theme t).
Proof.
  intros Hcur. unfold toggleTheme, getAttribute, gets, mbind, Js_bind.
  unfold data_theme in Hcur. rewrite Hcur.
  assert ((if bool_decide (Some t = Some "dark") then "light" else "dark") = other_theme t) as ->.
  { unfold other_theme. repeat case_bool_decide; congruence. }
  apply setTheme_spec.
Qed.

(** C9.  From the theme [light] or [dark], one [toggleTheme()] writes the
    other theme to the [data-theme] attribute, to the storage key [theme]
    and to the payload of the [themechange] event, and a second
    [toggleTheme()] writes the original theme back to all three. *)
Theorem toggleTheme_twice_restores (this : ThemeManager) (t : string) (w : World)
    (Ht : t = "light" ∨ t = "dark")
    (Hcur : data_theme this w = Some t) :
  ∃ w1 w2,
    toggleTheme this w = Normal (tt, w1) ∧
    data_theme this w1 = Some (other_theme t) ∧
    localStorage w1 !! "theme" = Some (other_theme t) ∧
    last_themechange w1 = Some (other_theme t) ∧
    other_theme t ≠ t ∧
    toggleTheme this w1 = Normal (tt, w2) ∧
    data_theme this w2 = Some t ∧
    localStorage w2 !! "theme" = Some t ∧
    last_themechange w2 = Some t.
Proof.
  destruct (toggleTheme_spec this t w Hcur) as (w1 & Hrun1 & Hattr1 & Hst1 & Hev1).
  destruct (toggleTheme_spec this _ w1 Hattr1) as (w2 & Hrun2 & Hattr2 & Hst2 & Hev2).
  assert (other_theme (other_theme t) = t) as Hinv by (by destruct Ht as [->| ->]).
  rewrite Hinv in *.
  exists w1, w2. split_and!; try done.
  by destruct Ht as [->| ->].
Qed.

(** C9 on a page in the light theme. *)
Lemma toggleTheme_twice_restores_witness :
  ∃ w1 w2,
    toggleTheme themed_manager light_page = Normal (tt, w1) ∧
    data_theme themed_manager w1 = Some (other_theme "light") ∧
    localStorage w1 !! "theme" = Some (other_theme "light") ∧
    last_themechange w1 = Some (other_theme "light") ∧
    other_theme "light" ≠ "light" ∧
    toggleTheme themed_manager w1 = Normal (tt, w2) ∧
    data_theme themed_manager w2 = Some "light" ∧
    localStorage w2 !! "theme" = Some "light" ∧
    last_themechange w2 = Some "light".
Proof.
  apply (toggleTheme_twice_restores themed_manager "light" light_page).
  - by left.
  - by vm_compute.
Defined.

End theme.

(* ===================================================================== *)
(** * Missing DOM hooks                                                   *)
(* ===================================================================== *)

Section hooks.

(** C8, as the claim states it, fails: the click listener of
    [initSmoothScrolling()] suppresses the default action before it looks
    for its target, so with the target absent the operation still has an
    effect. *)
Lemma smooth_scroll_prevents_default_without_target :
  ¬ (∀ op page w, target_absent op page = true → perform op page w = Normal (page, w)).
Proof.
  intros Hskip.
  specialize (Hskip (SmoothScroll (λ _, 0%Z) (λ _, 0%Z) None) bare_page fresh_world eq_refl).
  vm_compute in Hskip. discriminate Hskip.
Qed.

(** [toggleMobileMenu()] has no existence check either: without the
    toggle it throws. *)
Lemma toggleMobileMenu_throws_without_toggle this w :
  mobileMenuToggle this = None →
  ∃ e, toggleMobileMenu this w = Throw e.
Proof. intros Hnone. unfold toggleMobileMenu. rewrite Hnone. by eexists. Qed.

(** The click listener of the document reads [this.header.contains]
    without a check: with the toggle present and the header absent it
    throws. *)
Lemma outside_click_throws_without_header this inside w :
  is_Some (mobileMenuToggle this) → header this = None →
  ∃ e, dispatchDocument this (Click inside) w = Throw e.
Proof.
  intros [toggle Ht] Hh. unfold dispatchDocument, initMobileMenu. rewrite Ht. simpl.
  unfold onDocumentClick. rewrite Hh. by eexists.
Qed.

(** C8, amended.  Every operation that starts with an existence check of
    its target ([hideLoader], [showTransition], [hideTransition],
    [updateThemeIcon], [initTheme], the scroll-progress listener,
    [openMobileMenu], [closeMobileMenu]) is skipped entirely when its
    target is absent: it completes without throwing and leaves the
    managers and the world, log included, as they were. *)
Theorem absent_target_skips (op : Operation) (page : Page) (w : World)
    (Hchecked : checks_target_first op = true)
    (Habsent : target_absent op page = true) :
  perform op page w = Normal (page, w).
Proof.
  destruct page as [l n t]. destruct op; simpl in *; try discriminate Hchecked.
  - unfold hideLoader. by destruct (pageLoader l).
  - unfold mbind, Js_bind.
    rewrite showTransition_no_overlay; [by destruct l|by destruct (pageTransition l)].
  - unfold hideTransition. by destruct (pageTransition l).
  - unfold updateThemeIcon. by destruct (themeIcon t).
  - unfold initTheme. by destruct (themeToggle t), (themeIcon t).
  - unfold dispatchScroll, initScrollProgress. by destruct (scrollProgress n).
  - unfold openMobileMenu. by destruct (mobileMenuToggle n), (mobileNav n).
  - unfold closeMobileMenu. by destruct (mobileMenuToggle n), (mobileNav n).
Qed.

(** The amended C8 for [hideLoader()] on a page without loader. *)
Lemma absent_target_skips_witness :
  perform HideLoader bare_page fresh_world = Normal (bare_page, fresh_world).
Proof. apply (absent_target_skips HideLoader bare_page fresh_world); reflexivity. Defined.

End hooks.

(* ===================================================================== *)
(** * NavigationManager: scrolling                                        *)
(* ===================================================================== *)

Section scrolling.

(** One scroll event: the listener completes, assigns
    [publishedProgress] to the width of the progress bar, which takes it
    if it parses, and sets the header state from the current [scrollTop]
    alone. *)
Lemma onScroll_spec this progress h vp w :
  header this = Some h →
  ∃ w', onScroll this progress vp w = Normal (tt, w') ∧
    progress_width w' progress
    = (if parses "width" (CssPercent (publishedProgress vp))
       then Some (CssPercent (publishedProgress vp))
       else progress_width w progress) ∧
    has_class w' h "scrolled" = (50 <? scrollTop_of vp)%float.
Proof.
  intros Hh. unfold onScroll, progress_width. rewrite Hh. js_unfold.
  destruct (parses "width" (CssPercent (publishedProgress vp)));
    destruct (50 <? scrollTop_of vp)%float eqn:Hcmp.
  - eexists. split_and!; [done| |].
    + destruct (decide (h = progress)) as [->|]; store_simpl; apply lookup_insert_eq.
    + apply has_class_spec. store_simpl. set_solver.
  - eexists. split_and!; [done| |].
    + destruct (decide (h = progress)) as [->|]; store_simpl; apply lookup_insert_eq.
    + apply bool_decide_eq_false. store_simpl. set_solver.
  - eexists. split_and!; [done| |].
    + destruct (decide (h = progress)) as [->|]; by store_simpl.
    + apply has_class_spec. store_simpl. set_solver.
  - eexists. split_and!; [done| |].
    + destruct (decide (h = progress)) as [->|]; by store_simpl.
    + apply bool_decide_eq_false. store_simpl. set_solver.
Qed.

Lemma dispatchScroll_spec this progress h vp w :
  scrollProgress this = Some progress →
  header this = Some h →
  ∃ w', exec (dispatchScroll this vp) w = Some w' ∧
    has_class w' h "scrolled" = (50 <? scrollTop_of vp)%float.
Proof.
  intros Hp Hh. unfold dispatchScroll, initScrollProgress, exec. rewrite Hp. simpl.
  destruct (onScroll_spec this progress h vp w Hh) as (w' & Hrun & _ & Hs).
  exists w'. unfold mbind, Js_bind. rewrite Hrun. simpl. done.
Qed.

(** C6, as the claim states it, fails: at [scrollTop = 40] the header is
    not in the scrolled state.  The listener of the single-file script,
    whose threshold is 100, does not produce the claimed sequence
    either. *)
Lemma header_not_scrolled_at_40 :
  scrolledAfterEach scrolling_manager 11 (viewport_at <$> [0; 60; 40; 120]%float) fresh_world
  ≠ [false; true; true; true] ∧
  legacyScrolledAfterEach (Legacy.mkHeaderEffects (Some 11) 0) 11 [0; 60; 40; 120]%float
    fresh_world
  = [false; false; false; true].
Proof. split; by vm_compute. Qed.

(** C6, amended.  On a page with a header and the progress element,
    for the scrollTop sequence [0, 60, 40, 120] the header state after
    each sample is [false, true, false, true]: it is [scrollTop > 50] of
    the current sample, whatever the state before.  On a page with a
    header and no progress element [initScrollProgress()] registers no
    scroll listener, and the header keeps the state it has. *)
Theorem header_scrolled_sequence (this : NavigationManager) (h : node) (w : World)
    (Hheader : header this = Some h) :
  scrolledAfterEach this h (viewport_at <$> [0; 60; 40; 120]%float) w
  = match scrollProgress this with
    | Some _ => [false; true; false; true]
    | None => replicate 4 (has_class w h "scrolled")
    end ∧
  ∀ vp u, ∃ u', exec (dispatchScroll this vp) u = Some u' ∧
    has_class u' h "scrolled"
    = match scrollProgress this with
      | Some _ => (50 <? scrollTop_of vp)%float
      | None => has_class u h "scrolled"
      end.
Proof.
  destruct (scrollProgress this) as [progress|] eqn:Hprogress.
  - split.
    + simpl.
      repeat match goal with
      | |- context [exec (dispatchScroll this ?vp) ?u] =>
          let u' := fresh "u" in
          destruct (dispatchScroll_spec this progress h vp u Hprogress Hheader)
            as (u' & -> & ->)
      end.
      by vm_compute.
    + intros vp u.
      destruct (dispatchScroll_spec this progress h vp u Hprogress Hheader) as (u' & ? & ?).
      by exists u'.
  - assert (∀ vp u, exec (dispatchScroll this vp) u = Some u) as Hidle.
    { intros vp u. unfold dispatchScroll, initScrollProgress. by rewrite Hprogress. }
    split.
    + simpl. by rewrite !Hidle.
    + intros vp u. exists u. by rewrite Hidle.
Qed.

(** The amended C6 on a page with a progress bar and a header. *)
Lemma header_scrolled_sequence_witness :
  scrolledAfterEach scrolling_manager 11 (viewport_at <$> [0; 60; 40; 120]%float) fresh_world
  = [false; true; false; true] ∧
  ∀ vp u, ∃ u', exec (dispatchScroll scrolling_manager vp) u = Some u' ∧
    has_class u' 11 "scrolled" = (50 <? scrollTop_of vp)%float.
Proof.
  apply (header_scrolled_sequence scrolling_manager 11 fresh_world); reflexivity.
Defined.

End scrolling.

(* ===================================================================== *)
(** * binary64 arithmetic of the scroll percentage                        *)
(* ===================================================================== *)

Section binary64.
Local Open Scope Z_scope.

Lemma sf_signed_nonneg f : sf_signed false f → sf_nonneg f.
Proof. destruct f as [s|s| |s m e]; simpl; try done; by intros ->. Qed.

Lemma shr_1_nonneg mrs : 0 ≤ shr_m mrs → 0 ≤ shr_m (shr_1 mrs).
Proof. destruct mrs as [[|[p|p|]|[p|p|]] r s]; simpl; lia. Qed.

Lemma iter_shr_1_nonneg p mrs : 0 ≤ shr_m mrs → 0 ≤ shr_m (SpecFloat.iter_pos shr_1 p mrs).
Proof.
  revert mrs. induction p as [p IH|p IH|]; intros mrs Hm; simpl.
  - apply IH, IH. by apply shr_1_nonneg.
  - by apply IH, IH.
  - by apply shr_1_nonneg.
Qed.

Lemma shr_fexp_nonneg m e l :
  0 ≤ m → 0 ≤ shr_m (fst (shr_fexp prec emax m e l)).
Proof.
  intros Hm. unfold shr_fexp, shr.
  assert (0 ≤ shr_m (shr_record_of_loc m l)) as H0 by (by destruct l as [|[]]).
  destruct (fexp prec emax (Zdigits2 m + e) - e); simpl; [done| |done].
  by apply iter_shr_1_nonneg.
Qed.

Lemma round_nearest_even_nonneg m l : 0 ≤ m → 0 ≤ round_nearest_even m l.
Proof. intros Hm. destruct l as [|[]]; simpl; [done| |done|lia]. destruct (Z.even m); lia. Qed.

(** Rounding a non-negative mantissa never produces [NaN] and keeps the
    sign. *)
Lemma binary_round_aux_signed s m e l :
  0 ≤ m → sf_signed s (binary_round_aux prec emax s m e l).
Proof.
  intros Hm. unfold binary_round_aux.
  pose proof (shr_fexp_nonneg m e l Hm) as H1.
  destruct (shr_fexp prec emax m e l) as [mrs' e']. simpl in H1.
  pose proof (shr_fexp_nonneg (round_nearest_even (shr_m mrs') (loc_of_shr_record mrs')) e'
    loc_Exact (round_nearest_even_nonneg _ _ H1)) as H2.
  destruct (shr_fexp prec emax _ e' loc_Exact) as [mrs'' e'']. simpl in H2.
  destruct (shr_m mrs'') as [|p|p]; simpl; [done| |lia].
  by destruct (e'' <=? emax - prec).
Qed.

Lemma SFdiv_core_binary_nonneg mx ex my ey :
  0 ≤ (SFdiv_core_binary prec emax (Zpos mx) ex (Zpos my) ey).1.1.
Proof.
  unfold SFdiv_core_binary.
  set (s := _ - _ - Z.min _ _).
  set (m' := match s with Zpos _ => Z.shiftl (Zpos mx) s | Z0 => Zpos mx | Zneg _ => 0 end).
  assert (0 ≤ m') as Hm'.
  { subst m'. destruct s; [lia| |lia]. apply Z.shiftl_nonneg. lia. }
  pose proof (Z_div_mod m' (Zpos my) ltac:(lia)) as Hdiv.
  destruct (Z.div_eucl m' (Zpos my)) as [q r]. simpl. nia.
Qed.

(** Dividing a non-negative value other than [+Infinity] by a positive
    value gives a non-negative value. *)
Lemma SF64div_nonneg x y :
  sf_nonneg x → x ≠ S754_infinity false → sf_pos y → sf_nonneg (SF64div x y).
Proof.
  destruct x as [sx|[|]| |[|] mx ex], y as [sy|[|]| |[|] my ey]; simpl; try done.
  intros _ _ _. apply sf_signed_nonneg.
  pose proof (SFdiv_core_binary_nonneg mx ex my ey) as Hq.
  unfold SF64div, SFdiv.
  destruct (SFdiv_core_binary prec emax (Zpos mx) ex (Zpos my) ey) as [[mz ez] lz].
  by apply binary_round_aux_signed.
Qed.

(** Multiplying a non-negative value by a positive finite value gives a
    non-negative value. *)
Lemma SF64mul_nonneg x m e :
  sf_nonneg x → sf_nonneg (SF64mul x (S754_finite false m e)).
Proof.
  destruct x as [sx|[|]| |[|] mx ex]; simpl; try done.
  intros _. apply sf_signed_nonneg. by apply binary_round_aux_signed.
Qed.

Local Close Scope Z_scope.
Local Open Scope float_scope.

Lemma leb_zero_nonneg x : (0 <=? x) = true → sf_nonneg (Prim2SF x).
Proof.
  rewrite leb_spec. change (Prim2SF 0) with (S754_zero false).
  by destruct (Prim2SF x) as [s|[|]| |[|] m e].
Qed.

Lemma ltb_zero_pos y : (0 <? y) = true → sf_pos (Prim2SF y).
Proof.
  rewrite ltb_spec. change (Prim2SF 0) with (S754_zero false).
  by destruct (Prim2SF y) as [s|[|]| |[|] m e].
Qed.

Lemma ltb_infinity_finite x : (x <? infinity) = true → Prim2SF x ≠ S754_infinity false.
Proof.
  rewrite ltb_spec. change (Prim2SF infinity) with (S754_infinity false).
  intros Hlt Heq. by rewrite Heq in Hlt.
Qed.

Lemma SFcompare_refl f : f ≠ S754_nan → SFcompare f f = Some Eq.
Proof.
  destruct f as [s|[|]| |[|] m e]; simpl; try done; intros _.
  - by rewrite Z.compare_refl, Pcompare_refl.
  - by rewrite Z.compare_refl, Pcompare_refl.
Qed.

Lemma nonneg_leb_zero p :
  sf_nonneg (Prim2SF p) → (0 <=? p) = true ∧ PrimFloat.is_nan p = false.
Proof.
  intros Hp. split.
  - rewrite leb_spec. change (Prim2SF 0) with (S754_zero false).
    by destruct (Prim2SF p) as [s|[|]| |[|] m e].
  - unfold PrimFloat.is_nan. rewrite eqb_spec. unfold SFeqb.
    rewrite SFcompare_refl; [done|]. by destruct (Prim2SF p).
Qed.

Lemma ltb_leb x y : (x <? y) = true → (x <=? y) = true.
Proof.
  rewrite ltb_spec, leb_spec. unfold SFltb, SFleb.
  by destruct (SFcompare (Prim2SF x) (Prim2SF y)) as [[| |]|].
Qed.

(** [Math.min(p, 100)] for a non-negative [p]: it is [p] when
    [p < 100], and [100] otherwise. *)
Lemma Math_min_100 p :
  sf_nonneg (Prim2SF p) →
  (JsNum.Math_min p 100 = p ∧ (p <? 100) = true) ∨ JsNum.Math_min p 100 = 100.
Proof.
  intros Hp. unfold JsNum.Math_min.
  destruct (nonneg_leb_zero p Hp) as [_ ->].
  change (PrimFloat.is_nan 100) with false. simpl.
  destruct (p <? 100) eqn:Hlt; [by left|]. right.
  destruct (100 <? p); [done|].
  assert (PrimFloat.get_sign p = false) as ->; [|done].
  unfold PrimFloat.get_sign, PrimFloat.is_zero.
  rewrite ltb_spec in Hlt. rewrite eqb_spec.
  change (Prim2SF 100) with (S754_finite false 7036874417766400 (-46)) in Hlt.
  change (Prim2SF PrimFloat.zero) with (S754_zero false).
  destruct (Prim2SF p) as [s|[|]| |[|] m e] eqn:Hsf; try done; simpl.
  - rewrite ltb_spec, Hsf. by change (Prim2SF PrimFloat.zero) with (S754_zero false).
  - rewrite ltb_spec, Hsf. by change (Prim2SF PrimFloat.zero) with (S754_zero false).
Qed.

(** The percentage is non-negative for a finite non-negative [scrollTop]
    and a positive scrollable height. *)
Lemma percentage_nonneg top height :
  (0 <=? top) = true → (top <? infinity) = true → (0 <? height) = true →
  sf_nonneg (Prim2SF (top / height * 100)).
Proof.
  intros Htop Hfin Hheight.
  rewrite mul_spec, div_spec.
  change (Prim2SF 100) with (S754_finite false 7036874417766400 (-46)).
  apply SF64mul_nonneg, SF64div_nonneg.
  - by apply leb_zero_nonneg.
  - by apply ltb_infinity_finite.
  - by apply ltb_zero_pos.
Qed.

(** At a scrollable height of zero a positive [scrollTop] gives
    [+Infinity]. *)
Lemma percentage_at_zero_height top :
  (0 <? top) = true → (top <? infinity) = true →
  Prim2SF (top / 0 * 100) = S754_infinity false.
Proof.
  intros Hpos Hfin. apply ltb_zero_pos in Hpos. apply ltb_infinity_finite in Hfin.
  rewrite mul_spec, div_spec.
  change (Prim2SF 0) with (S754_zero false).
  change (Prim2SF 100) with (S754_finite false 7036874417766400 (-46)).
  by destruct (Prim2SF top) as [s|[|]| |[|] m e].
Qed.

(** A non-negative number below 100 is finite, so the style setter takes
    its percentage as a width. *)
Lemma below_100_parses p :
  sf_nonneg (Prim2SF p) → (p <? 100) = true → parses "width" (CssPercent p) = true.
Proof.
  intros Hp Hlt. unfold parses, PrimFloat.is_finite, PrimFloat.is_infinity.
  destruct (nonneg_leb_zero p Hp) as [_ ->].
  rewrite eqb_spec, abs_spec, ltb_spec. rewrite ltb_spec in Hlt.
  change (Prim2SF infinity) with (S754_infinity false).
  change (Prim2SF 0) with (S754_zero false).
  change (Prim2SF 100) with (S754_finite false 7036874417766400 (-46)) in Hlt.
  by destruct (Prim2SF p) as [s|[|]| |[|] m e].
Qed.

End binary64.

(* ===================================================================== *)
(** * NavigationManager: the published scroll progress                    *)
(* ===================================================================== *)

Section progress.
Local Open Scope float_scope.

(** A scroll event assigns [publishedProgress] to the width of the
    progress bar, header or not; the bar takes the value if it parses and
    keeps its width if not. *)
Lemma dispatchScroll_publishes this progress vp w :
  scrollProgress this = Some progress →
  ∃ w', exec (dispatchScroll this vp) w = Some w' ∧
    SetStyle progress "width" (CssPercent (publishedProgress vp)) ∈ log w' ∧
    progress_width w' progress
    = if parses "width" (CssPercent (publishedProgress vp))
      then Some (CssPercent (publishedProgress vp))
      else progress_width w progress.
Proof.
  intros Hp. unfold dispatchScroll, initScrollProgress, exec. rewrite Hp. cbn [forEach].
  unfold onScroll, progress_width. js_unfold.
  destruct (parses "width" (CssPercent (publishedProgress vp)));
    (destruct (header this) as [h|]; [destruct (50 <? scrollTop_of vp)|]).
  all: eexists; split; [done|]; split; [simpl; set_solver|].
  all: try (destruct (decide (h = progress)) as [->|]); store_simpl;
    first [apply lookup_insert_eq|done].
Qed.

(** The percentage is non-negative for a finite non-negative [scrollTop]
    and a scrollable height that is positive, or zero when [scrollTop] is
    positive. *)
Lemma percentage_in_domain top height :
  (0 <=? top) = true → (top <? infinity) = true →
  (0 <? height) = true ∨ (height = 0 ∧ (0 <? top) = true) →
  sf_nonneg (Prim2SF (top / height * 100)).
Proof.
  intros Htop Hfin [Hheight|[-> Hpos]].
  - by apply percentage_nonneg.
  - by rewrite percentage_at_zero_height.
Qed.

(** C1, as the claim states it, fails: when the scrollable height is
    zero and the page is at its top, the listener divides zero by zero
    and the value it assigns to the width is [NaN]; and nothing clamps
    from below, so a negative [scrollTop] publishes a negative value. *)
Lemma progress_is_nan_on_unscrollable_page :
  scrollHeight_of unscrollable = 0 ∧
  PrimFloat.is_nan (publishedProgress unscrollable) = true ∧
  log <$> exec (dispatchScroll scrolling_manager unscrollable) fresh_world
    = Some [ClassRemove 11 "scrolled"; SetStyle 10 "width" (CssPercent nan)] ∧
  (publishedProgress overscrolled <? 0) = true.
Proof. split_and!; by vm_compute. Qed.

(** What the progress bar shows is another matter: the style setter
    drops an assignment that does not parse, so after a scroll event at
    a quarter of the page and one on the unscrollable page the bar still
    has the width of the first. *)
Lemma unparsed_progress_is_dropped :
  (λ w', progress_width w' 10)
    <$> exec (dispatchScroll scrolling_manager (viewport_at 550) ;;
              dispatchScroll scrolling_manager unscrollable) fresh_world
  = Some (Some (CssPercent 25)).
Proof. by vm_compute. Qed.

(** At a scrollable height of zero below the top of the page the value
    published is 100. *)
Lemma progress_is_100_at_zero_height :
  scrollHeight_of (mkViewport 10 10 800 800) = 0 ∧
  publishedProgress (mkViewport 10 10 800 800) = 100.
Proof. split; by vm_compute. Qed.

(** C1, amended.  On a page with the progress element, for every scroll
    event whose [scrollTop] is finite and not negative and whose
    scrollable height is positive, or zero with a positive [scrollTop],
    the value published as the width of the progress bar lies in
    [0, 100] and is not [NaN]; at the height zero it is 100. *)
Theorem published_progress_in_range (this : NavigationManager) (progress : node)
    (vp : Viewport) (w : World)
    (Hprogress : scrollProgress this = Some progress)
    (Hnonneg : (0 <=? scrollTop_of vp) = true)
    (Hfinite : (scrollTop_of vp <? infinity) = true)
    (Hheight : (0 <? scrollHeight_of vp) = true ∨
               (scrollHeight_of vp = 0 ∧ (0 <? scrollTop_of vp) = true)) :
  ∃ w' v,
    exec (dispatchScroll this vp) w = Some w' ∧
    progress_width w' progress = Some (CssPercent v) ∧
    v = JsNum.Math_min (scrollTop_of vp / scrollHeight_of vp * 100) 100 ∧
    (0 <=? v) = true ∧ (v <=? 100) = true ∧ PrimFloat.is_nan v = false ∧
    (scrollHeight_of vp = 0 → v = 100).
Proof.
  destruct (dispatchScroll_publishes this progress vp w Hprogress) as (w' & Hrun & _ & Hwidth).
  pose proof (percentage_in_domain _ _ Hnonneg Hfinite Hheight) as Hp.
  exists w', (publishedProgress vp).
  unfold publishedProgress, scrollPercentage in *.
  destruct (Math_min_100 _ Hp) as [[Hmin Hlt]|Hmin]; rewrite Hmin in *.
  - rewrite below_100_parses in Hwidth by done.
    split_and!; [done|done|done|by apply nonneg_leb_zero|by apply ltb_leb
                |by apply nonneg_leb_zero|].
    intros Hzero. destruct Hheight as [Hheight|[_ Hpos]].
    + rewrite Hzero in Hheight. by vm_compute in Hheight.
    + rewrite Hzero in Hlt. rewrite ltb_spec, percentage_at_zero_height in Hlt by done.
      by vm_compute in Hlt.
  - by split_and!.
Qed.

(** The amended C1 at [scrollTop = 550] of a page with 2200 pixels to
    scroll. *)
Lemma published_progress_in_range_witness :
  ∃ w' v,
    exec (dispatchScroll scrolling_manager (viewport_at 550)) fresh_world = Some w' ∧
    progress_width w' 10 = Some (CssPercent v) ∧
    v = JsNum.Math_min
          (scrollTop_of (viewport_at 550) / scrollHeight_of (viewport_at 550) * 100) 100 ∧
    (0 <=? v) = true ∧ (v <=? 100) = true ∧ PrimFloat.is_nan v = false ∧
    (scrollHeight_of (viewport_at 550) = 0 → v = 100).
Proof.
  apply (published_progress_in_range scrolling_manager 10 (viewport_at 550) fresh_world).
  - reflexivity.
  - reflexivity.
  - reflexivity.
  - left. reflexivity.
Defined.

End progress.

(* ===================================================================== *)
(** * debounce and throttle                                               *)
(* ===================================================================== *)

Section closures.
Import Performance.
Context {Args : Type}.

Lemma runEvents_app {S} (step : S → Event Args → S * list Args) (s : S) (xs ys : list (Event Args)) :
  runEvents step s (xs ++ ys)
  = let '(s1, calls1) := runEvents step s xs in
    let '(s2, calls2) := runEvents step s1 ys in
    (s2, calls1 ++ calls2).
Proof.
  revert s. induction xs as [|x xs IH]; intros s; simpl.
  - by destruct (runEvents step s ys).
  - destruct (step s x) as [s1 c1]. rewrite IH.
    destruct (runEvents step s1 xs) as [s2 c2].
    destruct (runEvents step s2 ys) as [s3 c3]. by rewrite app_assoc.
Qed.

Lemma last_cons_default {A} (l : list A) (x d : A) :
  List.last l x = List.last (x :: l) d.
Proof.
  revert x d. induction l as [|y l IH]; intros x d; [done|].
  transitivity (List.last l y); [symmetry; apply IH|].
  change (List.last (x :: y :: l) d) with (List.last (y :: l) d). apply IH.
Qed.

(** Calls alone: the timer pending is the one of the last call, and
    [func] is called only by the first call of an immediate debounce with
    no timer pending. *)
Lemma debounce_calls (d : @Debounced Args) (first : Args) (rest : list Args) :
  runEvents debounceStep d (Call <$> first :: rest)
  = (mkDebounced (immediate d) (Some (List.last rest first)),
     if immediate d && negb (bool_decide (is_Some (timeout d))) then [first] else []).
Proof.
  revert d first. induction rest as [|a rest IH]; intros d first.
  - simpl. by rewrite app_nil_r.
  - change (Call <$> first :: a :: rest) with (Call first :: (Call <$> a :: rest)).
    cbn [runEvents debounceStep executedFunction].
    rewrite IH. cbn [immediate timeout].
    rewrite (bool_decide_eq_true_2 (is_Some (Some first))) by eauto.
    rewrite andb_false_r, app_nil_r.
    by rewrite (last_cons_default rest a first).
Qed.

(** Once the timer has fired, further firings do nothing. *)
Lemma debounce_idle (immediate : bool) (n : nat) :
  runEvents debounceStep (mkDebounced immediate (@None Args)) (replicate n TimerFires)
  = (mkDebounced immediate None, []).
Proof. induction n as [|n IH]; simpl; [done|]. by rewrite IH. Qed.

(** X1.  A burst of calls with no timer pending, then the timer: [func] is
    called exactly once, with the arguments of the last call of the
    burst, or with those of the first call when the debounce is
    immediate. *)
Theorem debounce_burst (immediate : bool) (first : Args) (rest : list Args) (n : nat) :
  runEvents debounceStep (mkDebounced immediate None)
    ((Call <$> first :: rest) ++ replicate (S n) TimerFires)
  = (mkDebounced immediate None, [if immediate then first else List.last rest first]).
Proof.
  rewrite runEvents_app, debounce_calls. cbn [Performance.immediate timeout].
  cbn [replicate runEvents debounceStep later timeout Performance.immediate].
  rewrite debounce_idle.
  by destruct immediate.
Qed.

Lemma firings_fire (evs : list (Event Args)) : firings (TimerFires :: evs) = S (firings evs).
Proof. done. Qed.

Lemma firings_call (a : Args) (evs : list (Event Args)) : firings (Call a :: evs) = firings evs.
Proof. done. Qed.

(** The calls a debounced function makes are calls it received, in
    order; when it is not immediate it makes them only as timers fire. *)
Lemma debounce_sublist (d : @Debounced Args) (evs : list (Event Args)) :
  (runEvents debounceStep d evs).2
    `sublist_of` (if immediate d then [] else option_list (timeout d)) ++ callArgs evs ∧
  (immediate d = false → length (runEvents debounceStep d evs).2 ≤ firings evs).
Proof.
  revert d. induction evs as [|ev evs IH]; intros d.
  - simpl. split; [apply sublist_nil_l|lia].
  - simpl. destruct ev as [a|]; simpl.
    + destruct (IH (mkDebounced (immediate d) (Some a))) as [Hsub Hlen]. simpl in *.
      destruct (runEvents debounceStep _ evs) as [s2 c2]. simpl in *.
      destruct (immediate d) eqn:Himm; simpl in *.
      * split; [|done].
        destruct (bool_decide (is_Some (timeout d))); simpl.
        -- by apply sublist_cons.
        -- by apply sublist_skip.
      * split; [by apply sublist_inserts_l|]. intros _. rewrite firings_call. by apply Hlen.
    + unfold later. destruct (timeout d) as [x|] eqn:Ht.
      * destruct (IH (mkDebounced (immediate d) None)) as [Hsub Hlen]. simpl in *.
        destruct (runEvents debounceStep _ evs) as [s2 c2]. simpl in *.
        destruct (immediate d) eqn:Himm; simpl in *; [done|].
        split; [by apply sublist_skip|]. intros _. specialize (Hlen eq_refl). (rewrite ?firings_fire, ?firings_call; lia).
      * destruct (IH d) as [Hsub Hlen].
        destruct (runEvents debounceStep d evs) as [s2 c2]. simpl in *.
        rewrite Ht in Hsub. split; [done|]. intros Himm. specialize (Hlen Himm). (rewrite ?firings_fire, ?firings_call; lia).
Qed.

(** X2.  From its creation on, a debounced function calls [func] only with
    arguments it received, in the order it received them; and when it is
    not immediate, at most once for each timer that fires. *)
Theorem debounce_calls_are_received (immediate : bool) (evs : list (Event Args)) :
  (runEvents debounceStep (mkDebounced immediate None) evs).2 `sublist_of` callArgs evs ∧
  (immediate = false →
     length (runEvents debounceStep (mkDebounced immediate None) evs).2 ≤ firings evs).
Proof.
  destruct (debounce_sublist (mkDebounced immediate None) evs) as [Hsub Hlen].
  split; [|done]. simpl in Hsub. by destruct immediate.
Qed.

Lemma throttle_run (t : Throttled) (evs : list (Event Args)) :
  throttle_consistent t →
  throttle_consistent (runEvents throttleStep t evs).1 ∧
  (runEvents throttleStep t evs).2 `sublist_of` callArgs evs ∧
  length (runEvents throttleStep t evs).2 ≤ (if inThrottle t then 0 else 1) + firings evs.
Proof.
  revert t. induction evs as [|ev evs IH]; intros t Ht.
  - simpl. split_and!; [done|done|rewrite ?firings_fire, ?firings_call; lia].
  - simpl. destruct ev as [a|]; simpl.
    + unfold throttledFunction. destruct (inThrottle t) eqn:Hin.
      * destruct (IH t Ht) as (Hc & Hsub & Hlen). rewrite Hin in Hlen.
        destruct (runEvents throttleStep t evs) as [s2 c2]. simpl in *.
        split_and!; [done|by apply sublist_cons|rewrite ?firings_fire, ?firings_call; lia].
      * assert (throttle_consistent (mkThrottled true (timers t + 1))) as Ht'.
        { unfold throttle_consistent in *. rewrite Hin in Ht. simpl. (rewrite ?firings_fire, ?firings_call; lia). }
        destruct (IH _ Ht') as (Hc & Hsub & Hlen). simpl in Hlen.
        destruct (runEvents throttleStep _ evs) as [s2 c2]. simpl in *.
        split_and!; [done|by apply sublist_skip|rewrite ?firings_fire, ?firings_call; lia].
    + unfold throttleTimer. unfold throttle_consistent in Ht.
      destruct (timers t) as [|n] eqn:Hn.
      * destruct (IH t) as (Hc & Hsub & Hlen); [unfold throttle_consistent; by rewrite Hn|].
        destruct (runEvents throttleStep t evs) as [s2 c2]. simpl in *.
        split_and!; [done|done|rewrite ?firings_fire, ?firings_call; lia].
      * destruct (inThrottle t) eqn:Hin; [|done]. injection Ht as ->.
        destruct (IH (mkThrottled false 0)) as (Hc & Hsub & Hlen); [done|].
        destruct (runEvents throttleStep _ evs) as [s2 c2]. simpl in *.
        split_and!; [done|done|rewrite ?firings_fire, ?firings_call; lia].
Qed.

(** X4.  From its creation on, a throttled function has at most one timer
    pending, exactly while [inThrottle] is set; it calls [func] only with
    arguments it received, in order, and at most once more than timers
    have fired. *)
Theorem throttle_one_call_per_timer (evs : list (Event Args)) :
  let '(t, calls) := runEvents throttleStep (mkThrottled false 0) evs in
  timers t = (if inThrottle t then 1 else 0) ∧
  calls `sublist_of` callArgs evs ∧
  length calls ≤ 1 + firings evs.
Proof.
  destruct (throttle_run (mkThrottled false 0) evs) as (Hc & Hsub & Hlen); [done|].
  by destruct (runEvents throttleStep _ evs).
Qed.

Lemma throttle_in_flight (n : nat) (rest : list Args) :
  runEvents throttleStep (mkThrottled true n) (Call <$> rest) = (mkThrottled true n, []).
Proof.
  induction rest as [|a rest IH]; [done|].
  rewrite fmap_cons. cbn [runEvents throttleStep throttledFunction inThrottle].
  by rewrite IH.
Qed.

(** X3.  A burst of calls with no timer in between reaches [func] once, with
    the arguments of the first call: the other calls are dropped. *)
Theorem throttle_burst (first : Args) (rest : list Args) :
  runEvents throttleStep (mkThrottled false 0) (Call <$> first :: rest)
  = (mkThrottled true 1, [first]).
Proof.
  rewrite fmap_cons.
  cbn [runEvents throttleStep throttledFunction inThrottle timers Nat.add].
  by rewrite throttle_in_flight.
Qed.

End closures.

(* ===================================================================== *)
(** * ThemeManager: what reaches the theme                                *)
(* ===================================================================== *)

Section theme_events.

Lemma or_light_known name : name = "light" ∨ name = "dark" → or_light (Some name) = name.
Proof. by intros [-> | ->]. Qed.

(** [setTheme] with a known theme establishes both properties. *)
Lemma setTheme_known this name w :
  name = "light" ∨ name = "dark" →
  ∃ w', setTheme this name w = Normal (tt, w') ∧
    theme_follows_storage this w' ∧ theme_is_known this w'.
Proof.
  intros Hname.
  destruct (setTheme_spec this name w) as (w' & Hrun & Hattr & Hst & _).
  exists w'. split_and!; [done| |].
  - unfold theme_follows_storage. by rewrite Hattr, Hst, or_light_known.
  - unfold theme_is_known. rewrite Hattr. destruct Hname as [-> | ->]; eauto.
Qed.

(** An event keeps the theme in step with the storage and keeps a known
    theme known; a click on the toggle makes it known. *)
Lemma onThemeEvent_spec this ev w :
  theme_follows_storage this w →
  ∃ w', onThemeEvent this ev w = Normal (tt, w') ∧
    theme_follows_storage this w' ∧
    (theme_is_known this w → theme_is_known this w') ∧
    (ev = ToggleClicked → theme_is_known this w').
Proof.
  intros Hinv. destruct ev as [|matches|name]; simpl.
  - unfold toggleTheme, getAttribute, gets, mbind, Js_bind.
    destruct (setTheme_known this
      (if bool_decide (attributes (element w (html this)) !! "data-theme" = Some "dark")
       then "light" else "dark") w) as (w' & Hrun & ? & ?).
    { case_bool_decide; eauto. }
    exists w'. by split_and!.
  - unfold onSystemThemeChange, localStorage_getItem, gets, mbind, Js_bind.
    destruct (setTheme_known this (if matches then "dark" else "light") w) as (w' & Hrun & ? & ?).
    { destruct matches; eauto. }
    destruct (localStorage w !! "theme") as [[|c s]|] eqn:Hst.
    + exists w'. by split_and!.
    + exists w. by split_and!.
    + exists w'. by split_and!.
  - unfold setThemePreference.
    destruct (bool_decide (name = "dark") || bool_decide (name = "light")) eqn:Hvalid.
    + destruct (setTheme_known this name w) as (w' & Hrun & ? & ?).
      { apply orb_true_iff in Hvalid as [H|H]; apply bool_decide_eq_true in H; eauto. }
      exists w'. by split_and!.
    + exists w. by split_and!.
Qed.

Lemma initTheme_spec this toggle icon w :
  themeToggle this = Some toggle → themeIcon this = Some icon →
  ∃ w', initTheme this w = Normal (tt, w') ∧
    theme_follows_storage this w' ∧ localStorage w' = localStorage w.
Proof.
  intros Ht Hi. unfold initTheme, updateThemeIcon, theme_follows_storage, data_theme.
  rewrite Ht, Hi. js_unfold. simpl.
  eexists. split_and!; [done| |done].
  destruct (decide (icon = html this)) as [->|]; store_simpl; apply lookup_insert_eq.
Qed.

(** X5.  On a page with the toggle and its icon, after [initTheme()] and any
    sequence of toggle clicks, system changes and [setThemePreference]
    calls, the [data-theme] attribute is the stored theme, [light] when
    none is stored; and once the toggle was clicked the theme is [light]
    or [dark]. *)
Theorem theme_attribute_follows_storage (this : ThemeManager) (toggle icon : node)
    (evs : list ThemeEvent) (w : World)
    (Htoggle : themeToggle this = Some toggle)
    (Hicon : themeIcon this = Some icon) :
  ∃ w', (initTheme this ;; forEach evs (onThemeEvent this)) w = Normal (tt, w') ∧
    data_theme this w' = Some (or_light (localStorage w' !! "theme")) ∧
    (ToggleClicked ∈ evs →
       data_theme this w' = Some "light" ∨ data_theme this w' = Some "dark").
Proof.
  destruct (initTheme_spec this toggle icon w Htoggle Hicon) as (w0 & Hinit & Hinv & _).
  unfold mbind at 1, Js_bind at 1. rewrite Hinit. clear Hinit Htoggle Hicon w.
  assert (∀ u, theme_follows_storage this u →
    ∃ u', forEach evs (onThemeEvent this) u = Normal (tt, u') ∧
      theme_follows_storage this u' ∧
      (theme_is_known this u ∨ ToggleClicked ∈ evs → theme_is_known this u')) as Hrun.
  { induction evs as [|ev evs IH]; intros u Hu.
    - exists u. split_and!; [done|done|]. intros [?|Hin]; [done|]. by apply not_elem_of_nil in Hin.
    - destruct (onThemeEvent_spec this ev u Hu) as (u1 & Hrun1 & Hu1 & Hkeep & Hclick).
      destruct (IH u1 Hu1) as (u2 & Hrun2 & Hu2 & Hknown).
      exists u2. split_and!; [|done|].
      + simpl. unfold mbind, Js_bind. by rewrite Hrun1.
      + intros [Hk|Hin]; apply Hknown.
        * left. by apply Hkeep.
        * apply elem_of_cons in Hin as [<-|Hin]; [left; by apply Hclick|by right]. }
  destruct (Hrun w0 Hinv) as (w' & Hevs & Hinv' & Hknown).
  exists w'. split_and!; [done|done|]. intros Hin. apply Hknown. by right.
Qed.

(** X5 on a page that stores a theme the script does not know: a change of
    the system, a click on the toggle and a preference that is refused. *)
Lemma theme_attribute_follows_storage_witness :
  ∃ w', (initTheme themed_manager ;;
         forEach [SystemChanged true; ToggleClicked; PreferenceSet "sepia"]
           (onThemeEvent themed_manager)) foreign_theme_page = Normal (tt, w') ∧
    data_theme themed_manager w' = Some (or_light (localStorage w' !! "theme")) ∧
    (ToggleClicked ∈ [SystemChanged true; ToggleClicked; PreferenceSet "sepia"] →
       data_theme themed_manager w' = Some "light" ∨ data_theme themed_manager w' = Some "dark").
Proof.
  apply (theme_attribute_follows_storage themed_manager 20 21
    [SystemChanged true; ToggleClicked; PreferenceSet "sepia"] foreign_theme_page);
    reflexivity.
Defined.

(** X6.  Of the changes of the colour scheme of the system, at most the first
    one is applied: [setTheme] stores the theme it applies, and a stored
    theme makes the listener return.  Whatever the world, a second change
    does nothing. *)
Theorem system_theme_applied_once (this : ThemeManager) (first second : bool) (w : World) :
  ∃ w1,
    onSystemThemeChange this first w = Normal (tt, w1) ∧
    is_Some (localStorage w1 !! "theme") ∧
    localStorage w1 !! "theme" ≠ Some "" ∧
    onSystemThemeChange this second w1 = Normal (tt, w1).
Proof.
  assert (∀ u s, localStorage u !! "theme" = Some s → s ≠ "" →
    ∀ m, onSystemThemeChange this m u = Normal (tt, u)) as Hignored.
  { intros u s Hs Hne m. unfold onSystemThemeChange, localStorage_getItem, gets, mbind, Js_bind.
    rewrite Hs. by destruct s. }
  destruct (setTheme_spec this (if first then "dark" else "light") w) as (w' & Hrun & _ & Hst & _).
  assert ((if first then "dark" else "light") ≠ "") as Hne by (by destruct first).
  unfold onSystemThemeChange at 1, localStorage_getItem, gets, mbind at 1, Js_bind at 1.
  destruct (localStorage w !! "theme") as [[|c s]|] eqn:Hw.
  - exists w'. split_and!; [done|by rewrite Hst|by rewrite Hst; intros [=]|].
    eapply Hignored; [exact Hst|done].
  - exists w. split_and!; [done|by rewrite Hw|by rewrite Hw|].
    eapply Hignored; [exact Hw|done].
  - exists w'. split_and!; [done|by rewrite Hst|by rewrite Hst; intros [=]|].
    eapply Hignored; [exact Hst|done].
Qed.

End theme_events.

(* ===================================================================== *)
(** * NavigationManager: the mobile menu                                  *)
(* ===================================================================== *)

Section mobile_menu.

Lemma openMobileMenu_spec this toggle nav w :
  mobileMenuToggle this = Some toggle → mobileNav this = Some nav →
  ∃ w', openMobileMenu this w = Normal (tt, w') ∧ menu_state w' toggle nav = menu_opened.
Proof.
  intros Ht Hn. unfold openMobileMenu. rewrite Ht, Hn. js_unfold.
  eexists. split; [done|]. unfold menu_state, menu_opened, has_class. f_equal.
  - apply bool_decide_eq_true.
    destruct (decide (nav = toggle)) as [->|], (decide (document_body = toggle)) as [Hb|];
      try rewrite Hb; store_simpl; set_solver.
  - apply bool_decide_eq_true.
    destruct (decide (document_body = nav)) as [Hb|]; try rewrite Hb; store_simpl; set_solver.
  - destruct (decide (nav = toggle)) as [->|], (decide (document_body = toggle)) as [Hb|];
      try rewrite Hb; store_simpl; apply lookup_insert_eq.
  - store_simpl. apply lookup_insert_eq.
Qed.

Lemma closeMobileMenu_spec this toggle nav w :
  mobileMenuToggle this = Some toggle → mobileNav this = Some nav →
  ∃ w', closeMobileMenu this w = Normal (tt, w') ∧ menu_state w' toggle nav = menu_closed.
Proof.
  intros Ht Hn. unfold closeMobileMenu. rewrite Ht, Hn. js_unfold.
  eexists. split; [done|]. unfold menu_state, menu_closed, has_class. f_equal.
  - apply bool_decide_eq_false.
    destruct (decide (nav = toggle)) as [->|], (decide (document_body = toggle)) as [Hb|];
      try rewrite Hb; store_simpl; set_solver.
  - apply bool_decide_eq_false.
    destruct (decide (document_body = nav)) as [Hb|]; try rewrite Hb; store_simpl; set_solver.
  - destruct (decide (nav = toggle)) as [->|], (decide (document_body = toggle)) as [Hb|];
      try rewrite Hb; store_simpl; apply lookup_insert_eq.
  - store_simpl. apply lookup_insert_eq.
Qed.

(** X7.  On a page with the toggle and the menu, [toggleMobileMenu()] reads
    the class [active] of the toggle alone: it opens the menu when the
    toggle is not active and closes it when it is, and either way leaves
    the toggle, the menu, [aria-expanded] and the scroll lock of the body
    in the same state. *)
Theorem toggleMobileMenu_flips (this : NavigationManager) (toggle nav : node) (w : World)
    (Htoggle : mobileMenuToggle this = Some toggle)
    (Hnav : mobileNav this = Some nav) :
  ∃ w', toggleMobileMenu this w = Normal (tt, w') ∧
    menu_state w' toggle nav
    = if has_class w toggle "active" then menu_closed else menu_opened.
Proof.
  unfold toggleMobileMenu. rewrite Htoggle.
  unfold deref, classList_contains, gets, mbind, Js_bind, mret, Js_ret.
  fold (has_class w toggle "active").
  destruct (has_class w toggle "active").
  - by apply closeMobileMenu_spec.
  - by apply openMobileMenu_spec.
Qed.

(** X7 on a page whose menu is closed. *)
Lemma toggleMobileMenu_flips_witness :
  ∃ w', toggleMobileMenu menu_manager fresh_world = Normal (tt, w') ∧
    menu_state w' 30 31
    = if has_class fresh_world 30 "active" then menu_closed else menu_opened.
Proof. apply (toggleMobileMenu_flips menu_manager 30 31 fresh_world); reflexivity. Defined.



End mobile_menu.

(* ===================================================================== *)
(** * NavigationManager: the section in view                              *)
(* ===================================================================== *)

Section section_in_view.

Lemma id_of_spec n w : id_of n w = Normal (default "" (attributes (element w n) !! "id"), w).
Proof. done. Qed.

(** X9.  Within a batch the last intersecting entry wins: a batch completes,
    keeps every attribute, and leaves the tracked links active exactly
    where [data-section] is the [id] of the target of its last
    intersecting entry; a batch with no intersecting entry changes
    nothing. *)
Theorem last_intersecting_section_wins (this : NavigationManager) (entries : list Entry)
    (w : World) :
  ∃ w', onSectionIntersection this entries w = Normal (tt, w') ∧
    (∀ n, attributes (element w' n) = attributes (element w n)) ∧
    match last_intersecting entries with
    | Some entry =>
        ∀ link, link ∈ navLinks this →
          has_class w' link "active"
          = bool_decide (data_section w link
                         = Some (default "" (attributes (element w (target entry)) !! "id")))
    | None => w' = w
    end.
Proof.
  unfold onSectionIntersection, last_intersecting.
  revert w. induction entries as [|entry entries IH]; intros w.
  - by exists w.
  - simpl. unfold mbind at 1, Js_bind at 1.
    destruct (isIntersecting entry) eqn:Hint.
    + unfold mbind at 1, Js_bind at 1. rewrite id_of_spec.
      set (i := default "" (attributes (element w (target entry)) !! "id")).
      destruct (updateActiveNavLink_exact this i w) as (w1 & Hrun1 & Hattr1 & Hact1).
      rewrite Hrun1.
      destruct (IH w1) as (w2 & Hrun2 & Hattr2 & Hlast).
      exists w2. split_and!; [done| |].
      * intros n. by rewrite Hattr2, Hattr1.
      * rewrite last_cons.
        destruct (last (List.filter isIntersecting entries)) as [e|].
        -- intros link Hin. rewrite Hlast by done. unfold data_section. by rewrite !Hattr1.
        -- by subst w2.
    + destruct (IH w) as (w2 & Hrun2 & Hattr2 & Hlast).
      exists w2. by split_and!.
Qed.

End section_in_view.

(* ===================================================================== *)
(** * LoadingManager: the life of a transition                            *)
(* ===================================================================== *)

Section transition_life.

(** X10.  While a transition is in flight, no sequence of [showTransition()]
    and [hideTransition()] calls changes the manager or any element:
    [hideTransition()] only sets a timer, and nothing but that timer ends
    the transition. *)
Theorem transition_in_flight_until_timer (this : LoadingManager) (calls : list TransitionCall)
    (w : World)
    (Hflight : isLoading this = true) :
  ∃ w', foldM onTransitionCall this calls w = Normal (this, w') ∧
    dom w' = dom w ∧
    List.filter (λ e, match e with SetTimeout _ _ => false | _ => true end) (log w')
    = List.filter (λ e, match e with SetTimeout _ _ => false | _ => true end) (log w).
Proof.
  revert w. induction calls as [|call calls IH]; intros w.
  - by exists w.
  - simpl. unfold mbind at 1, Js_bind at 1. destruct call; simpl.
    + rewrite showTransition_in_flight by done. apply IH.
    + unfold hideTransition. destruct (pageTransition this) as [overlay|].
      * js_unfold.
        destruct (IH (record (SetTimeout 300 (TaskTransitionReset overlay)) w))
          as (w' & Hrun & Hdom & Hlog).
        exists w'. by split_and!.
      * apply IH.
Qed.

(** X10 for a manager in flight and three calls. *)
Lemma transition_in_flight_until_timer_witness :
  ∃ w', foldM onTransitionCall (set_isLoading true idle_manager) [ShowCall; HideCall; ShowCall]
          fresh_world = Normal (set_isLoading true idle_manager, w') ∧
    dom w' = dom fresh_world ∧
    List.filter (λ e, match e with SetTimeout _ _ => false | _ => true end) (log w')
    = List.filter (λ e, match e with SetTimeout _ _ => false | _ => true end) (log fresh_world).
Proof.
  apply (transition_in_flight_until_timer (set_isLoading true idle_manager)
    [ShowCall; HideCall; ShowCall] fresh_world).
  reflexivity.
Defined.

(** X11.  The timer of [hideTransition()] ends the transition whenever it
    fires: the overlay loses the class [active] and [isLoading] is
    cleared, so that the next [showTransition()] shows the overlay
    again. *)
Theorem reset_timer_rearms_transition (this : LoadingManager) (overlay : node) (w : World)
    (Hoverlay : pageTransition this = Some overlay) :
  ∃ this1 w1 this2 w2,
    fire this (TaskTransitionReset overlay) w = Normal (this1, w1) ∧
    isLoading this1 = false ∧ has_class w1 overlay "active" = false ∧
    showTransition this1 w1 = Normal (this2, w2) ∧
    isLoading this2 = true ∧ has_class w2 overlay "active" = true.
Proof.
  unfold fire. js_unfold.
  eexists _, _, _, _. split_and!; [done|done| | | |].
  - apply bool_decide_eq_false. store_simpl. set_solver.
  - unfold showTransition. simpl. rewrite Hoverlay. js_unfold. done.
  - done.
  - apply has_class_spec. store_simpl. set_solver.
Qed.

(** X11 on a manager with an overlay. *)
Lemma reset_timer_rearms_transition_witness :
  ∃ this1 w1 this2 w2,
    fire idle_manager (TaskTransitionReset 9) fresh_world = Normal (this1, w1) ∧
    isLoading this1 = false ∧ has_class w1 9 "active" = false ∧
    showTransition this1 w1 = Normal (this2, w2) ∧
    isLoading this2 = true ∧ has_class w2 9 "active" = true.
Proof. apply (reset_timer_rearms_transition idle_manager 9 fresh_world). reflexivity. Defined.

(** The loader: [hideLoader()] starts the fade-out and its timer removes
    the loader and marks the body as loaded. *)
Lemma loader_timer_spec this loader w :
  pageLoader this = Some loader →
  ∃ w1 w2,
    hideLoader this w = Normal (tt, w1) ∧
    log w1 = SetTimeout 600 (TaskLoaderGone loader) :: ClassAdd loader "fade-out" :: log w ∧
    fire this (TaskLoaderGone loader) w1 = Normal (this, w2) ∧
    has_class w2 loader "fade-out" = true ∧
    style (element w2 loader) !! "display" = Some (CssText "none") ∧
    has_class w2 document_body "loaded" = true.
Proof.
  intros Hl. unfold hideLoader, fire. rewrite Hl. js_unfold.
  eexists _, _. split_and!; [done|done|done| | |].
  - apply has_class_spec.
    destruct (decide (document_body = loader)) as [Hb|]; try rewrite Hb; store_simpl; set_solver.
  - destruct (decide (document_body = loader)) as [Hb|]; try rewrite Hb; store_simpl;
      apply lookup_insert_eq.
  - apply has_class_spec. store_simpl. set_solver.
Qed.

(** ** Links the first pass intercepts *)

Lemma filter_by_node {B} (g : Anchor → list (Anchor * B)) (anchors : list Anchor) (link : Anchor) :
  (∀ a r, In r (g a) → r.1 = a) →
  NoDup (link_node <$> anchors) → link ∈ anchors →
  List.filter (λ r, Nat.eqb (link_node r.1) (link_node link)) (flat_map g anchors) = g link.
Proof.
  intros Hg. induction anchors as [|a anchors IH]; intros Hnodup Hin.
  - by apply not_elem_of_nil in Hin.
  - rewrite fmap_cons in Hnodup. apply NoDup_cons in Hnodup as [Ha Hnodup].
    simpl. rewrite List.filter_app.
    assert (∀ b, b ∈ anchors → link_node b = link_node a → False) as Hfresh.
    { intros b Hb Heq. apply Ha. rewrite <- Heq. by apply list_elem_of_fmap_2. }
    destruct (decide (link_node a = link_node link)) as [Heq|Hne].
    + assert (a = link) as ->.
      { apply elem_of_cons in Hin as [->|Hin]; [done|]. by destruct (Hfresh link). }
      assert (List.filter (λ r, Nat.eqb (link_node r.1) (link_node link)) (g link) = g link) as ->.
      { apply List.forallb_filter_id, List.forallb_forall.
        intros r Hr. rewrite (Hg _ _ Hr). apply Nat.eqb_refl. }
      rewrite filter_none; [by rewrite app_nil_r|].
      intros r Hr. apply in_flat_map in Hr as (b & Hb & Hr). rewrite (Hg _ _ Hr).
      apply Nat.eqb_neq. intros Heq'. apply (Hfresh b); [by apply list_elem_of_In|done].
    + apply elem_of_cons in Hin as [->|Hin]; [done|].
      rewrite filter_none; [by apply IH|].
      intros r Hr. rewrite (Hg _ _ Hr). by apply Nat.eqb_neq.
Qed.

Lemma initTransitions_flat anchors :
  initTransitions anchors
  = flat_map (λ a, if selects_external a then [(a, ExternalLinkClick)] else []) anchors ++
    flat_map (λ a,
      if selects_html a && (negb (String.prefix "http" (link_href a))
                            && negb (includes "#" (link_href a)))
      then [(a, PageLinkClick)] else []) anchors.
Proof.
  unfold initTransitions. f_equal.
  - induction anchors as [|a anchors IH]; simpl; [done|].
    destruct (selects_external a); simpl; by rewrite IH.
  - induction anchors as [|a anchors IH]; simpl; [done|].
    destruct (selects_html a); simpl; by rewrite IH.
Qed.

(** On a page whose anchors are distinct elements, a click on an anchor
    runs the listener of the first pass if the first selector matches it,
    then the listener of the second pass if it was registered. *)
Lemma click_listeners this anchors link w :
  NoDup (link_node <$> anchors) → link ∈ anchors →
  click this anchors link w
  = foldM onClick this
      ((if selects_external link then [(link, ExternalLinkClick)] else []) ++
       (if selects_html link && (negb (String.prefix "http" (link_href link))
                                 && negb (includes "#" (link_href link)))
        then [(link, PageLinkClick)] else [])) w.
Proof.
  intros Hnodup Hin. unfold click. rewrite initTransitions_flat, List.filter_app.
  rewrite !filter_by_node; try done.
  all: intros a r Hr; revert Hr; case_match; intros Hr; [by destruct Hr as [<-|[]]|done].
Qed.

(** X12.  On a page whose anchors are distinct elements, a click on an
    absolute http(s) link that stays in its browsing context is
    intercepted exactly once: the default is prevented, the overlay is
    shown if it can be, and one navigation to the link is scheduled after
    600 ms, also while a transition is already in flight. *)
Theorem external_link_click_intercepted (this : LoadingManager) (anchors : list Anchor)
    (link : Anchor) (w : World)
    (Hnodup : NoDup (link_node <$> anchors))
    (Hin : link ∈ anchors)
    (Hselected : selects_external link = true)
    (Hhttp : String.prefix "http" (link_href link) = true)
    (Hmail : String.prefix "mailto:" (link_href link) = false)
    (Htarget : link_target link ≠ "_blank") :
  ∃ this' w',
    showTransition this (record PreventDefault w) = Normal (this', w') ∧
    click this anchors link w
    = Normal (this', record (SetTimeout 600 (TaskNavigate (link_href link))) w').
Proof.
  rewrite click_listeners by done. rewrite Hselected, Hhttp. simpl.
  rewrite andb_false_r, Hmail.
  assert (String.eqb (link_target link) "_blank" = false) as ->.
  { by apply String.eqb_neq. }
  simpl. unfold mbind, Js_bind, preventDefault, modify.
  destruct (showTransition this (record PreventDefault w)) as [[this' w']|e] eqn:Hshow.
  - by exists this', w'.
  - exfalso. unfold showTransition in Hshow. js_unfold.
    by destruct (isLoading this), (pageTransition this).
Qed.

(** X12 for the link to GitHub among the links of a page, while a
    transition is in flight. *)
Lemma external_link_click_intercepted_witness :
  ∃ this' w',
    showTransition (set_isLoading true idle_manager) (record PreventDefault fresh_world)
      = Normal (this', w') ∧
    click (set_isLoading true idle_manager) [sonora_link; github_link; blank_link] github_link
      fresh_world
    = Normal (this', record (SetTimeout 600 (TaskNavigate (link_href github_link))) w').
Proof.
  apply (external_link_click_intercepted (set_isLoading true idle_manager)
    [sonora_link; github_link; blank_link] github_link fresh_world).
  - by vm_compute; repeat (apply NoDup_cons; split; [set_solver|]); apply NoDup_nil.
  - set_solver.
  - reflexivity.
  - reflexivity.
  - reflexivity.
  - done.
Defined.

End transition_life.

(* ===================================================================== *)
(** * AnimationManager: observing                                         *)
(* ===================================================================== *)

Section observing.

Lemma targets_observe w observer n :
  targets (record (Observe observer n)
    (with_observing (λ o, <[observer := (o !!! observer) ∪ {[n]}]> o) w)) observer
  = targets w observer ∪ {[n]}.
Proof. unfold targets; simpl. by rewrite lookup_total_insert_eq. Qed.

Lemma forEach_observe_targets observer els w :
  ∃ w', forEach els (observer_observe observer) w = Normal (tt, w') ∧
    (∀ n, element w' n = element w n) ∧
    targets w' observer = targets w observer ∪ list_to_set els.
Proof.
  revert w. induction els as [|el els IH]; intros w; simpl.
  - exists w. split_and!; [done|done|set_solver].
  - js_unfold.
    destruct (IH (record (Observe observer el)
      (with_observing (λ o, <[observer := (o !!! observer) ∪ {[el]}]> o) w)))
      as (w' & Hrun & Hel & Ht).
    exists w'. split_and!; [exact Hrun|done|].
    rewrite Ht, targets_observe. set_solver.
Qed.

(** The constructor submits every fade-in element to its observer. *)
Lemma construct_observes observer fadeIns w :
  ∃ w', construct observer fadeIns w
      = Normal (mkAnimationManager {["fadeIn" := observer]} ∅, w') ∧
    (∀ n, element w' n = element w n) ∧
    ∀ el, el ∈ fadeIns → el ∈ targets w' observer.
Proof.
  unfold construct, initFadeInAnimations.
  destruct (forEach_observe_targets observer fadeIns w) as (w' & Hrun & Hel & Ht).
  exists w'. split_and!; [|done|].
  - unfold mbind, Js_bind. rewrite Hrun. simpl. by rewrite insert_empty.
  - intros el Hin. rewrite Ht. set_solver.
Qed.

(** An iteration of the callback calls [unobserve] on an element only
    when it fades in and its [animate-once] is not disabled. *)
Lemma onFadeInEntry_keeps observer this entry w el :
  ¬ animates_once w el ∨ el ∈ animatedElements this →
  ∃ this' w' new,
    onFadeInEntry observer this entry w = Normal (this', w') ∧
    log w' = new ++ log w ∧
    (∀ n, attributes (element w' n) = attributes (element w n)) ∧
    unobserve_calls el new = 0 ∧
    (el ∈ targets w' observer ↔ el ∈ targets w observer) ∧
    (el ∈ animatedElements this → el ∈ animatedElements this').
Proof.
  intros Hel. destruct (entry_fires this entry) eqn:Hfires.
  - unfold onFadeInEntry. fold (entry_fires this entry). rewrite Hfires.
    unfold entry_fires in Hfires. apply andb_true_iff in Hfires as [_ Hfresh].
    apply negb_true_iff, bool_decide_eq_false in Hfresh.
    unfold animates_once in Hel. js_unfold. store_simpl.
    set (t := target entry) in *.
    case_bool_decide as Honce.
    + assert (el ≠ t) as Hne.
      { intros ->. by destruct Hel. }
      eexists _, _, [Unobserve observer t; ClassAdd t "visible"].
      split_and!; [done|done| | | |].
      * intros n. destruct (decide (n = t)) as [->|]; by store_simpl.
      * unfold unobserve_calls; simpl.
        apply Nat.eqb_neq in Hne. rewrite Nat.eqb_sym in Hne. by rewrite Hne.
      * rewrite targets_unobserve. set_solver.
      * simpl. set_solver.
    + eexists _, _, [ClassAdd t "visible"].
      split_and!; [done|done| |done|done|].
      * intros n. destruct (decide (n = t)) as [->|]; by store_simpl.
      * simpl. set_solver.
  - rewrite onFadeInEntry_idle by done. exists this, w, []. by split_and!.
Qed.

Lemma fadeIn_entries_keep observer entries this w el :
  ¬ animates_once w el ∨ el ∈ animatedElements this →
  ∃ this' w' new,
    foldM (onFadeInEntry observer) this entries w = Normal (this', w') ∧
    log w' = new ++ log w ∧
    unobserve_calls el new = 0 ∧
    (el ∈ targets w' observer ↔ el ∈ targets w observer).
Proof.
  revert this w. induction entries as [|entry entries IH]; intros this w Hel.
  - exists this, w, []. by split_and!.
  - destruct (onFadeInEntry_keeps observer this entry w el Hel)
      as (this1 & w1 & new1 & Hrun1 & Hlog1 & Hattr1 & Hu1 & Ht1 & Hin1).
    destruct (IH this1 w1) as (this' & w' & new2 & Hrun2 & Hlog2 & Hu2 & Ht2).
    { destruct Hel as [Hel|Hel]; [left|right; by apply Hin1].
      unfold animates_once in *. by rewrite Hattr1. }
    exists this', w', (new2 ++ new1). split_and!.
    + simpl. unfold mbind, Js_bind. by rewrite Hrun1.
    + by rewrite Hlog2, Hlog1, app_assoc.
    + by rewrite unobserve_calls_app, Hu1, Hu2.
    + by rewrite Ht2.
Qed.

(** X13.  An element whose [data-animate-once] is ["false"] does not fade in
    again either: over any sequence of callbacks the class [visible] is
    added once if some entry reports it intersecting and never otherwise.
    What the attribute changes is that the element is never unobserved:
    it stays a target of the observer. *)
Theorem repeatable_element_fades_once (observer : nat) (fadeIns : list node) (el : node)
    (batches : list (list Entry)) (w0 : World)
    (Hrepeat : attributes (element w0 el) !! "data-animate-once" = Some "false")
    (Hregistered : el ∈ fadeIns) :
  ∃ this0 w1 this' w' new,
    construct observer fadeIns w0 = Normal (this0, w1) ∧
    foldM (fadeInCallback observer) this0 batches w1 = Normal (this', w') ∧
    log w' = new ++ log w1 ∧
    visible_adds el new = (if intersects el (concat batches) then 1 else 0) ∧
    unobserve_calls el new = 0 ∧
    el ∈ targets w' observer.
Proof.
  destruct (construct_observes observer fadeIns w0) as (w1 & Hc & Hel1 & Hobserved).
  set (this0 := mkAnimationManager {["fadeIn" := observer]} ∅) in *.
  destruct (fadeIn_entries_spec observer (concat batches) this0 w1)
    as (this' & w' & new & Hrun & Hlog & _ & _ & Hel).
  destruct (fadeIn_entries_keep observer (concat batches) this0 w1 el)
    as (this'' & w'' & new' & Hrun' & Hlog' & Hu & Ht).
  { left. unfold animates_once. rewrite Hel1, Hrepeat. by intros []. }
  rewrite Hrun in Hrun'. injection Hrun' as <- <-.
  rewrite Hlog in Hlog'. apply app_inv_tail in Hlog' as <-.
  exists this0, w1, this', w', new. rewrite fadeIn_batches.
  split_and!; [done|done|done| |done|].
  - destruct (Hel el) as [_ Hcase].
    rewrite bool_decide_eq_false_2 in Hcase by (subst this0; simpl; set_solver).
    destruct (intersects el (concat batches)).
    + by destruct Hcase as (_ & Hv & _).
    + by destruct Hcase as (_ & Hv & _).
  - apply Ht. by apply Hobserved.
Qed.

(** X13 on a page with a repeatable element that is reported intersecting
    twice. *)
Lemma repeatable_element_fades_once_witness :
  ∃ this0 w1 this' w' new,
    construct 7 [4; 5] repeatable_page = Normal (this0, w1) ∧
    foldM (fadeInCallback 7) this0 [[mkEntry 4 true]; [mkEntry 4 false]; [mkEntry 4 true]] w1
      = Normal (this', w') ∧
    log w' = new ++ log w1 ∧
    visible_adds 4 new
    = (if intersects 4 (concat [[mkEntry 4 true]; [mkEntry 4 false]; [mkEntry 4 true]])
       then 1 else 0) ∧
    unobserve_calls 4 new = 0 ∧
    4 ∈ targets w' 7.
Proof.
  apply (repeatable_element_fades_once 7 [4; 5] 4
    [[mkEntry 4 true]; [mkEntry 4 false]; [mkEntry 4 true]] repeatable_page).
  - reflexivity.
  - set_solver.
Defined.

(** X14.  [observeElement] submits an element whether or not it has faded in;
    one that has is then never withdrawn: over any sequence of callbacks
    it stays a target of the observer, and nothing more is done to it. *)
Theorem resubmitted_element_stays_observed (this : AnimationManager) (observer : nat)
    (el : node) (batches : list (list Entry)) (w : World)
    (Hobserver : observers this !! "fadeIn" = Some observer)
    (Hanimated : el ∈ animatedElements this) :
  ∃ w1 this' w' new,
    observeElement this (Some el) w = Normal (tt, w1) ∧
    el ∈ targets w1 observer ∧
    foldM (fadeInCallback observer) this batches w1 = Normal (this', w') ∧
    log w' = new ++ log w1 ∧
    visible_adds el new = 0 ∧ unobserve_calls el new = 0 ∧
    element w' el = element w el ∧
    el ∈ targets w' observer.
Proof.
  unfold observeElement. rewrite Hobserver. js_unfold.
  set (w1 := record _ _).
  destruct (fadeIn_entries_spec observer (concat batches) this w1)
    as (this' & w' & new & Hrun & Hlog & _ & _ & Hel).
  destruct (Hel el) as [_ Hcase]. rewrite bool_decide_eq_true_2 in Hcase by done.
  destruct Hcase as (_ & Hv & Hu & He & Ht).
  assert (el ∈ targets w1 observer) as Hin.
  { subst w1. rewrite targets_observe. set_solver. }
  exists w1, this', w', new. rewrite fadeIn_batches.
  split_and!; [done..|by rewrite He|by apply Ht].
Qed.

(** X14 for an element that has faded in and is reported intersecting again.
    *)
Lemma resubmitted_element_stays_observed_witness :
  ∃ w1 this' w' new,
    observeElement (mkAnimationManager {["fadeIn" := 7]} {[4]}) (Some 4) fresh_world
      = Normal (tt, w1) ∧
    4 ∈ targets w1 7 ∧
    foldM (fadeInCallback 7) (mkAnimationManager {["fadeIn" := 7]} {[4]}) [[mkEntry 4 true]] w1
      = Normal (this', w') ∧
    log w' = new ++ log w1 ∧
    visible_adds 4 new = 0 ∧ unobserve_calls 4 new = 0 ∧
    element w' 4 = element fresh_world 4 ∧
    4 ∈ targets w' 7.
Proof.
  apply (resubmitted_element_stays_observed (mkAnimationManager {["fadeIn" := 7]} {[4]}) 7 4
    [[mkEntry 4 true]] fresh_world).
  - reflexivity.
  - set_solver.
Defined.

Lemma forEach_disconnect_targets observersList w :
  ∃ w', forEach observersList observer_disconnect w = Normal (tt, w') ∧
    (∀ n, element w' n = element w n) ∧
    (∀ o, o ∈ observersList → targets w' o = ∅) ∧
    (∀ o, targets w o = ∅ → targets w' o = ∅).
Proof.
  revert w. induction observersList as [|o os IH]; intros w; simpl.
  - exists w. split_and!; [done|done| |done]. intros o Ho. by apply not_elem_of_nil in Ho.
  - js_unfold.
    set (w1 := record (Disconnect o) (with_observing (<[o := ∅]>) w)).
    destruct (IH w1) as (w' & Hrun & Hel & Hin & Hkeep).
    assert (targets w1 o = ∅) as Ho.
    { unfold targets, w1; simpl. by rewrite lookup_total_insert_eq. }
    exists w'. split_and!; [exact Hrun|done| |].
    + intros o' Ho'. apply elem_of_cons in Ho' as [->|Ho']; [by apply Hkeep|by apply Hin].
    + intros o' Hempty. apply Hkeep. unfold targets, w1 in *; simpl.
      destruct (decide (o = o')) as [->|].
      * by rewrite lookup_total_insert_eq.
      * by rewrite lookup_total_insert_ne.
Qed.

(** X15.  [destroy()] is final: every observer the manager had registered
    watches nothing afterwards, a second [destroy()] changes nothing, and
    [observeElement] no longer submits anything. *)
Theorem destroy_is_final (this : AnimationManager) (w : World) :
  ∃ this_d w_d,
    destroy this w = Normal (this_d, w_d) ∧
    (∀ name observer, observers this !! name = Some observer → targets w_d observer = ∅) ∧
    (∀ n, element w_d n = element w n) ∧
    destroy this_d w_d = Normal (this_d, w_d) ∧
    ∀ el, observeElement this_d el w_d = Normal (tt, w_d).
Proof.
  unfold destroy at 1.
  destruct (forEach_disconnect_targets (map_to_list (observers this)).*2 w)
    as (w_d & Hrun & Hel & Hin & _).
  exists (mkAnimationManager ∅ ∅), w_d. split_and!.
  - unfold mbind, Js_bind. by rewrite Hrun.
  - intros name observer Hlookup. apply Hin.
    apply list_elem_of_fmap. exists (name, observer). split; [done|].
    by apply elem_of_map_to_list.
  - done.
  - unfold destroy. simpl. by rewrite map_to_list_empty.
  - intros el. unfold observeElement. simpl. by rewrite lookup_empty.
Qed.

End observing.

(* ===================================================================== *)
(** * LazyLoader                                                          *)
(* ===================================================================== *)

Section lazy_loading.
Import DomExtra Performance.

Lemma nonempty_spec value s : nonempty value = Some s ↔ value = Some s ∧ s ≠ "".
Proof.
  unfold nonempty. destruct value as [v|]; [|naive_solver].
  case_bool_decide; naive_solver.
Qed.

Lemma loadElement_spec el w :
  ∃ w', loadElement el w = Normal (tt, w') ∧
    element w' el = loaded (element w el) ∧
    (∀ n, n ≠ el → element w' n = element w n) ∧
    observing w' = observing w.
Proof.
  unfold loadElement, removeAttribute, loaded. js_unfold.
  destruct (nonempty (attributes (element w el) !! "data-src")) as [s|] eqn:Hsrc;
    destruct (nonempty (attributes (element w el) !! "data-srcset")) as [s'|] eqn:Hsrcset;
    (eexists; split_and!; [done| |intros n Hn; by store_simpl|done]);
    by store_simpl.
Qed.

Lemma loaded_idem e : loaded (loaded e) = loaded e.
Proof.
  unfold loaded.
  destruct (nonempty (attributes e !! "data-src")) as [s|] eqn:Hsrc;
    destruct (nonempty (attributes e !! "data-srcset")) as [s'|] eqn:Hsrcset; simpl.
  all: repeat first
    [ rewrite lookup_delete_eq | rewrite lookup_delete_ne by done
    | rewrite lookup_insert_ne by done ]; simpl.
  all: rewrite ?Hsrc, ?Hsrcset; simpl.
  all: f_equal; set_solver.
Qed.

Lemma handleIntersection_spec obs entries w :
  ∃ w', handleIntersection (mkLazyLoader (Some obs)) entries w = Normal (tt, w') ∧
    (∀ el, element w' el
           = if intersects el entries then loaded (element w el) else element w el) ∧
    (∀ el, el ∈ targets w' obs ↔ el ∈ targets w obs ∧ intersects el entries = false).
Proof.
  unfold handleIntersection. revert w.
  induction entries as [|entry entries IH]; intros w.
  - exists w. split_and!; [done|done|]. intros el. simpl. naive_solver.
  - cbn [forEach]. unfold mbind at 1. unfold Js_bind at 1.
    destruct (isIntersecting entry) eqn:Hi.
    + destruct (loadElement_spec (target entry) w) as (w1 & Hload & Hel1 & Hrest1 & Hobs1).
      unfold mbind at 1. unfold Js_bind at 1. rewrite Hload. simpl observer.
      js_unfold.
      set (w2 := record _ _).
      destruct (IH w2) as (w' & Hrun & Hel & Ht).
      exists w'. split_and!; [exact Hrun| |].
      * intros el. rewrite Hel. unfold w2. store_simpl. simpl. rewrite Hi. simpl.
        destruct (decide (target entry = el)) as [<-|Hne].
        -- rewrite Nat.eqb_refl, Hel1, loaded_idem. by destruct (intersects _ _).
        -- apply Nat.eqb_neq in Hne as Hne'. rewrite Hne'. simpl.
           by rewrite Hrest1.
      * intros el. rewrite Ht. unfold w2. rewrite targets_unobserve.
        unfold targets at 1. rewrite Hobs1. fold (targets w obs).
        simpl. rewrite Hi. simpl.
        destruct (decide (target entry = el)) as [<-|Hne].
        -- rewrite Nat.eqb_refl. set_solver.
        -- apply Nat.eqb_neq in Hne as Hne'. rewrite Hne'. set_solver.
    + simpl. js_unfold. destruct (IH w) as (w' & Hrun & Hel & Ht).
      exists w'. split_and!; [exact Hrun| |].
      * intros el. rewrite Hel. simpl. by rewrite Hi.
      * intros el. rewrite Ht. simpl. by rewrite Hi.
Qed.

(** The callbacks an observer makes are one pass over the entries. *)
Lemma handleIntersection_batches this batches w :
  forEach batches (handleIntersection this) w = handleIntersection this (concat batches) w.
Proof.
  unfold handleIntersection. revert w.
  induction batches as [|batch batches IH]; intros w; [done|].
  simpl. rewrite forEach_app. unfold mbind, Js_bind.
  destruct (forEach batch _ w) as [[[] w1]|e]; [apply IH|done].
Qed.

Lemma loadElements_spec obs els w :
  ∃ w', loadElements (mkLazyLoader (Some obs)) els w = Normal (tt, w') ∧
    (∀ n, element w' n = element w n) ∧
    targets w' obs = targets w obs ∪ list_to_set els.
Proof.
  destruct (forEach_observe_targets obs els w) as (w' & Hrun & Hel & Ht).
  exists w'. split_and!; [|done..].
  rewrite <- Hrun. unfold loadElements. clear. revert w.
  induction els as [|el els IH]; intros w; [done|].
  simpl. js_unfold. apply IH.
Qed.

Lemma loaded_loaded_from e : loaded_from e (loaded e).
Proof.
  unfold loaded_from, loaded. split_and!; [set_solver| | |done..].
  - intros s Hs Hne.
    assert (nonempty (attributes e !! "data-src") = Some s) as -> by by apply nonempty_spec.
    destruct (nonempty (attributes e !! "data-srcset")); simpl.
    all: repeat first
      [ rewrite lookup_delete_eq | rewrite lookup_delete_ne by done
      | rewrite lookup_insert_eq | rewrite lookup_insert_ne by done ]; done.
  - intros s Hs Hne.
    assert (nonempty (attributes e !! "data-srcset") = Some s) as -> by by apply nonempty_spec.
    simpl. by rewrite lookup_delete_eq, lookup_delete_ne, lookup_insert_eq.
Qed.

(** X16.  A loader built in a browser that has IntersectionObserver observes
    every lazy element and loads one when a callback reports it
    intersecting: from then on the element carries the class [loaded],
    its sources are in [src] and [srcset], and the observer has let go
    of it.  An element never reported intersecting is left as it was, and
    a lazy one stays observed.  No callback throws. *)
Theorem lazy_element_loads_when_seen (obs : nat) (lazyElements : list node)
    (batches : list (list Entry)) (w0 : World) (el : node) :
  ∃ this w1 w',
    construct true obs lazyElements w0 = Normal (this, w1) ∧
    forEach batches (handleIntersection this) w1 = Normal (tt, w') ∧
    if intersects el (concat batches)
    then loaded_from (element w0 el) (element w' el) ∧ el ∉ targets w' obs
    else element w' el = element w0 el ∧ (el ∈ lazyElements → el ∈ targets w' obs).
Proof.
  destruct (loadElements_spec obs lazyElements w0) as (w1 & Hc & Hel1 & Ht1).
  destruct (handleIntersection_spec obs (concat batches) w1) as (w' & Hrun & Hel & Ht).
  exists (mkLazyLoader (Some obs)), w1, w'. split_and!.
  - unfold construct. unfold mbind, Js_bind. by rewrite Hc.
  - by rewrite handleIntersection_batches.
  - rewrite Hel, Hel1. destruct (intersects el (concat batches)) eqn:Hi.
    + split; [apply loaded_loaded_from|]. intros Hin. apply Ht in Hin as [_ Hf].
      by rewrite Hi in Hf.
    + split; [done|]. intros Hin. apply Ht. split; [|done]. rewrite Ht1. set_solver.
Qed.

Lemma loadAllImages_spec els w :
  ∃ w', loadAllImages els w = Normal (tt, w') ∧
    observing w' = observing w ∧
    ∀ el, element w' el = if bool_decide (el ∈ els) then loaded (element w el) else element w el.
Proof.
  unfold loadAllImages. revert w. induction els as [|x els IH]; intros w.
  - exists w. split_and!; [done|done|]. intros el.
    by rewrite bool_decide_eq_false_2 by set_solver.
  - destruct (loadElement_spec x w) as (w1 & Hload & Hel1 & Hrest1 & Hobs1).
    destruct (IH w1) as (w' & Hrun & Hobs & Hel).
    exists w'. split_and!.
    + simpl. unfold mbind, Js_bind. by rewrite Hload.
    + by rewrite Hobs.
    + intros el. rewrite Hel. destruct (decide (el = x)) as [->|Hne].
      * rewrite Hel1, loaded_idem, (bool_decide_eq_true_2 (x ∈ x :: els)) by set_solver.
        by case_bool_decide.
      * rewrite Hrest1 by done.
        case_bool_decide as Hin.
        -- by rewrite bool_decide_eq_true_2 by set_solver.
        -- by rewrite bool_decide_eq_false_2 by set_solver.
Qed.

(** X17.  In a browser without IntersectionObserver the constructor loads every
    lazy element at once, and only those; there is no observer, and
    nothing is observed. *)
Theorem lazy_fallback_loads_at_once (obs : nat) (lazyElements : list node) (w0 : World)
    (el : node) :
  ∃ w',
    construct false obs lazyElements w0 = Normal (mkLazyLoader None, w') ∧
    observing w' = observing w0 ∧
    if bool_decide (el ∈ lazyElements)
    then loaded_from (element w0 el) (element w' el)
    else element w' el = element w0 el.
Proof.
  destruct (loadAllImages_spec lazyElements w0) as (w' & Hrun & Hobs & Hel).
  exists w'. split_and!; [|done|].
  - unfold construct. unfold mbind, Js_bind. by rewrite Hrun.
  - rewrite Hel. case_bool_decide; [apply loaded_loaded_from|done].
Qed.

End lazy_loading.

(* ===================================================================== *)
(** * links.js                                                            *)
(* ===================================================================== *)

Section links.
Import DomExtra Links.

Lemma substring_0_length s : String.substring 0 (String.length s) s = s.
Proof. induction s as [|c s IH]; simpl; [done|by rewrite IH]. Qed.

Lemma substring_at_end a s :
  String.substring (String.length a) (String.length s) (a +:+ s) = s.
Proof. induction a as [|c a IH]; simpl; [apply substring_0_length|done]. Qed.

Lemma substring_append m n s t :
  String.length (String.substring m n s) = n →
  String.substring m n (s +:+ t) = String.substring m n s.
Proof.
  revert m n. induction s as [|c s IH]; intros m n Hlen.
  - assert (n = 0) as -> by by destruct m, n.
    replace (String.substring m 0 "") with "" by by destruct m.
    change ("" +:+ t) with t. clear. revert m.
    induction t as [|c t IH]; intros m; destruct m; simpl; auto.
  - destruct m as [|m]; simpl in *.
    + destruct n as [|n]; [done|]. simpl in *. f_equal. apply IH. lia.
    + by apply IH.
Qed.

(** [s.includes(sub)] for a keyword [sub]: it occurs somewhere in [s]. *)
Lemma includes_spec sub s :
  sub ≠ "" →
  includes sub s = true ↔ ∃ m, String.substring m (String.length sub) s = sub.
Proof.
  intros Hsub. unfold includes. destruct (String.index 0 sub s) as [m|] eqn:Hindex.
  - split; [|done]. intros _. exists m. by apply String.index_correct1 in Hindex.
  - split; [done|]. intros [m Hm].
    by destruct (String.index_correct3 0 m sub s Hindex Hsub ltac:(lia)).
Qed.

Lemma includes_append sub s t :
  sub ≠ "" → includes sub s = true → includes sub (s +:+ t) = true.
Proof.
  intros Hsub Hin. apply includes_spec in Hin as [m Hm]; [|done].
  apply includes_spec; [done|]. exists m. rewrite substring_append; [done|].
  by rewrite Hm.
Qed.

Lemma append_assoc' (a b c : string) : (a +:+ b) +:+ c = a +:+ (b +:+ c).
Proof. induction a as [|x a IH]; [done|exact (f_equal (String x) IH)]. Qed.

Lemma includes_at_end sub s sep : sub ≠ "" → includes sub (s +:+ sep +:+ sub) = true.
Proof.
  intros Hsub. rewrite <- append_assoc'. apply includes_spec; [done|].
  exists (String.length (s +:+ sep)). apply substring_at_end.
Qed.

Lemma prefix_append s t : String.prefix s (s +:+ t) = true.
Proof.
  induction s as [|c s IH]; simpl; [by destruct t|].
  by destruct (Ascii.ascii_dec c c).
Qed.

Lemma prefix_refl s : String.prefix s s = true.
Proof.
  induction s as [|c s IH]; simpl; [done|]. by destruct (Ascii.ascii_dec c c).
Qed.

Lemma prefix_empty s : String.prefix "" s = true.
Proof. by destruct s. Qed.

(** A link that names both keywords is left alone. *)
Lemma secureLink_secured link w :
  secured w link = true → secureLink link w = Normal (tt, w).
Proof.
  unfold secured, rel_of, secureLink, rel. intros [H1 H2]%andb_true_iff.
  js_unfold. rewrite H1. simpl. by rewrite H2.
Qed.

Lemma secureLink_spec link w :
  ∃ w', secureLink link w = Normal (tt, w') ∧
    secured w' link = true ∧
    is_Some (attributes (element w' link) !! "rel") ∧
    String.prefix (rel_of w link) (rel_of w' link) = true ∧
    (∀ n, n ≠ link → element w' n = element w n).
Proof.
  unfold secured, rel_of, secureLink, rel. js_unfold.
  set (r0 := default "" (attributes (element w link) !! "rel")).
  destruct (includes "noopener" r0) eqn:H1; simpl; fold r0.
  - destruct (includes "noreferrer" r0) eqn:H2; simpl; fold r0.
    + exists w. fold r0. rewrite H1, H2. split_and!; [done|done| |apply prefix_refl|done].
      subst r0. destruct (attributes (element w link) !! "rel"); [done|].
      by vm_compute in H1.
    + eexists. split; [done|]. store_simpl. rewrite lookup_insert_eq. simpl.
      assert (r0 ≠ "") as Hne by (intros E; rewrite E in H1; by vm_compute in H1).
      rewrite bool_decide_eq_false_2 by done.
      split_and!; [|done|apply prefix_append|intros n Hn; by store_simpl].
      apply andb_true_iff. split; [by apply includes_append|by apply (includes_at_end "noreferrer" _ " ")].
  - store_simpl. rewrite lookup_insert_eq. simpl.
    set (r1 := if bool_decide (r0 = "") then "noopener" else r0 +:+ " noopener").
    assert (includes "noopener" r1 = true) as H1'.
    { subst r1. case_bool_decide; [done|]. by apply (includes_at_end "noopener" _ " "). }
    assert (r1 ≠ "") as Hne.
    { intros E. rewrite E in H1'. by vm_compute in H1'. }
    assert (String.prefix r0 r1 = true) as Hpre.
    { subst r1. case_bool_decide as E; [rewrite E; done|apply prefix_append]. }
    destruct (includes "noreferrer" r1) eqn:H2; simpl.
    + eexists. split; [done|]. store_simpl. rewrite lookup_insert_eq. simpl.
      fold r1. rewrite H1', H2.
      split_and!; [done|done|done|intros n Hn; by store_simpl].
    + eexists. split; [done|]. store_simpl. rewrite !lookup_insert_eq. simpl.
      rewrite bool_decide_eq_false_2 by done.
      split_and!; [|done| |intros n Hn; by store_simpl].
      * apply andb_true_iff. split; [by apply includes_append|by apply (includes_at_end "noreferrer" _ " ")].
      * subst r1. case_bool_decide as E.
        -- rewrite E. done.
        -- rewrite append_assoc'. apply prefix_append.
Qed.

Lemma handleExternalLinks_spec links w :
  ∃ w', handleExternalLinks links w = Normal (tt, w') ∧
    (∀ link, link ∈ links ∨ secured w link = true → secured w' link = true) ∧
    (∀ link, link ∈ links → is_Some (attributes (element w' link) !! "rel")) ∧
    (∀ link, String.prefix (rel_of w link) (rel_of w' link) = true) ∧
    (∀ n, n ∉ links ∨ secured w n = true → element w' n = element w n).
Proof.
  unfold handleExternalLinks. revert w. induction links as [|x links IH]; intros w.
  - exists w. split_and!; [done| | | |done].
    + intros link [Hin|Hs]; [by apply not_elem_of_nil in Hin|done].
    + intros link Hin. by apply not_elem_of_nil in Hin.
    + intros link. apply prefix_refl.
  - destruct (secureLink_spec x w) as (w1 & Hrun1 & Hsec1 & Hrel1 & Hpre1 & Hrest1).
    destruct (IH w1) as (w' & Hrun & Hsec & Hrel & Hpre & Hrest).
    assert (∀ l, secured w l = true → element w1 l = element w l) as Hkeep.
    { intros l Hl. destruct (decide (l = x)) as [->|Hne]; [|by apply Hrest1].
      rewrite (secureLink_secured x w Hl) in Hrun1. by injection Hrun1 as <-. }
    assert (∀ l, secured w l = true → secured w1 l = true) as Hmono.
    { intros l Hl. unfold secured, rel_of in *. by rewrite Hkeep. }
    exists w'. split_and!.
    + simpl. unfold mbind, Js_bind. by rewrite Hrun1.
    + intros link [Hin|Hs]; apply Hsec.
      * apply elem_of_cons in Hin as [->|Hin]; [by right|by left].
      * right. by apply Hmono.
    + intros link Hin. apply elem_of_cons in Hin as [->|Hin]; [|by apply Hrel].
      rewrite Hrest; [done|by right].
    + intros link. destruct (decide (link = x)) as [->|Hne].
      * unfold rel_of at 2. rewrite Hrest by (by right). apply Hpre1.
      * unfold rel_of at 1. rewrite <- Hrest1 by done. apply Hpre.
    + intros n [Hn|Hs].
      * rewrite Hrest by (left; set_solver). apply Hrest1. set_solver.
      * rewrite Hrest by (right; by apply Hmono). by apply Hkeep.
Qed.

(** X18.  [handleExternalLinks()] leaves every link that opens a new tab with a
    [rel] that names both [noopener] and [noreferrer]; what the attribute
    held before is kept, as the beginning of the new value.  No other
    element is touched, and a second run changes nothing. *)
Theorem external_links_are_secured (blankLinks : list node) (w : World) :
  ∃ w',
    handleExternalLinks blankLinks w = Normal (tt, w') ∧
    (∀ link, link ∈ blankLinks →
       ∃ r, attributes (element w' link) !! "rel" = Some r ∧
         includes "noopener" r = true ∧ includes "noreferrer" r = true ∧
         String.prefix (rel_of w link) r = true) ∧
    (∀ n, n ∉ blankLinks → element w' n = element w n) ∧
    handleExternalLinks blankLinks w' = Normal (tt, w').
Proof.
  destruct (handleExternalLinks_spec blankLinks w) as (w' & Hrun & Hsec & Hrel & Hpre & Hrest).
  exists w'. split_and!; [done| | |].
  - intros link Hin. destruct (Hrel link Hin) as [r Hr]. exists r.
    specialize (Hsec link (or_introl Hin)). specialize (Hpre link).
    unfold secured, rel_of in Hsec, Hpre. rewrite Hr in Hsec, Hpre. simpl in *.
    apply andb_true_iff in Hsec as [? ?]. by split_and!.
  - intros n Hn. apply Hrest. by left.
  - clear -Hsec. unfold handleExternalLinks.
    assert (∀ link, link ∈ blankLinks → secured w' link = true) as Hall by auto.
    clear Hsec. induction blankLinks as [|x links IH]; [done|].
    simpl. unfold mbind, Js_bind. rewrite secureLink_secured by (apply Hall; set_solver).
    apply IH. intros link Hin. apply Hall. set_solver.
Qed.

(** X19.  A click on a link at rest puts it in the loading state and sets the
    timer; a click while it is loading is prevented and changes nothing
    on the page; when the timer fires the link is exactly as it was
    before the first click. *)
Theorem loading_state_round_trip (link : node) (w : World)
    (Hrest : has_class w link "loading" = false)
    (Hnot_busy : attributes (element w link) !! "aria-busy" = None) :
  ∃ w1 w2 w3,
    onLoadingLinkClick link w = Normal (true, w1) ∧
    has_class w1 link "loading" = true ∧
    attributes (element w1 link) !! "aria-busy" = Some "true" ∧
    onLoadingLinkClick link w1 = Normal (false, w2) ∧
    dom w2 = dom w1 ∧ log w2 = PreventDefault :: log w1 ∧
    onLoadingTimeout link w2 = Normal (tt, w3) ∧
    ∀ n, element w3 n = element w n.
Proof.
  unfold onLoadingLinkClick, onLoadingTimeout, removeAttribute, has_class in *. js_unfold.
  rewrite Hrest. simpl.
  apply bool_decide_eq_false in Hrest.
  eexists _, _, _. split; [done|]. store_simpl.
  split; [apply bool_decide_eq_true; set_solver|].
  split; [by rewrite lookup_insert_eq|].
  rewrite bool_decide_eq_true_2 by set_solver.
  split; [done|]. split; [done|]. split; [done|]. split; [done|].
  intros n. destruct (decide (n = link)) as [->|Hne]; [|by store_simpl].
  unfold element at 1. simpl. rewrite !lookup_total_insert_eq. simpl.
  rewrite delete_insert_id by done.
  destruct (element w link) as [c a s t] eqn:E. unfold element in E. rewrite E.
  simpl in *. unfold set_attributes, set_classList. simpl. f_equal. set_solver.
Qed.

(** X19 on a link at rest. *)
Lemma loading_state_round_trip_witness :
  ∃ w1 w2 w3,
    onLoadingLinkClick 40 resting_link_page = Normal (true, w1) ∧
    has_class w1 40 "loading" = true ∧
    attributes (element w1 40) !! "aria-busy" = Some "true" ∧
    onLoadingLinkClick 40 w1 = Normal (false, w2) ∧
    dom w2 = dom w1 ∧ log w2 = PreventDefault :: log w1 ∧
    onLoadingTimeout 40 w2 = Normal (tt, w3) ∧
    ∀ n, element w3 n = element resting_link_page n.
Proof.
  apply (loading_state_round_trip 40 resting_link_page).
  - reflexivity.
  - reflexivity.
Defined.

Lemma onMouseEnter_spec origin this url :
  NoDup (head this) →
  (∀ u, u ∈ preloadedUrls this ↔ ("prefetch", u) ∈ head this) →
  let this' := onMouseEnter origin this url in
  NoDup (head this') ∧
  (∀ u, u ∈ preloadedUrls this' ↔ ("prefetch", u) ∈ head this') ∧
  ∀ x, x ∈ head this' ↔
    x ∈ head this ∨ (x = ("prefetch", url) ∧ String.prefix origin url = true).
Proof.
  intros Hnodup Hset. unfold onMouseEnter. case_bool_decide as Hin.
  - split_and!; [done|done|]. intros x. split; [by left|].
    intros [?|[-> _]]; [done|]. by apply Hset.
  - destruct (String.prefix origin url) eqn:Hpre; simpl.
    + split_and!.
      * apply NoDup_app. split_and!; [done| |apply NoDup_singleton].
        intros x Hx ->%list_elem_of_singleton. apply Hin. by apply Hset.
      * intros u. rewrite elem_of_union, elem_of_singleton, elem_of_app,
          list_elem_of_singleton, Hset. naive_solver.
      * intros x. rewrite elem_of_app, list_elem_of_singleton. naive_solver.
    + split_and!; [done|done|]. intros x. naive_solver.
Qed.

Lemma hover_from origin urls this :
  NoDup (head this) →
  (∀ u, u ∈ preloadedUrls this ↔ ("prefetch", u) ∈ head this) →
  let this' := foldl (onMouseEnter origin) this urls in
  NoDup (head this') ∧
  ∀ x, x ∈ head this' ↔
    x ∈ head this ∨ ∃ u, x = ("prefetch", u) ∧ u ∈ urls ∧ String.prefix origin u = true.
Proof.
  revert this. induction urls as [|url urls IH]; intros this Hnodup Hset; simpl.
  - split; [done|]. intros x. split; [by left|]. intros [?|(u & _ & Hu & _)]; [done|].
    by apply not_elem_of_nil in Hu.
  - destruct (onMouseEnter_spec origin this url Hnodup Hset) as (Hnodup1 & Hset1 & Hhead1).
    destruct (IH _ Hnodup1 Hset1) as [Hnodup' Hhead'].
    split; [done|]. intros x. rewrite Hhead', Hhead1. split.
    + intros [[?|[-> Hpre]]|(u & -> & Hu & Hpre)]; [by left|right..].
      * exists url. split_and!; [done|set_solver|done].
      * exists u. split_and!; [done|set_solver|done].
    + intros [?|(u & -> & Hu & Hpre)]; [by left; left|].
      apply elem_of_cons in Hu as [->|Hu]; [left; by right|right; by exists u].
Qed.

(** X20.  Hovering over links prefetches each same-origin URL once, however
    often and on however many links it is met, and nothing else: the
    elements appended to the head are [prefetch] links to exactly the
    hovered URLs that start with the origin, without repetition. *)
Theorem each_same_origin_url_prefetched_once (origin : string) (urls : list string) :
  NoDup (head (hover origin urls)) ∧
  ∀ r u, (r, u) ∈ head (hover origin urls) ↔
    r = "prefetch" ∧ u ∈ urls ∧ String.prefix origin u = true.
Proof.
  destruct (hover_from origin urls (mkPreloader ∅ [])) as [Hnodup Hhead].
  { apply NoDup_nil_2. }
  { intros u. simpl. set_solver. }
  split; [done|]. intros r u. unfold hover. rewrite Hhead. simpl. split.
  - intros [Hin|(u' & [= -> ->] & ? & ?)]; [by apply not_elem_of_nil in Hin|done].
  - intros (-> & ? & ?). right. by exists u.
Qed.

End links.

(* ===================================================================== *)
(** * accessibility.js                                                    *)
(* ===================================================================== *)

Section focus.
Import Accessibility.







End focus.

Section aria_labels.
Import DomExtra Accessibility.
Variable trim : string → string.

Lemma label_links_spec (selected : list node) w :
  NoDup selected →
  (∀ link, link ∈ selected → aria_label w link = None) →
  ∃ w',
    forEach selected (λ link,
      label ← getAttribute link "aria-label" ;
      text ← textContent_get link ;
      let currentLabel := or_string label (trim text) in
      setAttribute link "aria-label" (currentLabel +:+ " (opens in new tab)")) w
    = Normal (tt, w') ∧
    (∀ link, link ∈ selected →
       aria_label w' link
       = Some (trim (textContent (element w link)) +:+ " (opens in new tab)")) ∧
    (∀ n, n ∉ selected → element w' n = element w n) ∧
    (∀ n, textContent (element w' n) = textContent (element w n)).
Proof.
  revert w. induction selected as [|x selected IH]; intros w Hnodup Hnone.
  - exists w. split_and!; [done| |done|done]. intros link Hin. by apply not_elem_of_nil in Hin.
  - apply NoDup_cons in Hnodup as [Hx Hnodup].
    cbn [forEach]. unfold textContent_get. js_unfold.
    assert (attributes (element w x) !! "aria-label" = None) as -> by (apply Hnone; set_solver).
    simpl. set (w1 := record _ _).
    destruct (IH w1) as (w' & Hrun & Hlabel & Hrest & Htext); [done| |].
    { intros link Hin. unfold aria_label, w1. store_simpl.
      rewrite element_update_ne by set_solver. apply Hnone. set_solver. }
    exists w'. split_and!; [exact Hrun| | |].
    + intros link Hin. apply elem_of_cons in Hin as [->|Hin].
      * unfold aria_label. rewrite Hrest by done. unfold w1. store_simpl.
        by rewrite lookup_insert_eq.
      * rewrite Hlabel by done. unfold w1. store_simpl.
        by rewrite element_update_ne by set_solver.
    + intros n Hn. rewrite Hrest by set_solver. unfold w1. store_simpl.
      by rewrite element_update_ne by set_solver.
    + intros n. rewrite Htext. unfold w1. store_simpl.
      destruct (decide (n = x)) as [->|Hne]; by store_simpl.
Qed.

(** X23.  [enhanceAriaLabels()] never replaces a label: a link that opens a new
    tab keeps the [aria-label] it has, and one without gets its trimmed
    text followed by [(opens in new tab)].  Afterwards every such link is
    labelled, so a second run changes nothing. *)
Theorem aria_labels_added_once (blankLinks : list node) (w : World)
    (Hdistinct : NoDup blankLinks) :
  ∃ w',
    enhanceAriaLabels trim blankLinks w = Normal (tt, w') ∧
    (∀ link, link ∈ blankLinks →
       aria_label w' link
       = Some (default (trim (textContent (element w link)) +:+ " (opens in new tab)")
                 (aria_label w link))) ∧
    (∀ n, n ∉ blankLinks → element w' n = element w n) ∧
    enhanceAriaLabels trim blankLinks w' = Normal (tt, w').
Proof.
  unfold enhanceAriaLabels. unfold gets at 1. unfold mbind at 1. unfold Js_bind at 1.
  set (selected := List.filter _ blankLinks).
  assert (∀ link, link ∈ selected ↔ link ∈ blankLinks ∧ aria_label w link = None) as Hsel.
  { intros link. unfold selected. rewrite !list_elem_of_In, List.filter_In.
    rewrite negb_true_iff, bool_decide_eq_false. unfold aria_label.
    rewrite <- eq_None_not_Some. done. }
  destruct (label_links_spec selected w) as (w' & Hrun & Hlabel & Hrest & Htext).
  { unfold selected. apply NoDup_ListNoDup, List.NoDup_filter. by apply NoDup_ListNoDup. }
  { intros link Hin. by apply Hsel. }
  exists w'. split_and!; [exact Hrun| | |].
  - intros link Hin. destruct (aria_label w link) as [l|] eqn:Hl; simpl.
    + unfold aria_label. rewrite Hrest; [done|]. intros Hs%Hsel. destruct Hs. congruence.
    + apply Hlabel. by apply Hsel.
  - intros n Hn. apply Hrest. intros Hs%Hsel. by destruct Hs.
  - unfold gets at 1. unfold mbind at 1. unfold Js_bind at 1.
    rewrite filter_none; [done|]. intros link Hin%list_elem_of_In.
    apply negb_false_iff, bool_decide_eq_true.
    destruct (aria_label w link) as [l|] eqn:Hl.
    + rewrite Hrest; [unfold aria_label in Hl; by rewrite Hl|].
      intros Hs%Hsel. destruct Hs. congruence.
    + fold (aria_label w' link). rewrite Hlabel; [done|]. by apply Hsel.
Qed.

End aria_labels.

(** X23 on a page with a labelled and an unlabelled link, with the identity
    for [trim]. *)
Lemma aria_labels_added_once_witness :
  ∃ w',
    Accessibility.enhanceAriaLabels id [50; 51] blank_links_page = Normal (tt, w') ∧
    (∀ link, link ∈ [50; 51] →
       aria_label w' link
       = Some (default (id (textContent (element blank_links_page link))
                          +:+ " (opens in new tab)")
                 (aria_label blank_links_page link))) ∧
    (∀ n, n ∉ [50; 51] → element w' n = element blank_links_page n) ∧
    Accessibility.enhanceAriaLabels id [50; 51] w' = Normal (tt, w').
Proof.
  apply (aria_labels_added_once id [50; 51] blank_links_page).
  apply NoDup_cons. split; [set_solver|]. apply NoDup_singleton.
Defined.

(* ===================================================================== *)
(** * The single-file script                                              *)
(* ===================================================================== *)

Section script.
Import DomExtra Script.

Lemma has_class_add w n c m c' :
  has_class (record (ClassAdd n c)
    (update_element n (λ e, set_classList (classList e ∪ {[c]}) e) w)) m c'
  = has_class w m c' || bool_decide (n = m ∧ c = c').
Proof.
  unfold has_class. destruct (decide (n = m)) as [->|Hne]; store_simpl.
  - destruct (decide (c = c')) as [->|Hc].
    + rewrite (bool_decide_eq_true_2 (m = m ∧ c' = c')) by done.
      rewrite orb_true_r. apply bool_decide_eq_true. set_solver.
    + rewrite (bool_decide_eq_false_2 (m = m ∧ c = c')) by naive_solver.
      rewrite orb_false_r. apply bool_decide_ext. set_solver.
  - rewrite (bool_decide_eq_false_2 (n = m ∧ c = c')) by naive_solver.
    by rewrite orb_false_r.
Qed.

Lemma has_class_remove w n c m c' :
  has_class (record (ClassRemove n c)
    (update_element n (λ e, set_classList (classList e ∖ {[c]}) e) w)) m c'
  = has_class w m c' && negb (bool_decide (n = m ∧ c = c')).
Proof.
  unfold has_class. destruct (decide (n = m)) as [->|Hne]; store_simpl.
  - destruct (decide (c = c')) as [->|Hc].
    + rewrite (bool_decide_eq_true_2 (m = m ∧ c' = c')) by done.
      rewrite andb_false_r. apply bool_decide_eq_false. set_solver.
    + rewrite (bool_decide_eq_false_2 (m = m ∧ c = c')) by naive_solver.
      rewrite andb_true_r. apply bool_decide_ext. set_solver.
  - rewrite (bool_decide_eq_false_2 (n = m ∧ c = c')) by naive_solver.
    by rewrite andb_true_r.
Qed.

Lemma classList_toggle_spec n c w :
  ∃ w', classList_toggle n c w = Normal (tt, w') ∧
    ∀ m c', has_class w' m c'
            = if bool_decide (n = m ∧ c = c') then negb (has_class w m c') else has_class w m c'.
Proof.
  unfold classList_toggle. js_unfold. fold (has_class w n c).
  destruct (has_class w n c) eqn:Hc; eexists; (split; [done|]); intros m c'.
  - rewrite has_class_remove. case_bool_decide as E; simpl.
    + destruct E as [<- <-]. by rewrite Hc.
    + by rewrite andb_true_r.
  - rewrite has_class_add. case_bool_decide as E; simpl.
    + destruct E as [<- <-]. by rewrite Hc.
    + by rewrite orb_false_r.
Qed.

Lemma classList_remove_spec n c w :
  ∃ w', classList_remove n c w = Normal (tt, w') ∧
    ∀ m c', has_class w' m c'
            = if bool_decide (n = m ∧ c = c') then false else has_class w m c'.
Proof.
  js_unfold. eexists. split; [done|]. intros m c'. rewrite has_class_remove.
  case_bool_decide; simpl; [by rewrite andb_false_r|by rewrite andb_true_r].
Qed.

Lemma close_spec toggle menu w :
  toggle ≠ menu →
  ∃ w',
    (classList_remove menu "active" ;;
     classList_remove toggle "active" ;;
     classList_remove document_body "menu-open") w = Normal (tt, w') ∧
    menu_classes w' toggle menu false.
Proof.
  intros Hne.
  destruct (classList_remove_spec menu "active" w) as (w1 & Hrun1 & H1).
  destruct (classList_remove_spec toggle "active" w1) as (w2 & Hrun2 & H2).
  destruct (classList_remove_spec document_body "menu-open" w2) as (w3 & Hrun3 & H3).
  exists w3. split.
  - unfold mbind, Js_bind. by rewrite Hrun1, Hrun2, Hrun3.
  - unfold menu_classes. rewrite !H3, !H2, !H1.
    repeat case_bool_decide; naive_solver.
Qed.

Lemma onMenuEvent_spec toggle menu ev w open :
  toggle ≠ menu →
  menu_classes w toggle menu open →
  ∃ w', onMenuEvent toggle menu ev w = Normal (tt, w') ∧
    menu_classes w' toggle menu (menuOpenAfter open [ev]).
Proof.
  intros Hne (Hm & Ht & Hb). destruct ev as [|insideToggle insideMenu|key]; simpl.
  - destruct (classList_toggle_spec menu "active" w) as (w1 & Hrun1 & H1).
    destruct (classList_toggle_spec toggle "active" w1) as (w2 & Hrun2 & H2).
    destruct (classList_toggle_spec document_body "menu-open" w2) as (w3 & Hrun3 & H3).
    exists w3. split.
    + unfold mbind, Js_bind. by rewrite Hrun1, Hrun2, Hrun3.
    + unfold menu_classes. rewrite !H3, !H2, !H1, Hm, Ht, Hb.
      repeat case_bool_decide; naive_solver.
  - destruct (negb insideToggle && negb insideMenu); [by apply close_spec|].
    by exists w.
  - case_bool_decide; [by apply close_spec|]. by exists w.
Qed.

(** X24.  The three classes of the mobile menu move together: from a page on
    which they agree, any sequence of events leaves them agreeing, and
    what they say is read off the events alone (a click on the toggle
    flips the menu; a click outside and the Escape key close it; nothing
    else changes it). *)
Theorem menu_classes_follow_events (toggle menu : node) (evs : list MenuEvent) (w : World)
    (open : bool)
    (Hdistinct : toggle ≠ menu)
    (Hagree : menu_classes w toggle menu open) :
  ∃ w',
    forEach evs (dispatchMenuEvent (mkMobileMenuHandler (Some toggle) (Some menu))) w
    = Normal (tt, w') ∧
    menu_classes w' toggle menu (menuOpenAfter open evs).
Proof.
  revert w open Hagree. induction evs as [|ev evs IH]; intros w open Hagree.
  - by exists w.
  - destruct (onMenuEvent_spec toggle menu ev w open Hdistinct Hagree) as (w1 & Hrun1 & H1).
    destruct (IH w1 _ H1) as (w' & Hrun & H').
    exists w'. split; [|exact H'].
    cbn [forEach]. unfold mbind, Js_bind. unfold dispatchMenuEvent at 1. simpl.
    by rewrite Hrun1.
Qed.

(** X24 on a page whose menu is closed. *)
Lemma menu_classes_follow_events_witness :
  ∃ w',
    forEach [ToggleClick; DocumentClick true false; DocumentKeydown "Escape"; ToggleClick]
      (dispatchMenuEvent (mkMobileMenuHandler (Some 30) (Some 31))) fresh_world
    = Normal (tt, w') ∧
    menu_classes w' 30 31
      (menuOpenAfter false
         [ToggleClick; DocumentClick true false; DocumentKeydown "Escape"; ToggleClick]).
Proof.
  apply (menu_classes_follow_events 30 31
    [ToggleClick; DocumentClick true false; DocumentKeydown "Escape"; ToggleClick]
    fresh_world false).
  - lia.
  - vm_compute. done.
Defined.

Lemma script_toggleTheme_spec this w :
  let t := if bool_decide (theme this = "light") then "dark" else "light" in
  ∃ w', toggleTheme this w = Normal (mkThemeManager t (themeIcon this), w') ∧
    attributes (element w' document_documentElement) !! "data-theme" = Some t ∧
    localStorage w' !! "theme" = Some t ∧
    ∀ icon, themeIcon this = Some icon →
      textContent (element w' icon)
      = if bool_decide (t = "light") then icon_for_light else icon_for_dark.
Proof.
  unfold toggleTheme, updateThemeIcon. simpl. js_unfold.
  destruct (themeIcon this) as [icon|] eqn:Hicon.
  - eexists. split; [done|]. simpl. split_and!.
    + destruct (decide (icon = document_documentElement)) as [->|Hne]; store_simpl.
      * by rewrite lookup_insert_eq.
      * by rewrite lookup_insert_eq.
    + by rewrite lookup_insert_eq.
    + intros ? [= <-]. by store_simpl.
  - eexists. split; [done|]. simpl. split_and!; [|by rewrite lookup_insert_eq|done].
    store_simpl. by rewrite lookup_insert_eq.
Qed.

Lemma themeAfter_S n t :
  themeAfter (S n) t
  = if bool_decide (themeAfter n t = "light") then "dark" else "light".
Proof.
  destruct n as [|n]; [done|].
  unfold themeAfter. rewrite (Nat.even_succ (S n)), <- Nat.negb_even.
  destruct (Nat.even (S n)); simpl; by case_bool_decide.
Qed.

(** X25.  The theme of the single-file script after the constructor and [n]
    clicks on the toggle: the field, the [data-theme] attribute, the icon
    and, once a click has stored it, the stored theme agree.  The
    constructor takes over whatever is stored; a click turns [light] into
    [dark] and anything else into [light], so from the first click on the
    theme is one of the two. *)
Theorem script_theme_after_clicks (icon : option node) (n : nat) (w : World) :
  ∃ this0 w0 this' w',
    construct icon w = Normal (this0, w0) ∧
    toggles n this0 w0 = Normal (this', w') ∧
    theme this' = themeAfter n (or_light (localStorage w !! "theme")) ∧
    attributes (element w' document_documentElement) !! "data-theme" = Some (theme this') ∧
    (∀ i, icon = Some i →
       textContent (element w' i)
       = if bool_decide (theme this' = "light") then icon_for_light else icon_for_dark) ∧
    localStorage w' !! "theme"
    = (if bool_decide (n = 0) then localStorage w !! "theme" else Some (theme this')).
Proof.
  set (t := or_light (localStorage w !! "theme")).
  assert (∃ w0, construct icon w = Normal (mkThemeManager t icon, w0) ∧
            attributes (element w0 document_documentElement) !! "data-theme" = Some t ∧
            (∀ i, icon = Some i →
               textContent (element w0 i)
               = if bool_decide (t = "light") then icon_for_light else icon_for_dark) ∧
            localStorage w0 = localStorage w) as (w0 & Hc & Hattr0 & Hicon0 & Hstore0).
  { unfold construct, initTheme, updateThemeIcon. simpl. js_unfold. fold t.
    destruct icon as [i|]; (eexists; split; [done|]); split_and!; try done.
    - destruct (decide (i = document_documentElement)) as [->|]; store_simpl;
        by rewrite lookup_insert_eq.
    - intros ? [= <-]. by store_simpl.
    - store_simpl. by rewrite lookup_insert_eq. }
  exists (mkThemeManager t icon), w0. unfold toggles.
  assert (∃ this' w',
    foldM (λ this _, toggleTheme this) (mkThemeManager t icon) (replicate n ()) w0
    = Normal (this', w') ∧
    themeIcon this' = icon ∧
    theme this' = themeAfter n t ∧
    attributes (element w' document_documentElement) !! "data-theme" = Some (theme this') ∧
    (∀ i, icon = Some i →
       textContent (element w' i)
       = if bool_decide (theme this' = "light") then icon_for_light else icon_for_dark) ∧
    localStorage w' !! "theme"
    = (if bool_decide (n = 0) then localStorage w !! "theme" else Some (theme this')))
    as (this' & w' & Hrun & _ & Hrest).
  { induction n as [|n IH].
    - exists (mkThemeManager t icon), w0. split_and!; try done. by rewrite Hstore0.
    - destruct IH as (this' & w' & Hrun & Hi & Htheme & Hattr & Hicon & Hstore).
      destruct (script_toggleTheme_spec this' w') as (w'' & Hrun' & Hattr' & Hstore' & Hicon').
      eexists _, w''. split_and!.
      + replace (replicate (S n) ()) with (replicate n () ++ [()])
          by (by rewrite <- replicate_S_end).
        rewrite foldM_app. unfold mbind, Js_bind. rewrite Hrun. simpl.
        unfold mbind, Js_bind. rewrite Hrun'. done.
      + done.
      + by rewrite themeAfter_S, <- Htheme.
      + done.
      + intros i Hsome. apply Hicon'. by rewrite Hi.
      + done. }
  exists this', w'. split; [exact Hc|]. split; [exact Hrun|]. exact Hrest.
Qed.

Lemma style_set_has_class n prop v w m c :
  has_class (record (SetStyle n prop v)
    (if parses prop v
     then update_element n (λ e, set_style (<[prop := v]> (style e)) e) w
     else w)) m c
  = has_class w m c.
Proof.
  unfold has_class. destruct (parses prop v); [|done].
  destruct (decide (n = m)) as [->|]; by store_simpl.
Qed.

(** The loop of the click listener that closes the other items. *)
Lemma close_others_spec (actives : list FaqItem) (clicked : node) w :
  (∀ it, it ∈ actives → is_Some (faq_answer it)) →
  ∃ w',
    forEach actives (λ it,
      if negb (Nat.eqb (faq_item it) clicked)
      then
        classList_remove (faq_item it) "active" ;;
        otherAnswer ← deref (faq_answer it) "style" ;
        style_set otherAnswer "maxHeight" (CssText "")
      else mret tt) w = Normal (tt, w') ∧
    ∀ m, has_class w' m "active"
         = has_class w m "active"
           && negb (bool_decide (m ≠ clicked ∧ m ∈ faq_item <$> actives)).
Proof.
  revert w. induction actives as [|it actives IH]; intros w Hanswers.
  - exists w. split; [done|]. intros m.
    rewrite bool_decide_eq_false_2; [by rewrite andb_true_r|].
    intros [_ Hin]. by apply not_elem_of_nil in Hin.
  - cbn [forEach]. destruct (Nat.eqb (faq_item it) clicked) eqn:Heq; cbn [negb].
    + apply Nat.eqb_eq in Heq.
      destruct (IH w) as (w' & Hrun & H'); [intros; apply Hanswers; set_solver|].
      exists w'. split; [by js_unfold|]. intros m. rewrite H'. f_equal. f_equal.
      apply bool_decide_ext. rewrite fmap_cons. set_solver.
    + apply Nat.eqb_neq in Heq.
      destruct (Hanswers it) as [a Ha]; [set_solver|]. rewrite Ha. js_unfold.
      set (w1 := record (SetStyle _ _ _) _).
      destruct (IH w1) as (w' & Hrun & H'); [intros; apply Hanswers; set_solver|].
      exists w'. split; [exact Hrun|]. intros m. rewrite H'. unfold w1.
      rewrite style_set_has_class, has_class_remove, <- andb_assoc. f_equal.
      rewrite fmap_cons.
      repeat case_bool_decide; try done; exfalso; set_solver.
Qed.

(** X26.  The FAQ is an accordion: a click on a question opens its item if it
    was closed and closes it if it was open, and leaves every other item
    closed.  An item that opens gets the height of its answer as
    [max-height]. *)
Theorem faq_click_leaves_others_closed (items : list FaqItem) (scrollHeight : node → nat)
    (faqItem : FaqItem) (answer : node) (w : World)
    (Hanswers : ∀ it, it ∈ items → is_Some (faq_answer it))
    (Hanswer : faq_answer faqItem = Some answer) :
  ∃ w',
    onQuestionClick items scrollHeight faqItem w = Normal (tt, w') ∧
    has_class w' (faq_item faqItem) "active" = negb (has_class w (faq_item faqItem) "active") ∧
    (∀ it, it ∈ items → faq_item it ≠ faq_item faqItem →
       has_class w' (faq_item it) "active" = false) ∧
    (has_class w (faq_item faqItem) "active" = false →
       style (element w' answer) !! "maxHeight"
       = Some (CssText (pretty (scrollHeight answer) +:+ "px"))).
Proof.
  unfold onQuestionClick. unfold classList_contains at 1.
  unfold gets at 1 2. unfold mbind at 1 2. unfold Js_bind at 1 2.
  fold (has_class w (faq_item faqItem) "active").
  set (actives := List.filter _ items).
  assert (∀ it, it ∈ actives ↔ it ∈ items ∧ has_class w (faq_item it) "active" = true)
    as Hactives.
  { intros it. unfold actives. by rewrite !list_elem_of_In, List.filter_In. }
  destruct (close_others_spec actives (faq_item faqItem) w) as (w1 & Hrun1 & H1).
  { intros it Hin. apply Hanswers. by apply Hactives. }
  unfold mbind at 1. unfold Js_bind at 1. rewrite Hrun1. rewrite Hanswer.
  assert (has_class w1 (faq_item faqItem) "active" = has_class w (faq_item faqItem) "active")
    as Hsame.
  { rewrite H1, bool_decide_eq_false_2; [by rewrite andb_true_r|]. by intros [[] _]. }
  assert (∀ it, it ∈ items → faq_item it ≠ faq_item faqItem →
            has_class w1 (faq_item it) "active" = false) as Hothers.
  { intros it Hin Hne. rewrite H1.
    destruct (has_class w (faq_item it) "active") eqn:Hactive; [|done].
    rewrite bool_decide_eq_true_2; [done|]. split; [done|].
    apply list_elem_of_fmap. exists it. split; [done|]. by apply Hactives. }
  destruct (has_class w (faq_item faqItem) "active") eqn:Hactive; js_unfold.
  - eexists. split; [done|].
    split_and!; [| |done].
    + rewrite style_set_has_class, has_class_remove, Hsame.
      by rewrite bool_decide_eq_true_2.
    + intros it Hin Hne. rewrite style_set_has_class, has_class_remove, Hothers by done.
      done.
  - eexists. split; [done|].
    split_and!.
    + rewrite style_set_has_class, has_class_add, Hsame.
      by rewrite bool_decide_eq_true_2.
    + intros it Hin Hne. rewrite style_set_has_class, has_class_add, Hothers by done.
      rewrite bool_decide_eq_false_2; [done|]. intros [E _]. by destruct Hne.
    + intros _. store_simpl. by rewrite lookup_insert_eq.
Qed.

(** X26 for a click on the first question while the second item is open. *)
Lemma faq_click_leaves_others_closed_witness :
  ∃ w',
    onQuestionClick faq_items (λ _, 120) (mkFaqItem 60 (Some 61)) faq_page = Normal (tt, w') ∧
    has_class w' 60 "active" = negb (has_class faq_page 60 "active") ∧
    (∀ it, it ∈ faq_items → faq_item it ≠ 60 → has_class w' (faq_item it) "active" = false) ∧
    (has_class faq_page 60 "active" = false →
       style (element w' 61) !! "maxHeight" = Some (CssText (pretty 120 +:+ "px"))).
Proof.
  apply (faq_click_leaves_others_closed faq_items (λ _, 120) (mkFaqItem 60 (Some 61)) 61
    faq_page).
  - intros it Hin. unfold faq_items in Hin.
    repeat (apply elem_of_cons in Hin as [->|Hin]; [by eexists|]).
    by apply not_elem_of_nil in Hin.
  - reflexivity.
Defined.

(** X27.  A click on the question of an item that has no [.faq-answer] throws:
    the listener reads [answer.style] on both of its branches. *)
Theorem faq_click_without_answer_throws (items : list FaqItem) (scrollHeight : node → nat)
    (faqItem : FaqItem) (w : World)
    (Hmissing : faq_answer faqItem = None) :
  ∃ e, onQuestionClick items scrollHeight faqItem w = Throw e.
Proof.
  unfold onQuestionClick. unfold classList_contains at 1.
  unfold gets at 1 2. unfold mbind at 1 2. unfold Js_bind at 1 2.
  unfold mbind at 1. unfold Js_bind at 1.
  destruct (forEach _ _ w) as [[[] w1]|e]; [|by exists e].
  rewrite Hmissing. js_unfold. destruct (bool_decide _); by eexists.
Qed.

(** X27 for an item without answer. *)
Lemma faq_click_without_answer_throws_witness :
  ∃ e, onQuestionClick faq_items (λ _, 120) (mkFaqItem 66 None) faq_page = Throw e.
Proof.
  apply (faq_click_without_answer_throws faq_items (λ _, 120) (mkFaqItem 66 None) faq_page).
  reflexivity.
Defined.

End script.

(* ===================================================================== *)
(** * LoadingManager: the typing animation                                *)
(* ===================================================================== *)

Section typing_animation.
Import Managers.

Lemma typeWriter_spec loader index w :
  index < String.length loaderText →
  typeWriter loader index w
  = Normal ((index + 1, NextCharacter),
      record (SetText loader (String.substring 0 (index + 1) loaderText))
        (update_element loader
           (set_textContent (String.substring 0 (index + 1) loaderText)) w)).
Proof.
  intros Hlt. unfold typeWriter. apply Nat.ltb_lt in Hlt. rewrite Hlt. by js_unfold.
Qed.

Lemma loaderText_length : String.length loaderText = 10.
Proof. reflexivity. Qed.

Lemma typeWriterFires_typing loader state w :
  typing w loader state →
  ∃ state' w',
    typeWriterFires loader state.1 state.2 w = Normal (state', w') ∧
    typing w' loader state' ∧
    (∀ n, n ≠ loader → element w' n = element w n).
Proof.
  destruct state as [index timer]. unfold typing. cbn [fst snd].
  intros ([Hlo Hhi] & Htext & Hover). pose proof loaderText_length as Hlen.
  destruct timer; cbn [typeWriterFires].
  - destruct (decide (index < String.length loaderText)) as [Hlt|Hge].
    + rewrite typeWriter_spec by done. eexists _, _. split; [done|].
      split; [|intros n Hn; by store_simpl].
      cbn [fst snd]. rewrite element_record, element_update_eq.
      split_and!; [lia|lia|done|done].
    + unfold typeWriter. apply Nat.ltb_nlt in Hge as Hge'. rewrite Hge'.
      eexists _, _. split; [done|]. split; [|done].
      cbn [fst snd]. split_and!; [done|done|done|lia].
  - unfold mbind, Js_bind. unfold textContent_set at 1, modify.
    rewrite typeWriter_spec by lia.
    eexists _, _. split; [done|]. split; [|intros n Hn; by store_simpl].
    cbn [fst snd]. rewrite element_record, element_update_eq.
    split_and!; [lia|lia|done|done].
Qed.

(** X28.  The typing animation of the loader: whenever one of its timers is
    pending, the loader shows a beginning of [Loading...] that is not
    empty; the emptied text is overwritten before the script yields.  The
    pause of one second comes only when the text is complete.  No other
    element is written to. *)
Theorem loader_shows_a_prefix (loader : node) (n : nat) (w : World) :
  ∃ state0 w0 state w',
    animateLoaderText (Some loader) w = Normal (Some state0, w0) ∧
    typeWriterRuns loader n state0 w0 = Normal (state, w') ∧
    typing w' loader state ∧
    (∀ m, m ≠ loader → element w' m = element w m).
Proof.
  unfold animateLoaderText. unfold mbind at 1. unfold Js_bind at 1.
  pose proof loaderText_length as Hlen.
  rewrite typeWriter_spec by lia. unfold mret, Js_ret.
  set (w0 := record _ _).
  assert (typing w0 loader (1, NextCharacter)) as H0.
  { unfold typing, w0. cbn [fst snd]. rewrite element_record, element_update_eq.
    split_and!; [lia|lia|done|done]. }
  assert (∀ m, m ≠ loader → element w0 m = element w m) as Hrest0.
  { intros m Hm. unfold w0. by store_simpl. }
  exists (1, NextCharacter), w0.
  assert (∀ state w1, typing w1 loader state →
            ∃ state' w', typeWriterRuns loader n state w1 = Normal (state', w') ∧
              typing w' loader state' ∧
              (∀ m, m ≠ loader → element w' m = element w1 m)) as Hruns.
  { induction n as [|n IH]; intros state w1 Htyping.
    - by exists state, w1.
    - destruct (typeWriterFires_typing loader state w1 Htyping)
        as (state1 & w2 & Hrun1 & Htyping1 & Hrest1).
      destruct (IH state1 w2 Htyping1) as (state' & w' & Hrun & Htyping' & Hrest).
      exists state', w'. split_and!; [|done|].
      + simpl. unfold mbind, Js_bind. by rewrite Hrun1.
      + intros m Hm. by rewrite Hrest, Hrest1. }
  destruct (Hruns _ _ H0) as (state & w' & Hrun & Htyping & Hrest).
  exists state, w'. split_and!; [done|done|done|].
  intros m Hm. by rewrite Hrest, Hrest0.
Qed.

End typing_animation.
